(** * The value bridge of lvelements: [Value] and [ScopedValue]

    A shallow embedding of [lib/lvelements/src/value.cpp]: the persistent
    tagged union [Value], the reference counted engine handle wrapper
    [ScopedValue], and the conversion [convertFromV8<Element*>].

    Heap objects ([new int], [new LocalValuePrivate], [new Object],
    [new Callable]) live in an explicit store, C++ exceptions and undefined
    behaviour are outcomes of a small state-and-error monad, machine
    integers are [Z] with the narrowing written out, and [double] is the
    IEEE 754 binary64 format of [SpecFloat]. *)

From Stdlib Require Import ZArith Lia Bool List.
From Stdlib Require Import Floats.SpecFloat.
From stdpp Require Import gmap strings.

Local Open Scope Z_scope.

(** * Part I: the model *)

(** ** Machine integers *)

Module Int.

(** Two's complement narrowing to [bits] bits, as done by a C++ cast or an
    implicit conversion to a narrower signed type. *)
Definition wrap (bits z : Z) : Z :=
  (z + 2 ^ (bits - 1)) mod 2 ^ bits - 2 ^ (bits - 1).

Definition min32 : Z := - 2 ^ 31.
Definition max32 : Z := 2 ^ 31 - 1.
Definition min64 : Z := - 2 ^ 63.
Definition max64 : Z := 2 ^ 63 - 1.

Definition in32 (z : Z) : Prop := min32 <= z <= max32.
Definition in64 (z : Z) : Prop := min64 <= z <= max64.

Definition in32b (z : Z) : bool := (min32 <=? z) && (z <=? max32).

(** [(Value::Int32) x], and the implicit conversion to an [int32_t]
    parameter. *)
Definition to32 (z : Z) : Z := wrap 32 z.

(** [(Value::Int64) b] for a [bool]. *)
Definition of_bool (b : bool) : Z := if b then 1 else 0.

(** [(bool) x] for an integer. *)
Definition to_bool (z : Z) : bool := negb (z =? 0).

End Int.

(** ** Doubles

    [Value::Number] is [double].  A double is a [spec_float] of the binary64
    format; [==] is [SFeqb], under which a NaN differs from itself and the
    two zeros are equal. *)

Module Dbl.

Definition t : Type := spec_float.

Definition prec : Z := 53.
Definition emax : Z := 1024.

Definition nan : t := S754_nan.

(** Conversion of an integer to the nearest double (ties to even): the
    implicit conversion of an [Int64] to [double]. *)
Definition of_Z (z : Z) : t := binary_normalize prec emax z 0 false.

(** [a == b] on doubles. *)
Definition eqb (a b : t) : bool := SFeqb a b.

Definition is_nan (d : t) : bool :=
  match d with S754_nan => true | _ => false end.

Definition is_minus_zero (d : t) : bool :=
  match d with S754_zero true => true | _ => false end.

Definition is_zero (d : t) : bool :=
  match d with S754_zero _ => true | _ => false end.

(** The magnitude [m * 2^e] with the fraction dropped. *)
Definition magnitude (m : positive) (e : Z) : Z :=
  match e with
  | Zneg k => Z.pos m / 2 ^ Z.pos k
  | _ => Z.pos m * 2 ^ e
  end.

(** The integer obtained by dropping the fraction; none for NaN and the
    infinities. *)
Definition trunc (d : t) : option Z :=
  match d with
  | S754_zero _ => Some 0
  | S754_finite s m e => Some (if s then - magnitude m e else magnitude m e)
  | _ => None
  end.

(** The double has no fractional part. *)
Definition integral (d : t) : bool :=
  match d with
  | S754_zero _ => true
  | S754_finite _ m (Zneg k) => Z.pos m mod 2 ^ Z.pos k =? 0
  | S754_finite _ _ _ => true
  | _ => false
  end.

(** A double that is the image of a 32-bit signed integer; minus zero is
    not (V8's [IsInt32Double]). *)
Definition is_int32 (d : t) : bool :=
  negb (is_minus_zero d) && integral d &&
  match trunc d with Some z => Int.in32b z | None => false end.

(** ECMAScript ToInt32 of a number: NaN and the infinities give 0, other
    values are truncated and reduced modulo 2^32. *)
Definition to_int32 (d : t) : Z :=
  match trunc d with Some z => Int.to32 z | None => 0 end.

End Dbl.

(** ** Element pointers

    An [Element*] points to an object owned elsewhere; only its identity
    matters here. *)

Definition ElementPtr : Type := N.
Definition nullptr : ElementPtr := 0%N.

(** ** Handles of the scripting engine

    The part of the V8 interface that [value.cpp] consumes.  A handle
    ([v8::Local<v8::Value>]) is modelled by the guest value it refers to.
    An object carries its class and its internal fields; the only internal
    field the bridge reads holds an [External] wrapping an [Element*], so a
    field is modelled by that pointer. *)

Module v8.

Inductive ObjectClass :=
| PlainObject
| FunctionObject
| ArrayObject
| ArrayBufferObject
| StringObject (s : string).

Record JsObject := { class : ObjectClass; internal_fields : list ElementPtr }.

Inductive Local :=
| HUndefined
| HNull
| HBoolean (b : bool)
| HNumber (d : Dbl.t)
| HString (s : string)
| HObject (o : JsObject).

(** *** Shape tests *)

Definition IsUndefined (h : Local) : bool :=
  match h with HUndefined => true | _ => false end.

Definition IsNull (h : Local) : bool :=
  match h with HNull => true | _ => false end.

Definition IsNullOrUndefined (h : Local) : bool :=
  match h with HUndefined | HNull => true | _ => false end.

Definition IsBoolean (h : Local) : bool :=
  match h with HBoolean _ => true | _ => false end.

Definition IsNumber (h : Local) : bool :=
  match h with HNumber _ => true | _ => false end.

Definition IsInt32 (h : Local) : bool :=
  match h with HNumber d => Dbl.is_int32 d | _ => false end.

Definition IsString (h : Local) : bool :=
  match h with HString _ => true | _ => false end.

Definition IsObject (h : Local) : bool :=
  match h with HObject _ => true | _ => false end.

Definition IsStringObject (h : Local) : bool :=
  match h with HObject {| class := StringObject _ |} => true | _ => false end.

Definition IsFunction (h : Local) : bool :=
  match h with HObject {| class := FunctionObject |} => true | _ => false end.

Definition IsArray (h : Local) : bool :=
  match h with HObject {| class := ArrayObject |} => true | _ => false end.

Definition IsArrayBuffer (h : Local) : bool :=
  match h with HObject {| class := ArrayBufferObject |} => true | _ => false end.

(** *** Construction *)

Definition Boolean_New (b : bool) : Local := HBoolean b.

(** [v8::Integer::New(isolate, int32_t)]: the number with that integer
    value. *)
Definition Integer_New (i : Z) : Local := HNumber (Dbl.of_Z i).

Definition Number_New (d : Dbl.t) : Local := HNumber d.

(** [v8::String::NewFromUtf8(isolate, data)] on the bytes of a C string.
    An engine string is represented by its UTF-8 encoding.  On bytes that
    are not well-formed UTF-8 the engine substitutes replacement
    characters, which is not modelled: what is stated of a string that
    comes from native text is stated of ASCII text. *)
Definition String_NewFromUtf8 (s : string) : Local := HString s.

Definition StringObject_New (s : string) : Local :=
  HObject {| class := StringObject s; internal_fields := [] |}.

(** *** Object access

    [v8::Local<v8::Object>::Cast] is unchecked and leaves the handle as it
    is.  [InternalFieldCount] is the number of embedder fields of an
    object; the value 0 given outside the objects only makes the function
    total: a call of the method on a handle that is no object is undefined
    behaviour, and the code that makes the call after an unchecked cast
    goes through [Cast_InternalFieldCount] below, which faults there. *)

Definition InternalFieldCount (h : Local) : Z :=
  match h with
  | HObject o => Z.of_nat (length (internal_fields o))
  | _ => 0
  end.

(** [External::Cast(vo->GetInternalField(0))->Value()] *)
Definition GetInternalField0 (h : Local) : option ElementPtr :=
  match h with
  | HObject o => head (internal_fields o)
  | _ => None
  end.

(** *** Coercions *)

(** [BooleanValue()]: the truthiness of the guest value. *)
Definition BooleanValue (h : Local) : bool :=
  match h with
  | HUndefined | HNull => false
  | HBoolean b => b
  | HNumber d => negb (Dbl.is_zero d || Dbl.is_nan d)
  | HString s => match s with EmptyString => false | _ => true end
  | HObject _ => true
  end.

End v8.

(** ** The wrappers [Object] and [Callable]

    Both are given collaborators that reference one handle; [data()]
    answers it.  Copying a wrapper yields a wrapper of the same handle. *)

Record Object := mkObject { Object_data : v8.Local }.
Record Callable := mkCallable { Callable_data : v8.Local }.

(** ** Exceptions

    The source throws one class, [lv::Exception], with a message and a
    code.  [kind] is the name the specification gives to the failure of each
    throw site. *)

Inductive ErrorKind := TypeMismatch | InvalidValueType | InvalidCast | InvalidElement.

Inductive Code :=
| toCode (s : string)   (** [Exception::toCode(s)] *)
| rawCode (n : Z).

Record Exception := mkException { kind : ErrorKind; message : string; code : Code }.

(** ** The store *)

Definition loc : Type := positive.

Inductive Cell :=
| IntCell (n : Z)                    (** [new int] *)
| LocalValuePrivate (data : v8.Local) (** [new LocalValuePrivate(d)] *)
| ObjectCell (o : Object)            (** [new Object(o)] *)
| CallableCell (c : Callable)        (** [new Callable(c)] *)
| ScopedValueCell (m_d m_ref : loc). (** the members of a [ScopedValue] instance *)

(** [heap] holds the live objects, [garbage l] is what an uninitialised
    [int] allocated at [l] reads, [freed] logs every [delete] in order and
    [reported] is the engine's error channel. *)
Record State := mkState {
  heap : gmap loc Cell;
  garbage : loc -> Z;
  freed : list loc;
  reported : list Exception
}.

Definition set_heap (h : gmap loc Cell) (s : State) : State :=
  {| heap := h; garbage := garbage s; freed := freed s; reported := reported s |}.

(** An address above every live one. *)
Definition fresh_loc (h : gmap loc Cell) : loc :=
  map_fold (fun k _ acc => Pos.max (Pos.succ k) acc) 1%positive h.

(** ** Outcomes and the monad of native code *)

Inductive Result (A : Type) :=
| Ok (a : A) (s : State)            (** normal return *)
| Thrown (e : Exception) (s : State) (** a C++ exception unwinds to the caller *)
| Fault.                            (** undefined behaviour: a dangling access *)

Arguments Ok {A} a s.
Arguments Thrown {A} e s.
Arguments Fault {A}.

Definition M (A : Type) : Type := State -> Result A.

Definition ret {A} (a : A) : M A := fun s => Ok a s.

Definition bind {A B} (m : M A) (k : A -> M B) : M B :=
  fun s =>
    match m s with
    | Ok a s' => k a s'
    | Thrown e s' => Thrown e s'
    | Fault => Fault
    end.

Notation "'let*' x ':=' c1 'in' c2" := (bind c1 (fun x => c2))
  (at level 10, x name, c1 at level 100, c2 at level 200).

(** [THROW_EXCEPTION(lv::Exception, message, code)] *)
Definition THROW_EXCEPTION {A} (k : ErrorKind) (msg : string) (c : Code) : M A :=
  fun s => Thrown (mkException k msg c) s.

Definition fault {A} : M A := fun _ => Fault.

(** [vo->InternalFieldCount()] on the result [vo] of the unchecked
    [v8::Local<v8::Object>::Cast(value)]: undefined behaviour when the
    handle is no object. *)
Definition Cast_InternalFieldCount (vo : v8.Local) : M Z :=
  if v8.IsObject vo then ret (v8.InternalFieldCount vo) else fault.

(** [val.c_str()] read as a C string, and a [char*] turned into a
    [std::string]: the text up to its first NUL. *)
Fixpoint c_str (s : string) : string :=
  match s with
  | EmptyString => EmptyString
  | String c rest => if Ascii.eqb c Ascii.zero then EmptyString else String c (c_str rest)
  end.

Definition alloc (c : Cell) : M loc :=
  fun s => let l := fresh_loc (heap s) in Ok l (set_heap (<[l := c]> (heap s)) s).

Definition load (l : loc) : M Cell :=
  fun s => match heap s !! l with Some c => Ok c s | None => Fault end.

Definition store (l : loc) (c : Cell) : M unit :=
  fun s =>
    match heap s !! l with
    | Some _ => Ok tt (set_heap (<[l := c]> (heap s)) s)
    | None => Fault
    end.

(** [delete p]: frees a live object and logs it; deleting what is not live
    is a fault. *)
Definition delete (l : loc) : M unit :=
  fun s =>
    match heap s !! l with
    | Some _ =>
        Ok tt {| heap := base.delete l (heap s); garbage := garbage s;
                 freed := freed s ++ [l]; reported := reported s |}
    | None => Fault
    end.

(** The storage of an instance ends with its destructor; this is no
    [delete]. *)
Definition release (l : loc) : M unit :=
  fun s =>
    match heap s !! l with
    | Some _ => Ok tt (set_heap (base.delete l (heap s)) s)
    | None => Fault
    end.

(** [new int]: the fresh cell is not initialised. *)
Definition new_int : M loc :=
  fun s => let l := fresh_loc (heap s) in
           Ok l (set_heap (<[l := IntCell (garbage s l)]> (heap s)) s).

Definition load_int (l : loc) : M Z :=
  let* c := load l in
  match c with IntCell n => ret n | _ => fault end.

Definition load_handle (l : loc) : M v8.Local :=
  let* c := load l in
  match c with LocalValuePrivate d => ret d | _ => fault end.

Definition load_Object (l : loc) : M Object :=
  let* c := load l in
  match c with ObjectCell o => ret o | _ => fault end.

Definition load_Callable (l : loc) : M Callable :=
  let* c := load l in
  match c with CallableCell o => ret o | _ => fault end.

(** Pre-increment and pre-decrement of the [int] at [r]. *)
Definition pre_incr (r : loc) : M unit :=
  let* n := load_int r in store r (IntCell (Int.to32 (n + 1))).

Definition pre_decr (r : loc) : M unit :=
  let* n := load_int r in store r (IntCell (Int.to32 (n - 1))).

(** ** The engine

    The coercions of a handle that is not already of the requested shape
    (parsing a string as a number, calling [valueOf] or [toString] of a
    guest object), the handle of an element and the error-reporting entry
    point belong to the engine and are left to it. *)

Record Engine := {
  (** [ToNumber] of a handle that is not a number *)
  coerceToNumber : v8.Local -> Dbl.t;
  (** [ToString] of a handle that is not a string *)
  coerceToString : v8.Local -> string;
  (** the handle associated with an element *)
  elementHandle : ElementPtr -> v8.Local;
  (** [Engine::throwError(exception, object)] *)
  throwError : Exception -> ElementPtr -> M unit
}.

Definition ToNumber (engine : Engine) (h : v8.Local) : Dbl.t :=
  match h with
  | v8.HNumber d => d
  | _ => coerceToNumber engine h
  end.

Definition ToString (engine : Engine) (h : v8.Local) : string :=
  match h with
  | v8.HString s => s
  | _ => coerceToString engine h
  end.

(** [ToInt32(isolate)->Value()] *)
Definition ToInt32 (engine : Engine) (h : v8.Local) : Z :=
  Dbl.to_int32 (ToNumber engine h).

(** Modelled from the spec: [Engine::throwError] of [engine.cpp], which is
    not among the sources; the engine's error-reporting entry point puts the
    error on the engine's own error channel, where guest code observes it,
    and returns. *)
Definition report_error (exception : Exception) (object : ElementPtr) : M unit :=
  fun s => Ok tt {| heap := heap s; garbage := garbage s; freed := freed s;
                    reported := reported s ++ [exception] |}.

(** An engine whose entry point reports in that way. *)
Definition reporting (engine : Engine) : Prop :=
  forall exception object s,
    throwError engine exception object s = report_error exception object s.

(** ** Value: the persistent tagged union *)

Module Stored.
Inductive t := Boolean | Integer | Double | Object | Callable | Element.
End Stored.

(** [m_type] selects the member of the union [m_data] that is in use;
    [Boolean] and [Integer] both use [asInteger], [Object] and [Callable]
    hold a pointer to a heap copy of the wrapper. *)
Inductive Value :=
| VBoolean (asInteger : Z)
| VInteger (asInteger : Z)
| VDouble (asNumber : Dbl.t)
| VObject (asObject : loc)
| VCallable (asCallable : loc)
| VElement (asElement : ElementPtr).

Definition type (v : Value) : Stored.t :=
  match v with
  | VBoolean _ => Stored.Boolean
  | VInteger _ => Stored.Integer
  | VDouble _ => Stored.Double
  | VObject _ => Stored.Object
  | VCallable _ => Stored.Callable
  | VElement _ => Stored.Element
  end.

(** [Value::Data::Data(Callable value) : asCallable(new Callable(value))] *)
Definition Data_Callable (value : Callable) : M loc := alloc (CallableCell value).

(** Modelled from the spec: [Value::Data::Data(Object)] of [value.h], which
    is not among the sources; an Object payload is a heap-allocated,
    exclusively owned copy of the wrapper, as for [Callable]. *)
Definition Data_Object (value : Object) : M loc := alloc (ObjectCell value).

Definition Value_default : Value := VElement nullptr.
Definition Value_bool (v : bool) : Value := VBoolean (Int.of_bool v).
Definition Value_Int32 (v : Z) : Value := VInteger v.
Definition Value_Int64 (v : Z) : Value := VInteger v.
Definition Value_Number (v : Dbl.t) : Value := VDouble v.
Definition Value_Element (v : ElementPtr) : Value := VElement v.

Definition Value_Object (v : Object) : M Value :=
  let* p := Data_Object v in ret (VObject p).

Definition Value_Callable (v : Callable) : M Value :=
  let* p := Data_Callable v in ret (VCallable p).

(** [Value::Value(const Value &other)] *)
Definition Value_copy (other : Value) : M Value :=
  match other with
  | VBoolean i => ret (VBoolean i)
  | VInteger i => ret (VInteger i)
  | VDouble d => ret (VDouble d)
  | VObject p =>
      let* o := load_Object p in
      let* q := Data_Object o in ret (VObject q)
  | VCallable p =>
      let* c := load_Callable p in
      let* q := Data_Callable c in ret (VCallable q)
  | VElement e => ret (VElement e)
  end.

(** [Value::~Value()] *)
Definition Value_dtor (this : Value) : M unit :=
  match this with
  | VObject p => delete p
  | VCallable p => delete p
  | _ => ret tt
  end.

(** [Value::operator=]: the new state of [this].  The members of [this] are
    overwritten; what [this] held before is not looked at. *)
Definition Value_assign (this other : Value) : M Value :=
  match other with
  | VBoolean i => ret (VBoolean i)
  | VInteger i => ret (VInteger i)
  | VDouble d => ret (VDouble d)
  | VObject p =>
      let* o := load_Object p in
      let* q := Data_Object o in ret (VObject q)
  | VCallable p =>
      let* c := load_Callable p in
      let* q := Data_Callable c in ret (VCallable q)
  | VElement e => ret (VElement e)
  end.

#[global] Instance spec_float_eq_dec : EqDecision spec_float.
Proof. solve_decision. Defined.
#[global] Instance ObjectClass_eq_dec : EqDecision v8.ObjectClass.
Proof. solve_decision. Defined.
#[global] Instance JsObject_eq_dec : EqDecision v8.JsObject.
Proof. solve_decision. Defined.
#[global] Instance Local_eq_dec : EqDecision v8.Local.
Proof. solve_decision. Defined.

(** Modelled from the spec: [Object::operator==] and [Callable::operator==],
    which are not among the sources; the wrappers have their own equality,
    taken here as referencing the same handle. *)
Definition Object_eq (a b : Object) : bool :=
  bool_decide (Object_data a = Object_data b).
Definition Callable_eq (a b : Callable) : bool :=
  bool_decide (Callable_data a = Callable_data b).

(** [Value::operator==] *)
Definition Value_eq (this other : Value) : M bool :=
  match this, other with
  | VBoolean a, VBoolean b => ret (a =? b)
  | VInteger a, VInteger b => ret (a =? b)
  | VDouble a, VDouble b => ret (Dbl.eqb a b)
  | VObject p, VObject q =>
      let* a := load_Object p in
      let* b := load_Object q in ret (Object_eq a b)
  | VCallable p, VCallable q =>
      let* a := load_Callable p in
      let* b := load_Callable q in ret (Callable_eq a b)
  | VElement a, VElement b => ret (a =? b)%N
  | _, _ => ret false
  end.

Definition Value_isNull (this : Value) : bool :=
  match this with
  | VElement e => (e =? nullptr)%N
  | _ => false
  end.

Definition asBool (this : Value) : M bool :=
  match this with
  | VBoolean i => ret (Int.to_bool i)
  | _ => THROW_EXCEPTION TypeMismatch "Can't cast value into Boolean type" (toCode "~Value")
  end.

Definition asInt32 (this : Value) : M Z :=
  match this with
  | VInteger i => ret (Int.to32 i)
  | _ => THROW_EXCEPTION TypeMismatch "Can't cast value into Int32 type" (toCode "~Value")
  end.

Definition asInt64 (this : Value) : M Z :=
  match this with
  | VInteger i => ret i
  | _ => THROW_EXCEPTION TypeMismatch "Can't cast value into Int64 type" (toCode "~Value")
  end.

Definition asNumber (this : Value) : M Dbl.t :=
  match this with
  | VDouble d => ret d
  | VInteger i => ret (Dbl.of_Z i)
  | _ => THROW_EXCEPTION TypeMismatch "Can't cast value into Number type" (toCode "~Value")
  end.

Definition asObject (this : Value) : M Object :=
  match this with
  | VObject p => load_Object p
  | _ => THROW_EXCEPTION TypeMismatch "Can't cast value into Object type" (toCode "~Value")
  end.

Definition asCallable (this : Value) : M Callable :=
  match this with
  | VCallable p => load_Callable p
  | _ => THROW_EXCEPTION TypeMismatch "Can't cast value into Callable" (toCode "~Value")
  end.

Definition asElement (this : Value) : M ElementPtr :=
  match this with
  | VElement e => ret e
  | _ => THROW_EXCEPTION TypeMismatch "Can't cast value into Element" (toCode "~Value")
  end.

(** ** Collaborators of the element layer *)

(** Modelled from the spec: [ElementPrivate::localObject] of [element_p.h],
    which is not among the sources; it looks up the handle previously
    associated with the element, and a null pointer yields an undefined
    handle. *)
Definition localObject (engine : Engine) (val : ElementPtr) : v8.Local :=
  if (val =? nullptr)%N then v8.HUndefined else elementHandle engine val.

(** Modelled from the spec: [ElementPrivate::elementFromObject] of
    [element_p.h], which is not among the sources; it unwraps the pointer
    recorded in the marker slot and fails with InvalidCast when the marker
    slot is absent.  The spec gives neither the message nor the code of that
    exception. *)
Definition elementFromObject (vo : v8.Local) : M ElementPtr :=
  if v8.InternalFieldCount vo =? 1 then
    match v8.GetInternalField0 vo with
    | Some ptr => ret ptr
    | None => fault
    end
  else THROW_EXCEPTION InvalidCast "Object is not of element type" (toCode "~Element").

(** ** ScopedValue: the reference counted handle wrapper

    An instance is addressed by [this]; its members [m_d] and [m_ref] point
    to the handle record and to the counter it shares with its copies. *)

Definition load_ScopedValue (this : loc) : M (loc * loc) :=
  let* c := load this in
  match c with ScopedValueCell d r => ret (d, r) | _ => fault end.

(** Storage for a new instance with the given members. *)
Definition emplace (m_d m_ref : loc) : M loc := alloc (ScopedValueCell m_d m_ref).

(** [ScopedValue::ScopedValue(const v8::Local<v8::Value> &data)]; the
    constructors from a literal or a wrapper have the same initialisers and
    body and differ in the handle they wrap. *)
Definition ScopedValue_Local (data : v8.Local) : M loc :=
  let* m_d := alloc (LocalValuePrivate data) in
  let* m_ref := new_int in
  let* _ := pre_incr m_ref in
  emplace m_d m_ref.

Definition ScopedValue_Engine (engine : Engine) : M loc :=
  ScopedValue_Local v8.HUndefined.

Definition ScopedValue_bool (engine : Engine) (val : bool) : M loc :=
  ScopedValue_Local (v8.Boolean_New val).

Definition ScopedValue_Int32 (engine : Engine) (val : Z) : M loc :=
  ScopedValue_Local (v8.Integer_New val).

(** [v8::Integer::New] takes an [int32_t]: the [Int64] argument is
    narrowed. *)
Definition ScopedValue_Int64 (engine : Engine) (val : Z) : M loc :=
  ScopedValue_Local (v8.Integer_New (Int.to32 val)).

Definition ScopedValue_Number (engine : Engine) (val : Dbl.t) : M loc :=
  ScopedValue_Local (v8.Number_New val).

Definition ScopedValue_string (engine : Engine) (val : string) : M loc :=
  let* m_ref := new_int in
  let s := v8.String_NewFromUtf8 (c_str val) in
  let* m_d := alloc (LocalValuePrivate s) in
  let* _ := pre_incr m_ref in
  emplace m_d m_ref.

Definition ScopedValue_Callable (engine : Engine) (val : Callable) : M loc :=
  ScopedValue_Local (Callable_data val).

Definition ScopedValue_Object (engine : Engine) (val : Object) : M loc :=
  ScopedValue_Local (Object_data val).

Definition ScopedValue_Element (engine : Engine) (val : ElementPtr) : M loc :=
  ScopedValue_Local (localObject engine val).

(** [ScopedValue::ScopedValue(Engine *engine, const Value &value)].  The
    six tags are all there are, so the [default] branch of the switch is
    never taken. *)
Definition ScopedValue_Value (engine : Engine) (value : Value) : M loc :=
  let* m_ref := new_int in
  let* _ := pre_incr m_ref in
  let* data :=
    match type value with
    | Stored.Boolean =>
        let* b := asBool value in ret (v8.Boolean_New b)
    | Stored.Integer =>
        let* i := asInt64 value in ret (v8.Integer_New (Int.to32 i))
    | Stored.Double =>
        let* d := asNumber value in ret (v8.Number_New d)
    | Stored.Object =>
        let* o := asObject value in ret (Object_data o)
    | Stored.Callable =>
        let* c := asCallable value in ret (Callable_data c)
    | Stored.Element =>
        if Value_isNull value then ret v8.HUndefined
        else let* e := asElement value in ret (localObject engine e)
    end in
  let* m_d := alloc (LocalValuePrivate data) in
  emplace m_d m_ref.

(** [ScopedValue::ScopedValue(const ScopedValue &other)] *)
Definition ScopedValue_copy (other : loc) : M loc :=
  let* o := load_ScopedValue other in
  let* _ := pre_incr (snd o) in
  emplace (fst o) (snd o).

(** [ScopedValue::~ScopedValue()] *)
Definition ScopedValue_dtor (this : loc) : M unit :=
  let* me := load_ScopedValue this in
  let* _ := pre_decr (snd me) in
  let* n := load_int (snd me) in
  let* _ := (if n =? 0 then
               let* _ := delete (snd me) in delete (fst me)
             else ret tt) in
  release this.

(** [ScopedValue::operator=] *)
Definition ScopedValue_assign (this other : loc) : M unit :=
  if negb (this =? other)%positive then
    let* me := load_ScopedValue this in
    let* _ := pre_decr (snd me) in
    let* n := load_int (snd me) in
    let* _ := (if n =? 0 then
                 let* _ := delete (fst me) in delete (snd me)
               else ret tt) in
    let* o := load_ScopedValue other in
    let* _ := store this (ScopedValueCell (fst o) (snd o)) in
    pre_incr (snd o)
  else ret tt.

(** [ScopedValue::operator==] *)
Definition ScopedValue_eq (this other : loc) : M bool :=
  let* me := load_ScopedValue this in
  let* o := load_ScopedValue other in
  ret ((fst me =? fst o)%positive && (snd me =? snd o)%positive).

(** [ScopedValue::data()]: [m_d->data] *)
Definition data (this : loc) : M v8.Local :=
  let* me := load_ScopedValue this in load_handle (fst me).

Definition isNull (this : loc) : M bool :=
  let* d := data this in ret (v8.IsNull d).

Definition isBool (this : loc) : M bool :=
  let* d := data this in ret (v8.IsBoolean d).

Definition isInt (this : loc) : M bool :=
  let* d := data this in ret (v8.IsInt32 d).

Definition isNumber (this : loc) : M bool :=
  let* d := data this in ret (v8.IsNumber d).

Definition isString (this : loc) : M bool :=
  let* d := data this in ret (v8.IsStringObject d || v8.IsString d).

Definition isCallable (this : loc) : M bool :=
  let* d := data this in ret (v8.IsFunction d).

Definition isBuffer (this : loc) : M bool :=
  let* d := data this in ret (v8.IsArrayBuffer d).

Definition isObject (this : loc) : M bool :=
  let* d := data this in ret (v8.IsObject d).

Definition isArray (this : loc) : M bool :=
  let* d := data this in ret (v8.IsArray d).

Definition isElement (this : loc) : M bool :=
  let* d := data this in
  if negb (v8.IsObject d) then ret false
  else ret (v8.InternalFieldCount d =? 1).

Definition toBool (engine : Engine) (this : loc) : M bool :=
  let* d := data this in ret (v8.BooleanValue d).

Definition toInt32 (engine : Engine) (this : loc) : M Z :=
  let* d := data this in ret (ToInt32 engine d).

Definition toNumber (engine : Engine) (this : loc) : M Dbl.t :=
  let* d := data this in ret (ToNumber engine d).

(** [Callable(engine, v8::Local<v8::Function>::Cast(m_d->data))] *)
Definition toCallable (engine : Engine) (this : loc) : M Callable :=
  let* d := data this in ret (mkCallable d).

Definition toObject (engine : Engine) (this : loc) : M Object :=
  let* s := isString this in
  let* o := isObject this in
  if s && negb o then
    let* d := data this in
    let vs := ToString engine d in
    let vo := v8.StringObject_New vs in
    ret (mkObject vo)
  else
    let* vo := data this in
    let* fields := Cast_InternalFieldCount vo in
    if fields =? 1 then
      THROW_EXCEPTION TypeMismatch "Converting object of Element type to Object." (rawCode 1)
    else ret (mkObject vo).

Definition toElement (engine : Engine) (this : loc) : M ElementPtr :=
  let* d := data this in
  if v8.IsNullOrUndefined d then ret nullptr
  else elementFromObject d.

Definition toValue (engine : Engine) (this : loc) : M Value :=
  let* b := isBool this in
  if b then let* x := toBool engine this in ret (Value_bool x) else
  let* i := isInt this in
  if i then let* x := toInt32 engine this in ret (Value_Int32 x) else
  let* n := isNumber this in
  if n then let* x := toNumber engine this in ret (Value_Number x) else
  let* s := isString this in
  if s then let* x := toObject engine this in Value_Object x else
  let* e := isElement this in
  if e then let* x := toElement engine this in ret (Value_Element x) else
  let* c := isCallable this in
  if c then let* x := toCallable engine this in Value_Callable x else
  let* o := isObject this in
  if o then let* x := toObject engine this in Value_Object x else
  ret Value_default.

(** ** The generic conversion to [Element*] *)

(** [CREATE_EXCEPTION] builds the exception and does not throw it. *)
Definition CREATE_EXCEPTION (k : ErrorKind) (msg : string) (c : Code) : Exception :=
  mkException k msg c.

(** [template<> Element *convertFromV8(Engine *e, const v8::Local<v8::Value> &value)] *)
Definition convertFromV8_Element (e : Engine) (value : v8.Local) : M ElementPtr :=
  if v8.IsNullOrUndefined value then ret nullptr
  else
    let vo := value in
    let* fields := Cast_InternalFieldCount vo in
    if negb (fields =? 1) then
      let exc :=
        CREATE_EXCEPTION InvalidElement "Given value is not an Element" (toCode "~Value") in
      let* _ := throwError e exc nullptr in
      ret nullptr
    else
      match v8.GetInternalField0 vo with
      | Some ptr => ret ptr
      | None => fault
      end.

(** ** Reading the store *)

(** The handle an instance wraps, when the instance and its record are
    live. *)
Definition handle_of (s : State) (this : loc) : option v8.Local :=
  match heap s !! this with
  | Some (ScopedValueCell d _) =>
      match heap s !! d with
      | Some (LocalValuePrivate h) => Some h
      | _ => None
      end
  | _ => None
  end.

(** The value a computation returns, whatever the final store. *)
Definition answer {A} (r : Result A) : option A :=
  match r with Ok a _ => Some a | _ => None end.

(** A handle of the shape of an element: an object with exactly one
    internal field. *)
Definition element_shaped (h : v8.Local) : bool :=
  v8.IsObject h && (v8.InternalFieldCount h =? 1).

(** ** Sample stores, engines and handles *)

Definition empty_state : State :=
  {| heap := ∅; garbage := fun _ => 0; freed := []; reported := [] |}.

Definition run {A} (m : M A) : Result A := m empty_state.

(** An engine with no element registered, which reports errors on its
    channel. *)
Definition plain_engine : Engine :=
  {| coerceToNumber := fun _ => Dbl.nan;
     coerceToString := fun _ => "undefined";
     elementHandle := fun _ => v8.HUndefined;
     throwError := report_error |}.


(** A store whose uninitialised cells all read [g]. *)
Definition stale_state (g : Z) : State :=
  {| heap := ∅; garbage := fun _ => g; freed := []; reported := [] |}.

Definition plain_object : v8.Local :=
  v8.HObject {| v8.class := v8.PlainObject; v8.internal_fields := [] |}.

(** The store after the statement that builds one instance or value. *)
Definition state_after {A} (m : M A) : State :=
  match run m with
  | Ok _ s => s
  | _ => empty_state
  end.

(** [ScopedValue a(engine, "abc")] *)
Definition string_state : State := state_after (ScopedValue_string plain_engine "abc").

(** [ScopedValue a(engine)] *)
Definition undefined_state : State := state_after (ScopedValue_Engine plain_engine).

(** [ScopedValue a(engine); ScopedValue b(a)] *)
Definition shared_state : State :=
  state_after (let* a := ScopedValue_Engine plain_engine in ScopedValue_copy a).

(** [Value v(Object(...))] *)
Definition object_state : State := state_after (Value_Object (mkObject plain_object)).

(** ** The statements of the specification *)

(** *** Accessors by tag *)

(** What a [Value] is constructed from. *)
Inductive Payload :=
| PBool (b : bool)
| PInt32 (i : Z)
| PInt64 (i : Z)
| PNumber (d : Dbl.t)
| PObject (o : Object)
| PCallable (c : Callable)
| PElement (p : ElementPtr).

Definition well_typed (p : Payload) : Prop :=
  match p with
  | PInt32 i => Int.in32 i
  | PInt64 i => Int.in64 i
  | _ => True
  end.

Definition construct (p : Payload) : M Value :=
  match p with
  | PBool b => ret (Value_bool b)
  | PInt32 i => ret (Value_Int32 i)
  | PInt64 i => ret (Value_Int64 i)
  | PNumber d => ret (Value_Number d)
  | PObject o => Value_Object o
  | PCallable c => Value_Callable c
  | PElement e => ret (Value_Element e)
  end.

Inductive Expected (A : Type) :=
| Returns (a : A)
| Fails (k : ErrorKind).

Arguments Returns {A} a.
Arguments Fails {A} k.

(** The call answers as expected and leaves the store as it was. *)
Definition meets {A} (m : M A) (s : State) (x : Expected A) : Prop :=
  match x with
  | Returns a => m s = Ok a s
  | Fails k => exists e, m s = Thrown e s /\ kind e = k
  end.

Definition expect_asBool (p : Payload) : Expected bool :=
  match p with PBool b => Returns b | _ => Fails TypeMismatch end.

Definition expect_asInt32 (p : Payload) : Expected Z :=
  match p with
  | PInt32 i => Returns i
  | PInt64 i => Returns (Int.to32 i)
  | _ => Fails TypeMismatch
  end.

Definition expect_asInt64 (p : Payload) : Expected Z :=
  match p with PInt32 i | PInt64 i => Returns i | _ => Fails TypeMismatch end.

Definition expect_asNumber (p : Payload) : Expected Dbl.t :=
  match p with
  | PNumber d => Returns d
  | PInt32 i | PInt64 i => Returns (Dbl.of_Z i)
  | _ => Fails TypeMismatch
  end.

Definition expect_asObject (p : Payload) : Expected Object :=
  match p with PObject o => Returns o | _ => Fails TypeMismatch end.

Definition expect_asCallable (p : Payload) : Expected Callable :=
  match p with PCallable c => Returns c | _ => Fails TypeMismatch end.

Definition expect_asElement (p : Payload) : Expected ElementPtr :=
  match p with PElement e => Returns e | _ => Fails TypeMismatch end.

(** *** The round trip Value -> ScopedValue -> Value *)

(** [ScopedValue sv(engine, v); sv.toValue(engine) == v] *)
Definition round_trip (engine : Engine) (v : Value) : M bool :=
  let* sv := ScopedValue_Value engine v in
  let* w := toValue engine sv in
  Value_eq w v.

(** The handle [ScopedValue(engine, v)] wraps, for the four tags of the
    round trip. *)
Definition mirror (engine : Engine) (v : Value) : option v8.Local :=
  match v with
  | VBoolean i => Some (v8.Boolean_New (Int.to_bool i))
  | VInteger i => Some (v8.Integer_New (Int.to32 i))
  | VDouble d => Some (v8.Number_New d)
  | VElement p => Some (localObject engine p)
  | _ => None
  end.

(** The element has a handle of its own, whose marker slot records it. *)
Definition registered (engine : Engine) (p : ElementPtr) : Prop :=
  p ≠ nullptr /\
  element_shaped (elementHandle engine p) = true /\
  v8.IsStringObject (elementHandle engine p) = false /\
  v8.GetInternalField0 (elementHandle engine p) = Some p.

(** The values that come back equal. *)
Definition round_trips (engine : Engine) (v : Value) : Prop :=
  match v with
  | VBoolean i => exists b, i = Int.of_bool b
  | VInteger i => Int.in32 i
  | VDouble d => Dbl.is_nan d = false /\ Dbl.is_int32 d = false
  | VElement p => p = nullptr \/ registered engine p
  | _ => False
  end.

(** The values of the same tags that come back changed. *)
Definition round_trip_changes (v : Value) : Prop :=
  match v with
  | VInteger i => ~ Int.in32 i
  | VDouble d => Dbl.is_nan d = true \/ Dbl.is_int32 d = true
  | _ => False
  end.

(** *** Ownership of the payload of a Value *)

(** The heap objects a [Value] owns. *)
Definition owned (v : Value) : list loc :=
  match v with
  | VObject p | VCallable p => [p]
  | _ => []
  end.

(** The payload pointer of the [Value] is valid. *)
Definition live (s : State) (v : Value) : Prop :=
  match v with
  | VObject p => exists o, heap s !! p = Some (ObjectCell o)
  | VCallable p => exists c, heap s !! p = Some (CallableCell c)
  | _ => True
  end.

(** [copying] yields a value [w] of the tag of [v] and frees nothing; a
    scalar or element pointer is copied as it is, with no allocation; after
    the original is destroyed the copy still reads the wrapper the original
    held; destroying the copy as well frees each allocation once. *)
Definition independent_copy (s : State) (v : Value) (copying : M Value) : Prop :=
  exists w s1,
    copying s = Ok w s1 /\ type w = type v /\ freed s1 = freed s /\ live s1 w /\
    (owned v = [] -> w = v /\ s1 = s) /\
    exists s2,
      Value_dtor v s1 = Ok tt s2 /\ freed s2 = freed s ++ owned v /\ live s2 w /\
      (forall o, asObject v s = Ok o s -> asObject w s2 = Ok o s2) /\
      (forall c, asCallable v s = Ok c s -> asCallable w s2 = Ok c s2) /\
      exists s3,
        Value_dtor w s2 = Ok tt s3 /\ freed s3 = freed s ++ owned v ++ owned w /\
        NoDup (owned v ++ owned w).

(** *** Families of ScopedValue instances *)

(** The live instances that share the record [d] and the counter [r] are
    those of [I], and the counter holds their number. *)
Definition family (s : State) (d r : loc) (I : gset loc) : Prop :=
  (forall a, heap s !! a = Some (ScopedValueCell d r) <-> a ∈ I) /\
  heap s !! r = Some (IntCell (Z.of_nat (size I))) /\
  (exists h, heap s !! d = Some (LocalValuePrivate h)) /\
  Z.of_nat (size I) <= Int.max32.

(** The destructors of the instances of [ds], in that order. *)
Fixpoint destroy_all (ds : list loc) : M unit :=
  match ds with
  | [] => ret tt
  | a :: ds' => let* _ := ScopedValue_dtor a in destroy_all ds'
  end.

(** No instance refers to a counter that is gone. *)
Definition no_stale_instance (s : State) : Prop :=
  forall a d r, heap s !! a = Some (ScopedValueCell d r) -> is_Some (heap s !! r).

(** * Part I, continued: the remaining operations of value.cpp *)

(** ** More conversions of ScopedValue *)

(** [ScopedValue::toStdString]: [*v8::String::Utf8Value(m_d->data->ToString(isolate))],
    a [char*] from which the [std::string] is made. *)
Definition toStdString (engine : Engine) (this : loc) : M string :=
  let* d := data this in ret (c_str (ToString engine d)).

(** Text that [NewFromUtf8] takes as it is: ASCII, every byte below 128. *)
Definition ascii_text (s : string) : bool :=
  forallb (fun c => (Ascii.N_of_ascii c <? 128)%N) (String.list_ascii_of_string s).

(** Text without a NUL, which a C string keeps whole. *)
Definition nul_free (s : string) : bool :=
  forallb (fun c => negb (Ascii.eqb c Ascii.zero)) (String.list_ascii_of_string s).

(** ** The generic conversions [convertFromV8<T>] and [convertToV8<int>] *)

(** [value->BooleanValue()] *)
Definition convertFromV8_bool (engine : Engine) (value : v8.Local) : bool :=
  v8.BooleanValue value.

(** [value->Int32Value()] *)
Definition convertFromV8_Int32 (engine : Engine) (value : v8.Local) : Z :=
  ToInt32 engine value.

(** [value->NumberValue()] *)
Definition convertFromV8_Number (engine : Engine) (value : v8.Local) : Dbl.t :=
  ToNumber engine value.

(** [Object(engine, v8::Local<v8::Object>::Cast(value))] *)
Definition convertFromV8_Object (engine : Engine) (value : v8.Local) : Object :=
  mkObject value.

(** [convertToV8<int>]: [v8::Int32::New(isolate, value)] *)
Definition convertToV8_int (engine : Engine) (value : Z) : v8.Local :=
  v8.Integer_New value.

(** ** Statements about construction *)

(** The constructor returns a new instance, frees and reports nothing, and
    the instance and the store then satisfy [P]. *)
Definition builds (ctor : M loc) (s : State) (P : loc -> State -> Prop) : Prop :=
  exists this s',
    ctor s = Ok this s' /\ freed s' = freed s /\ reported s' = reported s /\ P this s'.

(** The tag [toValue] gives to a handle that is not element-shaped. *)
Definition tag_of_shape (h : v8.Local) : Stored.t :=
  match h with
  | v8.HUndefined | v8.HNull => Stored.Element
  | v8.HBoolean _ => Stored.Boolean
  | v8.HNumber d => if Dbl.is_int32 d then Stored.Integer else Stored.Double
  | v8.HString _ => Stored.Object
  | v8.HObject o =>
      match v8.class o with
      | v8.StringObject _ => Stored.Object
      | v8.FunctionObject => Stored.Callable
      | _ => Stored.Object
      end
  end.


(** [ScopedValue a(engine, true); ScopedValue b(engine, false)] *)
Definition two_families_state : State :=
  state_after (let* _ := ScopedValue_bool plain_engine true in
               ScopedValue_bool plain_engine false).

(** What a successful [toValue] leaves behind: a Value of tag [t] whose
    payload is valid, nothing freed or reported, every object of the store
    still there, no allocation at all unless the Value owns one, and what
    the Value owns newly allocated. *)
Definition yields (engine : Engine) (this : loc) (s : State) (t : Stored.t)
    (P : Value -> State -> Prop) : Prop :=
  exists v s',
    toValue engine this s = Ok v s' /\ type v = t /\ live s' v /\
    freed s' = freed s /\ reported s' = reported s /\
    (owned v = [] -> s' = s) /\
    (forall l c, heap s !! l = Some c -> heap s' !! l = Some c) /\
    (forall l, l ∈ owned v -> heap s !! l = None) /\
    P v s'.

(** The Values that own no heap object: every tag but Object and
    Callable. *)
Definition inline_payload (v : Value) : bool :=
  match v with VObject _ | VCallable _ => false | _ => true end.

(** The handle referenced by the wrapper an Object- or Callable-tagged
    [Value] owns. *)
Definition wrapper_handle (s : State) (v : Value) : option v8.Local :=
  match v with
  | VObject p =>
      match heap s !! p with Some (ObjectCell o) => Some (Object_data o) | _ => None end
  | VCallable p =>
      match heap s !! p with Some (CallableCell c) => Some (Callable_data c) | _ => None end
  | _ => None
  end.

(** A function of the engine, and [Value v(Object(engine, function))]. *)
Definition function_handle : v8.Local :=
  v8.HObject {| v8.class := v8.FunctionObject; v8.internal_fields := [] |}.

Definition function_state : State := state_after (Value_Object (mkObject function_handle)).

(** * The timeline: [Track] (plugins/timeline/src/track.cpp)

    A track follows the cursor of the timeline over its segments.  The
    segments themselves ([Segment], [SegmentModel]) are not part of this
    development: a call of [updateCursorPosition] sees them through the
    answers of [Segment::contains], [Segment::position] and
    [SegmentModel::segmentThatWraps], and tells them of the cursor through
    [cursorEnter], [cursorExit], [cursorNext] and [cursorMove]. *)

Definition SegmentPtr : Type := N.

(** [(qint64)]: arithmetic on positions. *)
Definition to64 (z : Z) : Z := Int.wrap 64 z.

(** What the segments answer during one call. *)
Record Segments := mkSegments {
  Segment_contains : SegmentPtr -> Z -> bool;
  Segment_position : SegmentPtr -> Z;
  segmentThatWraps : Z -> SegmentPtr
}.

(** The calls a track makes on its segments, with their argument. *)
Inductive CursorCall :=
| cursorEnter (segm : SegmentPtr) (relative : Z)
| cursorExit (segm : SegmentPtr)
| cursorNext (segm : SegmentPtr) (relative : Z)
| cursorMove (segm : SegmentPtr) (relative : Z).

Inductive CursorOperation := Ready.

Record Track := mkTrack {
  m_cursorPosition : Z;
  m_activeSegment : SegmentPtr
}.

(** The constructor of [Track]: [m_cursorPosition(0), m_activeSegment(nullptr)] *)
Definition Track_ctor : Track := {| m_cursorPosition := 0; m_activeSegment := nullptr |}.

(** [Track::updateCursorPosition(qint64 newPosition)]: the result, the
    track afterwards and the calls made on segments, in order. *)
Definition updateCursorPosition (w : Segments) (newPosition : Z) (this : Track)
  : CursorOperation * Track * list CursorCall :=
  let active := m_activeSegment this in
  let '(active1, calls1) :=
    if negb (active =? nullptr)%N then
      if Segment_contains w active newPosition then
        if newPosition =? to64 (m_cursorPosition this + 1) then
          (active, [cursorNext active (to64 (newPosition - Segment_position w active))])
        else
          (active, [cursorMove active (to64 (newPosition - Segment_position w active))])
      else (nullptr, [cursorExit active])
    else (active, []) in
  let '(active2, calls2) :=
    if (active1 =? nullptr)%N then
      let segm := segmentThatWraps w newPosition in
      (segm,
       if negb (segm =? nullptr)%N
       then [cursorEnter segm (to64 (newPosition - Segment_position w segm))]
       else [])
    else (active1, []) in
  (Ready, {| m_cursorPosition := newPosition; m_activeSegment := active2 |},
   calls1 ++ calls2).

(** A run of calls of [updateCursorPosition], the segments being what they
    are at each call. *)
Fixpoint updates (calls : list (Segments * Z)) (this : Track) : Track * list CursorCall :=
  match calls with
  | [] => (this, [])
  | (w, newPosition) :: rest =>
      let '(_, this1, made) := updateCursorPosition w newPosition this in
      let '(this2, made') := updates rest this1 in
      (this2, made ++ made')
  end.

(** The discipline of the cursor calls, read from the segment [open] the
    cursor is in ([nullptr] when in none): a segment is entered only when
    none is open, and left, stepped or moved in only while it is the open
    one.  The result is the segment open after the calls. *)
Fixpoint bracketed (open : SegmentPtr) (calls : list CursorCall) : option SegmentPtr :=
  match calls with
  | [] => Some open
  | cursorEnter g _ :: rest =>
      if (open =? nullptr)%N && negb (g =? nullptr)%N then bracketed g rest else None
  | cursorExit g :: rest =>
      if negb (g =? nullptr)%N && (g =? open)%N then bracketed nullptr rest else None
  | cursorNext g _ :: rest | cursorMove g _ :: rest =>
      if negb (g =? nullptr)%N && (g =? open)%N then bracketed open rest else None
  end.

(** [segmentThatWraps] returns a segment that contains the position. *)
Definition wraps_soundly (w : Segments) : Prop :=
  forall q, segmentThatWraps w q ≠ nullptr ->
            Segment_contains w (segmentThatWraps w q) q = true.

(** One segment, at positions 10 to 14. *)
Definition one_segment : Segments :=
  {| Segment_contains := fun g q => (g =? 1)%N && (10 <=? q) && (q <? 15);
     Segment_position := fun _ => 10;
     segmentThatWraps := fun q => if (10 <=? q) && (q <? 15) then 1%N else nullptr |}.

(** * The highlighter: text of a range of the document
      (plugins/editlv/src/languagelvhighlighter.cpp)

    ** Qt: QString and QTextDocument

    A [QString] is a sequence of UTF-16 code units; sizes and positions are
    [int]. *)

Definition QChar : Type := N.
Definition QString : Type := list QChar.

(** The line feed, ["\n"]. *)
Definition LF : QChar := 10%N.

Definition QString_length (s : QString) : Z := Z.of_nat (length s).

(** [QString::left(n)]: the whole string when [uint(n) >= uint(size)]. *)
Definition QString_left (s : QString) (n : Z) : QString :=
  if (n <? 0) || (QString_length s <=? n) then s else take (Z.to_nat n) s.

(** [QString::right(n)]: the whole string when [uint(n) >= uint(size)]. *)
Definition QString_right (s : QString) (n : Z) : QString :=
  if (n <? 0) || (QString_length s <=? n) then s
  else drop (Z.to_nat (QString_length s - n)) s.

(** [QString::mid(position, n)], through [QContainerImplHelper::mid]. *)
Definition QString_mid (s : QString) (position n : Z) : QString :=
  let size := QString_length s in
  if size <? position then []
  else if position <? 0 then
    if (n <? 0) || (size <=? n + position) then s
    else if n + position <=? 0 then []
    else take (Z.to_nat (n + position)) s
  else
    let n := if (n <? 0) || (size - position <? n) then size - position else n in
    take (Z.to_nat n) (drop (Z.to_nat position) s).

(** A plain-text document is its blocks (paragraphs), in order; their
    texts hold no separator. *)
Record QTextDocument := mkDocument { blocks : list QString }.

(** The texts of the blocks with a line feed between them. *)
Definition after_blocks (bs : list QString) : QString :=
  concat (map (fun b => LF :: b) bs).

Definition joined_blocks (doc : QTextDocument) : QString :=
  match blocks doc with
  | [] => []
  | b :: bs => b ++ after_blocks bs
  end.

(** What [QTextDocument::toPlainText] makes of a code unit of the text: a
    line feed of the frame markers U+FDD0 and U+FDD1, of the paragraph
    separator U+2029 and of the line separator U+2028, a space of the
    no-break space U+00A0. *)
Definition toPlainText_char (c : QChar) : QChar :=
  if (c =? 0xfdd0)%N || (c =? 0xfdd1)%N || (c =? 0x2029)%N || (c =? 0x2028)%N then LF
  else if (c =? 0xa0)%N then 32%N
  else c.

(** [QTextDocument::toPlainText]: the text of the document, rewritten code
    unit by code unit.  [QTextBlock::text()] gives the text of a block as
    it is. *)
Definition toPlainText (doc : QTextDocument) : QString :=
  map toPlainText_char (joined_blocks doc).

(** No code unit of the document is rewritten by [toPlainText]. *)
Definition kept_by_toPlainText (doc : QTextDocument) : bool :=
  forallb (forallb (fun c => (toPlainText_char c =? c)%N)) (blocks doc).

(** A block takes its text and one separator. *)
Definition block_length (b : QString) : Z := QString_length b + 1.

(** The characters of a run of blocks, and [QTextDocument::characterCount]. *)
Fixpoint chars_of (bs : list QString) : Z :=
  match bs with
  | [] => 0
  | b :: bs' => block_length b + chars_of bs'
  end.

Definition characterCount (doc : QTextDocument) : Z := chars_of (blocks doc).

(** A [QTextBlock] of the document: a block by its number; the block
    [(p, 0)] that [findBlock] answers for a position outside the document
    and [next()] answers on the last block; the default-constructed block
    [(0, 0)] that [next()] answers on an invalid block.  [operator==]
    compares both components, so that the two invalid blocks differ. *)
Inductive QTextBlock :=
| Block (n : nat)
| EndBlock
| NullBlock.

#[global] Instance QTextBlock_eq_dec : EqDecision QTextBlock.
Proof. solve_decision. Defined.

Fixpoint findNode (bs : list QString) (pos : Z) (n : nat) : QTextBlock :=
  match bs with
  | [] => EndBlock
  | b :: bs' =>
      if pos <? block_length b then Block n
      else findNode bs' (pos - block_length b) (S n)
  end.

(** [QTextDocument::findBlock(pos)]: the block that contains the position,
    the separator that ends a block being part of it. *)
Definition findBlock (doc : QTextDocument) (pos : Z) : QTextBlock :=
  if pos <? 0 then EndBlock else findNode (blocks doc) pos 0.

(** [QTextBlock::text()], empty for an invalid block. *)
Definition QTextBlock_text (doc : QTextDocument) (block : QTextBlock) : QString :=
  match block with
  | Block n => default [] (blocks doc !! n)
  | _ => []
  end.

(** [QTextBlock::position()], 0 for an invalid block. *)
Definition QTextBlock_position (doc : QTextDocument) (block : QTextBlock) : Z :=
  match block with
  | Block n => chars_of (take n (blocks doc))
  | _ => 0
  end.

(** [QTextBlock::next()] *)
Definition QTextBlock_next (doc : QTextDocument) (block : QTextBlock) : QTextBlock :=
  match block with
  | Block n => if decide (S n < length (blocks doc))%nat then Block (S n) else EndBlock
  | _ => NullBlock
  end.

(** ** [LanguageLvHighlighter::slice]

    The [while] loop of [slice], which ends when [block] reaches [last];
    [None] when it has not ended after [fuel] rounds. *)
Fixpoint slice_loop (fuel : nat) (doc : QTextDocument) (block last : QTextBlock)
    (result : QString) : option QString :=
  if decide (block = last) then Some result
  else
    match fuel with
    | O => None
    | S fuel' =>
        slice_loop fuel' doc (QTextBlock_next doc block) last
          (result ++ (QTextBlock_text doc block ++ [LF]))
    end.

Definition slice (fuel : nat) (doc : QTextDocument) (from to : Z) : option QString :=
  let block := findBlock doc from in
  let last := findBlock doc to in
  if decide (block = last) then
    Some (QString_mid (QTextBlock_text doc block)
            (Int.to32 (from - QTextBlock_position doc block)) (Int.to32 (to - from)))
  else
    let text := QTextBlock_text doc block in
    let result :=
      QString_right text
        (Int.to32 (Int.to32 (QTextBlock_position doc block + QString_length text) - from))
      ++ [LF] in
    let block := QTextBlock_next doc block in
    match slice_loop fuel doc block last result with
    | None => None
    | Some result =>
        let text := QTextBlock_text doc last in
        Some (result ++ QString_left text (Int.to32 (to - QTextBlock_position doc last)))
    end.

(** The [n] code units of a string from position [from] on. *)
Definition substring (s : QString) (from n : Z) : QString :=
  take (Z.to_nat n) (drop (Z.to_nat from) s).

(** The document of the two lines [ab] and [cd]. *)
Definition two_lines : QTextDocument :=
  mkDocument [[97%N; 98%N]; [99%N; 100%N]].

(** Where the loop of [slice] can never reach the block number [m]: on a
    later block and on an invalid one. *)
Definition past (m : nat) (block : QTextBlock) : Prop :=
  match block with
  | Block n => (m < n)%nat
  | _ => True
  end.

(** ** The predicates of the query: [eq?] and [eq-or?]

    An argument of a predicate ([el::LanguageQuery::PredicateData]) is a
    range of the source or a literal; of its range the predicates use
    [isValid()], [from()] and [length()]. *)
Record SourceRange := mkSourceRange {
  SourceRange_isValid : bool;
  SourceRange_from : Z;
  SourceRange_length : Z
}.

Record PredicateData := mkPredicateData {
  m_range : SourceRange;
  m_value : string
}.

(** How a predicate ends: with its answer, by throwing an [lv::Exception],
    or not at all within the rounds given to [slice]. *)
Inductive Ending :=
| Answers (b : bool)
| Throws (message : string) (c : Code)
| Unfinished.

(** The text an argument stands for: the text of its range in the
    document, or its literal through [QString::fromStdString]. *)
Definition argument_text (fromStdString : string -> QString) (fuel : nat)
    (doc : QTextDocument) (arg : PredicateData) : option QString :=
  if SourceRange_isValid (m_range arg) then
    slice fuel doc (Int.to32 (SourceRange_from (m_range arg)))
      (Int.to32 (SourceRange_from (m_range arg) + SourceRange_length (m_range arg)))
  else Some (fromStdString (m_value arg)).

(** [LanguageLvHighlighter::predicateEq] *)
Definition predicateEq (fromStdString : string -> QString) (fuel : nat)
    (args : list PredicateData) (doc : QTextDocument) : Ending :=
  match args with
  | [arg0; arg1] =>
      match argument_text fromStdString fuel doc arg0 with
      | None => Unfinished
      | Some compare1 =>
          match argument_text fromStdString fuel doc arg1 with
          | None => Unfinished
          | Some compare2 => Answers (bool_decide (compare1 = compare2))
          end
      end
  | _ => Throws "Predicate eq? requires 2 arguments." (toCode "~Arguments")
  end.

(** The [for] loop of [predicateEqOr], from the argument [i] on. *)
Fixpoint predicateEqOr_loop (fromStdString : string -> QString) (fuel : nat)
    (doc : QTextDocument) (compare1 : QString) (rest : list PredicateData) : Ending :=
  match rest with
  | [] => Answers false
  | arg :: rest' =>
      match argument_text fromStdString fuel doc arg with
      | None => Unfinished
      | Some compare2 =>
          if bool_decide (compare1 = compare2) then Answers true
          else predicateEqOr_loop fromStdString fuel doc compare1 rest'
      end
  end.

(** [LanguageLvHighlighter::predicateEqOr] *)
Definition predicateEqOr (fromStdString : string -> QString) (fuel : nat)
    (args : list PredicateData) (doc : QTextDocument) : Ending :=
  match args with
  | arg0 :: (_ :: _) as rest =>
      match argument_text fromStdString fuel doc arg0 with
      | None => Unfinished
      | Some compare1 => predicateEqOr_loop fromStdString fuel doc compare1 rest
      end
  | _ => Throws "Predicate eq-or? must have at least 2 arguments" (toCode "~Arguments")
  end.

(** A literal argument and an argument that is a range of the source. *)
Definition literal (value : string) : PredicateData :=
  {| m_range := mkSourceRange false 0 0; m_value := value |}.

Definition captured (from length : Z) : PredicateData :=
  {| m_range := mkSourceRange true from length; m_value := EmptyString |}.

(** [QString::fromStdString] on ASCII text. *)
Definition fromAscii (s : string) : QString :=
  map Ascii.N_of_ascii (String.list_ascii_of_string s).

(** * Part II: properties *)

(** ** Machine integers and doubles *)

Lemma Int_in32b_spec z : Int.in32b z = true <-> Int.in32 z.
Proof. unfold Int.in32b, Int.in32. rewrite andb_true_iff, !Z.leb_le. tauto. Qed.

Lemma Int_to32_id z : Int.in32 z -> Int.to32 z = z.
Proof.
  unfold Int.in32, Int.min32, Int.max32, Int.to32, Int.wrap. intros H.
  rewrite Z.mod_small by lia. lia.
Qed.

Lemma Int_to32_in32 z : Int.in32 (Int.to32 z).
Proof.
  unfold Int.in32, Int.min32, Int.max32, Int.to32, Int.wrap.
  pose proof (Z.mod_pos_bound (z + 2 ^ (32 - 1)) (2 ^ 32)). lia.
Qed.

Lemma Int_to_bool_of_bool b : Int.to_bool (Int.of_bool b) = b.
Proof. destruct b; reflexivity. Qed.

Example to32_wraps : Int.to32 (2 ^ 32) = 0 /\ Int.to32 (2 ^ 31) = - 2 ^ 31.
Proof. split; reflexivity. Qed.

Example of_Z_3 : Dbl.of_Z 3 = S754_finite false 6755399441055744 (-51).
Proof. reflexivity. Qed.

Example of_Z_rounds : Dbl.of_Z (2 ^ 53 + 1) = Dbl.of_Z (2 ^ 53).
Proof. reflexivity. Qed.

Example is_int32_samples :
  Dbl.is_int32 (Dbl.of_Z 3) = true /\
  Dbl.is_int32 (Dbl.of_Z Int.min32) = true /\
  Dbl.is_int32 (Dbl.of_Z (2 ^ 31)) = false /\
  Dbl.is_int32 (S754_zero true) = false /\
  Dbl.is_int32 (S754_finite false 6755399441055744 (-52)) = false.
Proof. repeat split. Qed.

Lemma digits2_pos_lower m : 2 ^ (Z.pos (digits2_pos m) - 1) <= Z.pos m.
Proof.
  induction m as [p IH|p IH|]; simpl digits2_pos.
  - rewrite Pos2Z.inj_succ.
    replace (Z.succ (Z.pos (digits2_pos p)) - 1)
      with (Z.succ (Z.pos (digits2_pos p) - 1)) by lia.
    rewrite Z.pow_succ_r by lia. lia.
  - rewrite Pos2Z.inj_succ.
    replace (Z.succ (Z.pos (digits2_pos p)) - 1)
      with (Z.succ (Z.pos (digits2_pos p) - 1)) by lia.
    rewrite Z.pow_succ_r by lia. lia.
  - simpl. lia.
Qed.

Lemma digits2_pos_le m n : 0 <= n -> Z.pos m < 2 ^ n -> Z.pos (digits2_pos m) <= n.
Proof.
  intros Hn Hm. pose proof (digits2_pos_lower m) as Hl.
  destruct (Z_le_gt_dec (Z.pos (digits2_pos m)) n) as [|Hgt]; [assumption|].
  assert (2 ^ n <= 2 ^ (Z.pos (digits2_pos m) - 1)) by (apply Z.pow_le_mono_r; lia).
  lia.
Qed.

Lemma iter_xO_digits m d :
  Z.pos (digits2_pos (Pos.iter xO m d)) = Z.pos (digits2_pos m) + Z.pos d.
Proof.
  induction d as [|d IH] using Pos.peano_ind.
  - simpl. lia.
  - rewrite Pos.iter_succ. simpl digits2_pos. rewrite Pos2Z.inj_succ, IH. lia.
Qed.

Lemma iter_xO_value m d : Z.pos (Pos.iter xO m d) = Z.pos m * 2 ^ Z.pos d.
Proof.
  induction d as [|d IH] using Pos.peano_ind.
  - simpl. lia.
  - rewrite Pos.iter_succ, Pos2Z.inj_xO, IH, Pos2Z.inj_succ, Z.pow_succ_r by lia. lia.
Qed.

(** An integer of fewer than 53 bits is converted exactly: the mantissa is
    shifted to 53 bits and nothing is rounded off. *)
Lemma binary_round_short s m :
  Z.pos (digits2_pos m) < Dbl.prec ->
  exists d, binary_round Dbl.prec Dbl.emax s m 0 = S754_finite s (Pos.iter xO m d) (Z.neg d).
Proof.
  intros Hk. unfold Dbl.prec in Hk.
  set (k := Z.pos (digits2_pos m)) in *.
  assert (Hk1 : 1 <= k) by (unfold k; lia).
  unfold binary_round.
  assert (Hf : fexp Dbl.prec Dbl.emax (k + 0) = k - 53).
  { unfold fexp, emin, Dbl.prec, Dbl.emax. lia. }
  fold k. rewrite Hf. unfold shl_align.
  destruct (k - 53 - 0) as [|q|d] eqn:Hd; try lia.
  exists d. unfold binary_round_aux, shr_fexp.
  assert (Hdig : Zdigits2 (Z.pos (Pos.iter xO m d)) = 53).
  { simpl Zdigits2. rewrite iter_xO_digits. fold k. lia. }
  rewrite Hdig.
  assert (Hf2 : fexp Dbl.prec Dbl.emax (53 + (k - 53)) = k - 53).
  { unfold fexp, emin, Dbl.prec, Dbl.emax. lia. }
  rewrite Hf2, Z.sub_diag. simpl shr. cbv beta iota.
  cbn [shr_m loc_of_shr_record round_nearest_even].
  rewrite Hdig, Hf2, Z.sub_diag. simpl.
  replace (k - 53 <=? Dbl.emax - Dbl.prec) with true.
  2:{ symmetry. apply Z.leb_le. unfold Dbl.emax, Dbl.prec. lia. }
  f_equal. lia.
Qed.

Lemma finite_int32 (s : bool) (m d : positive) :
  Int.in32 (if s then - Z.pos m else Z.pos m) ->
  Dbl.is_int32 (S754_finite s (Pos.iter xO m d) (Z.neg d)) = true /\
  Dbl.to_int32 (S754_finite s (Pos.iter xO m d) (Z.neg d))
  = (if s then - Z.pos m else Z.pos m).
Proof.
  intros Hr.
  assert (Hp : 0 < 2 ^ Z.pos d) by (apply Z.pow_pos_nonneg; lia).
  unfold Dbl.is_int32, Dbl.to_int32, Dbl.trunc, Dbl.integral, Dbl.magnitude, Dbl.is_minus_zero.
  rewrite iter_xO_value, Z.mod_mul, Z.div_mul by lia.
  rewrite Int_to32_id by assumption.
  split; [|reflexivity].
  simpl. apply Int_in32b_spec. assumption.
Qed.

(** A 32-bit integer survives the conversion to a double and back, and the
    double is recognised as a 32-bit integer. *)
Lemma of_Z_int32 z :
  Int.in32 z -> Dbl.is_int32 (Dbl.of_Z z) = true /\ Dbl.to_int32 (Dbl.of_Z z) = z.
Proof.
  intros Hz. destruct z as [|m|m]; unfold Dbl.of_Z, binary_normalize.
  - split; reflexivity.
  - destruct (binary_round_short false m) as [d ->].
    + unfold Dbl.prec. apply Z.le_lt_trans with 32; [|lia].
      apply digits2_pos_le; [lia|]. unfold Int.in32, Int.min32, Int.max32 in Hz. lia.
    + apply (finite_int32 false m d). assumption.
  - destruct (binary_round_short true m) as [d ->].
    + unfold Dbl.prec. apply Z.le_lt_trans with 32; [|lia].
      apply digits2_pos_le; [lia|]. unfold Int.in32, Int.min32, Int.max32 in Hz. lia.
    + apply (finite_int32 true m d). assumption.
Qed.

Lemma Dbl_eqb_refl d : Dbl.is_nan d = false -> Dbl.eqb d d = true.
Proof.
  unfold Dbl.eqb, SFeqb. destruct d as [s|s| |s m e]; simpl; try discriminate; intros _.
  - reflexivity.
  - destruct s; reflexivity.
  - rewrite Z.compare_refl, Pos.compare_cont_refl. destruct s; reflexivity.
Qed.

Lemma Dbl_is_nan_eq d : Dbl.is_nan d = true -> d = Dbl.nan.
Proof. destruct d; try discriminate. reflexivity. Qed.

(** ** The store *)

Lemma fresh_loc_above (h : gmap loc Cell) k : is_Some (h !! k) -> (k < fresh_loc h)%positive.
Proof.
  unfold fresh_loc. revert k.
  apply (map_fold_weak_ind
           (fun r (m : gmap loc Cell) => forall k, is_Some (m !! k) -> (k < r)%positive)).
  - intros k [c Hc]. rewrite lookup_empty in Hc. discriminate.
  - intros i x m r Hi IH k Hk.
    destruct (decide (i = k)) as [->|Hne].
    + lia.
    + rewrite lookup_insert_ne in Hk by assumption. specialize (IH k Hk). lia.
Qed.

Lemma fresh_loc_None (h : gmap loc Cell) : h !! fresh_loc h = None.
Proof.
  destruct (h !! fresh_loc h) eqn:E; [|reflexivity].
  pose proof (fresh_loc_above h (fresh_loc h) (mk_is_Some _ _ E)). lia.
Qed.

Lemma set_heap_id s : set_heap (heap s) s = s.
Proof. destruct s; reflexivity. Qed.

Lemma bind_Ok {A B} (m : M A) (k : A -> M B) s a s' :
  m s = Ok a s' -> bind m k s = k a s'.
Proof. unfold bind. intros ->. reflexivity. Qed.

Lemma alloc_spec c s :
  exists l, alloc c s = Ok l (set_heap (<[l := c]> (heap s)) s) /\ heap s !! l = None.
Proof. exists (fresh_loc (heap s)). split; [reflexivity|apply fresh_loc_None]. Qed.

Lemma new_int_spec s :
  exists l, new_int s = Ok l (set_heap (<[l := IntCell (garbage s l)]> (heap s)) s)
            /\ heap s !! l = None.
Proof. exists (fresh_loc (heap s)). split; [reflexivity|apply fresh_loc_None]. Qed.

Lemma load_Some s l c : heap s !! l = Some c -> load l s = Ok c s.
Proof. unfold load. intros ->. reflexivity. Qed.

Lemma load_int_Some s l n : heap s !! l = Some (IntCell n) -> load_int l s = Ok n s.
Proof.
  intros H. unfold load_int. rewrite (bind_Ok _ _ _ _ _ (load_Some _ _ _ H)). reflexivity.
Qed.

Lemma load_handle_Some s l h :
  heap s !! l = Some (LocalValuePrivate h) -> load_handle l s = Ok h s.
Proof.
  intros H. unfold load_handle. rewrite (bind_Ok _ _ _ _ _ (load_Some _ _ _ H)). reflexivity.
Qed.

Lemma load_Object_Some s l o :
  heap s !! l = Some (ObjectCell o) -> load_Object l s = Ok o s.
Proof.
  intros H. unfold load_Object. rewrite (bind_Ok _ _ _ _ _ (load_Some _ _ _ H)). reflexivity.
Qed.

Lemma load_Callable_Some s l c :
  heap s !! l = Some (CallableCell c) -> load_Callable l s = Ok c s.
Proof.
  intros H. unfold load_Callable. rewrite (bind_Ok _ _ _ _ _ (load_Some _ _ _ H)). reflexivity.
Qed.

Lemma load_ScopedValue_Some s l d r :
  heap s !! l = Some (ScopedValueCell d r) -> load_ScopedValue l s = Ok (d, r) s.
Proof.
  intros H. unfold load_ScopedValue.
  rewrite (bind_Ok _ _ _ _ _ (load_Some _ _ _ H)). reflexivity.
Qed.

Lemma store_Some s l c0 c :
  heap s !! l = Some c0 -> store l c s = Ok tt (set_heap (<[l := c]> (heap s)) s).
Proof. unfold store. intros ->. reflexivity. Qed.

Lemma delete_Some s l c :
  heap s !! l = Some c ->
  delete l s = Ok tt {| heap := base.delete l (heap s); garbage := garbage s;
                        freed := freed s ++ [l]; reported := reported s |}.
Proof. unfold delete. intros ->. reflexivity. Qed.

Lemma release_Some s l c :
  heap s !! l = Some c -> release l s = Ok tt (set_heap (base.delete l (heap s)) s).
Proof. unfold release. intros ->. reflexivity. Qed.

Lemma pre_incr_Some s r n :
  heap s !! r = Some (IntCell n) ->
  pre_incr r s = Ok tt (set_heap (<[r := IntCell (Int.to32 (n + 1))]> (heap s)) s).
Proof.
  intros H. unfold pre_incr. rewrite (bind_Ok _ _ _ _ _ (load_int_Some _ _ _ H)).
  apply (store_Some _ _ _ _ H).
Qed.

Lemma pre_decr_Some s r n :
  heap s !! r = Some (IntCell n) ->
  pre_decr r s = Ok tt (set_heap (<[r := IntCell (Int.to32 (n - 1))]> (heap s)) s).
Proof.
  intros H. unfold pre_decr. rewrite (bind_Ok _ _ _ _ _ (load_int_Some _ _ _ H)).
  apply (store_Some _ _ _ _ H).
Qed.

(** ** ScopedValue: construction and the wrapped handle *)

Lemma handle_of_intro s this d r h :
  heap s !! this = Some (ScopedValueCell d r) ->
  heap s !! d = Some (LocalValuePrivate h) ->
  handle_of s this = Some h.
Proof. unfold handle_of. intros -> ->. reflexivity. Qed.

Lemma data_handle_of s this h : handle_of s this = Some h -> data this s = Ok h s.
Proof.
  unfold handle_of, data, load_ScopedValue, load_handle, load, bind, ret.
  destruct (heap s !! this) as [[] |]; try discriminate.
  simpl. destruct (heap s !! m_d) as [[] |]; try discriminate.
  intros [= ->]. reflexivity.
Qed.

(** The constructor from a handle allocates three fresh cells: the record,
    the counter and the instance. *)
Lemma ScopedValue_Local_spec data0 s :
  exists this d r,
    ScopedValue_Local data0 s =
      Ok this (set_heap (<[this := ScopedValueCell d r]>
                 (<[r := IntCell (Int.to32 (garbage s r + 1))]>
                    (<[d := LocalValuePrivate data0]> (heap s)))) s)
    /\ heap s !! d = None /\ heap s !! r = None /\ heap s !! this = None
    /\ d ≠ r /\ d ≠ this /\ r ≠ this.
Proof.
  unfold ScopedValue_Local, emplace.
  destruct (alloc_spec (LocalValuePrivate data0) s) as (d & Ed & Hd).
  rewrite (bind_Ok _ _ _ _ _ Ed).
  set (s1 := set_heap _ s).
  destruct (new_int_spec s1) as (r & Er & Hr).
  rewrite (bind_Ok _ _ _ _ _ Er).
  set (s2 := set_heap _ s1).
  assert (H2 : heap s2 !! r = Some (IntCell (garbage s r))) by apply lookup_insert_eq.
  rewrite (bind_Ok _ _ _ _ _ (pre_incr_Some _ _ _ H2)).
  set (s3 := set_heap _ s2).
  destruct (alloc_spec (ScopedValueCell d r) s3) as (this & Et & Ht).
  rewrite Et. exists this, d, r.
  assert (d ≠ r).
  { intros ->. unfold s1 in Hr. cbn in Hr. rewrite lookup_insert_eq in Hr. discriminate. }
  assert (r ≠ this).
  { intros ->. unfold s3 in Ht. cbn in Ht. rewrite lookup_insert_eq in Ht. discriminate. }
  assert (d ≠ this).
  { intros ->. unfold s3, s2 in Ht. cbn in Ht.
    rewrite !lookup_insert_ne, lookup_insert_eq in Ht by congruence. discriminate. }
  split.
  { unfold s3, s2, s1. cbn. unfold set_heap; cbn. rewrite insert_insert_eq. reflexivity. }
  unfold s1 in Hr. cbn in Hr. rewrite lookup_insert_ne in Hr by assumption.
  unfold s3, s2, s1 in Ht. cbn in Ht. rewrite !lookup_insert_ne in Ht by congruence.
  repeat split; assumption.
Qed.

Lemma ScopedValue_Local_handle data0 s :
  exists this s', ScopedValue_Local data0 s = Ok this s' /\ handle_of s' this = Some data0
    /\ freed s' = freed s /\ reported s' = reported s.
Proof.
  destruct (ScopedValue_Local_spec data0 s)
    as (this & d & r & E & Hd & Hr & Ht & Hdr & Hdt & Hrt).
  eexists _, _. split; [exact E|]. split; [|split; reflexivity].
  apply handle_of_intro with d r; cbn.
  - apply lookup_insert_eq.
  - rewrite !lookup_insert_ne by congruence. apply lookup_insert_eq.
Qed.

(** The constructor from a [Value] of one of the four round-trip tags wraps
    the mirror of the value. *)
Lemma ScopedValue_Value_handle engine v s h :
  mirror engine v = Some h ->
  exists this s', ScopedValue_Value engine v s = Ok this s' /\ handle_of s' this = Some h
    /\ freed s' = freed s /\ reported s' = reported s.
Proof.
  intros Hm. unfold ScopedValue_Value, emplace.
  destruct (new_int_spec s) as (r & Er & Hr).
  rewrite (bind_Ok _ _ _ _ _ Er).
  set (s1 := set_heap _ s).
  assert (H1 : heap s1 !! r = Some (IntCell (garbage s r))) by apply lookup_insert_eq.
  rewrite (bind_Ok _ _ _ _ _ (pre_incr_Some _ _ _ H1)).
  set (s2 := set_heap _ s1).
  assert (Hdata : forall k : v8.Local -> M loc,
    bind (match type v with
          | Stored.Boolean => bind (asBool v) (fun b => ret (v8.Boolean_New b))
          | Stored.Integer => bind (asInt64 v) (fun i => ret (v8.Integer_New (Int.to32 i)))
          | Stored.Double => bind (asNumber v) (fun d => ret (v8.Number_New d))
          | Stored.Object => bind (asObject v) (fun o => ret (Object_data o))
          | Stored.Callable => bind (asCallable v) (fun c => ret (Callable_data c))
          | Stored.Element =>
              if Value_isNull v then ret v8.HUndefined
              else bind (asElement v) (fun e => ret (localObject engine e))
          end) k s2 = k h s2).
  { intros k. destruct v as [i|i|d|p|p|p]; cbn in Hm; try discriminate;
      injection Hm as <-; try reflexivity.
    cbn. unfold localObject, bind, ret.
    destruct (p =? nullptr)%N eqn:E; cbn; rewrite ?E; reflexivity. }
  rewrite Hdata.
  destruct (alloc_spec (LocalValuePrivate h) s2) as (d & Ed & Hd).
  rewrite (bind_Ok _ _ _ _ _ Ed).
  set (s3 := set_heap _ s2).
  destruct (alloc_spec (ScopedValueCell d r) s3) as (this & Et & Ht).
  rewrite Et. eexists _, _. split; [reflexivity|]. split; [|split; reflexivity].
  assert (d ≠ this).
  { intros ->. unfold s3 in Ht. cbn in Ht. rewrite lookup_insert_eq in Ht. discriminate. }
  apply handle_of_intro with d r; cbn.
  - apply lookup_insert_eq.
  - rewrite lookup_insert_ne by congruence. apply lookup_insert_eq.
Qed.

(** ** ScopedValue: shape tests and conversions, by the wrapped handle *)

Lemma data_ret {A} (f : v8.Local -> A) s this h :
  handle_of s this = Some h ->
  bind (data this) (fun d => ret (f d)) s = Ok (f h) s.
Proof. intros H. rewrite (bind_Ok _ _ _ _ _ (data_handle_of _ _ _ H)). reflexivity. Qed.

Lemma isElement_handle s this h :
  handle_of s this = Some h -> isElement this s = Ok (element_shaped h) s.
Proof.
  intros H. unfold isElement, element_shaped.
  rewrite (bind_Ok _ _ _ _ _ (data_handle_of _ _ _ H)).
  destruct (v8.IsObject h); reflexivity.
Qed.

Lemma elementFromObject_marker h p s :
  v8.InternalFieldCount h = 1 -> v8.GetInternalField0 h = Some p ->
  elementFromObject h s = Ok p s.
Proof. unfold elementFromObject. intros -> ->. reflexivity. Qed.

Lemma elementFromObject_no_marker h s :
  v8.InternalFieldCount h ≠ 1 ->
  exists e, elementFromObject h s = Thrown e s /\ kind e = InvalidCast.
Proof.
  unfold elementFromObject. intros H. apply Z.eqb_neq in H. rewrite H.
  eexists. split; reflexivity.
Qed.

Lemma element_shaped_marker h :
  element_shaped h = true ->
  v8.InternalFieldCount h = 1 /\ exists p, v8.GetInternalField0 h = Some p.
Proof.
  unfold element_shaped. intros He. apply andb_true_iff in He as [Ho Hc].
  apply Z.eqb_eq in Hc. split; [assumption|].
  destruct h as [| | | | |[c fields]]; try discriminate.
  cbn [v8.InternalFieldCount v8.internal_fields] in Hc.
  destruct fields as [|p fields]; cbn [length] in Hc; [lia|].
  exists p. reflexivity.
Qed.

Lemma toElement_handle engine s this h :
  handle_of s this = Some h ->
  toElement engine this s =
    if v8.IsNullOrUndefined h then Ok nullptr s else elementFromObject h s.
Proof.
  intros H. unfold toElement. rewrite (bind_Ok _ _ _ _ _ (data_handle_of _ _ _ H)).
  destruct (v8.IsNullOrUndefined h); reflexivity.
Qed.

Lemma toObject_handle engine s this h :
  handle_of s this = Some h ->
  toObject engine this s =
    if (v8.IsStringObject h || v8.IsString h) && negb (v8.IsObject h) then
      Ok (mkObject (v8.StringObject_New (ToString engine h))) s
    else if negb (v8.IsObject h) then Fault
    else if v8.InternalFieldCount h =? 1 then
      Thrown (mkException TypeMismatch "Converting object of Element type to Object."
                (rawCode 1)) s
    else Ok (mkObject h) s.
Proof.
  intros H. unfold toObject, isString, isObject.
  rewrite (bind_Ok _ _ _ _ _ (data_ret _ _ _ _ H)).
  rewrite (bind_Ok _ _ _ _ _ (data_ret _ _ _ _ H)).
  destruct ((v8.IsStringObject h || v8.IsString h) && negb (v8.IsObject h)).
  - rewrite (bind_Ok _ _ _ _ _ (data_handle_of _ _ _ H)). reflexivity.
  - rewrite (bind_Ok _ _ _ _ _ (data_handle_of _ _ _ H)).
    unfold Cast_InternalFieldCount, bind, ret, fault.
    destruct (v8.IsObject h); cbn [negb]; [|reflexivity].
    destruct (v8.InternalFieldCount h =? 1); reflexivity.
Qed.

(** What [toValue] answers, by the shape of the handle. *)
Lemma toValue_handle engine s this h :
  handle_of s this = Some h ->
  toValue engine this s =
    if v8.IsBoolean h then Ok (Value_bool (v8.BooleanValue h)) s
    else if v8.IsInt32 h then Ok (Value_Int32 (ToInt32 engine h)) s
    else if v8.IsNumber h then Ok (Value_Number (ToNumber engine h)) s
    else if v8.IsStringObject h || v8.IsString h then
      bind (toObject engine this) Value_Object s
    else if element_shaped h then
      bind (toElement engine this) (fun x => ret (Value_Element x)) s
    else if v8.IsFunction h then bind (toCallable engine this) Value_Callable s
    else if v8.IsObject h then bind (toObject engine this) Value_Object s
    else Ok Value_default s.
Proof.
  intros H. unfold toValue.
  unfold isBool. rewrite (bind_Ok _ _ _ _ _ (data_ret _ _ _ _ H)).
  destruct (v8.IsBoolean h).
  { unfold toBool. rewrite (bind_Ok _ _ _ _ _ (data_ret _ _ _ _ H)). reflexivity. }
  unfold isInt. rewrite (bind_Ok _ _ _ _ _ (data_ret _ _ _ _ H)).
  destruct (v8.IsInt32 h).
  { unfold toInt32. rewrite (bind_Ok _ _ _ _ _ (data_ret _ _ _ _ H)). reflexivity. }
  unfold isNumber. rewrite (bind_Ok _ _ _ _ _ (data_ret _ _ _ _ H)).
  destruct (v8.IsNumber h).
  { unfold toNumber. rewrite (bind_Ok _ _ _ _ _ (data_ret _ _ _ _ H)). reflexivity. }
  unfold isString. rewrite (bind_Ok _ _ _ _ _ (data_ret _ _ _ _ H)).
  destruct (v8.IsStringObject h || v8.IsString h); [reflexivity|].
  rewrite (bind_Ok _ _ _ _ _ (isElement_handle _ _ _ H)).
  destruct (element_shaped h); [reflexivity|].
  unfold isCallable. rewrite (bind_Ok _ _ _ _ _ (data_ret _ _ _ _ H)).
  destruct (v8.IsFunction h); [reflexivity|].
  unfold isObject. rewrite (bind_Ok _ _ _ _ _ (data_ret _ _ _ _ H)).
  destruct (v8.IsObject h); reflexivity.
Qed.

(** The scenario of the specification: a ScopedValue built from
    [Value(false)]. *)
Example scoped_false :
  answer (run (let* sv := ScopedValue_Value plain_engine (Value_bool false) in
               let* b := toBool plain_engine sv in
               let* isb := isBool sv in
               let* isn := isNumber sv in
               ret (b, isb, isn)))
  = Some (false, true, false).
Proof. vm_compute. reflexivity. Qed.

(** ** Value: accessors *)

Lemma throws_meets {A} k msg c s : meets (@THROW_EXCEPTION A k msg c) s (Fails k).
Proof. eexists. split; reflexivity. Qed.

(** C1, as stated, fails: a Value constructed from the Int64 payload 2^32 is
    Integer-tagged, so its tag matches [asInt32], and [asInt32] returns 0,
    not the stored payload. *)
Lemma asInt32_narrows_Int64_payload :
  Int.in64 (2 ^ 32) /\
  type (Value_Int64 (2 ^ 32)) = Stored.Integer /\
  run (asInt32 (Value_Int64 (2 ^ 32))) = Ok 0 empty_state /\
  run (asInt32 (Value_Int64 (2 ^ 32))) ≠ Ok (2 ^ 32) empty_state.
Proof.
  split; [unfold Int.in64, Int.min64, Int.max64; lia|].
  split; [reflexivity|]. split; [reflexivity|]. discriminate.
Qed.

(** C1 (amended): for every Value constructed from a payload of one of the
    native types, each accessor returns the stored payload when the tag
    matches and fails with TypeMismatch when it does not, leaving the store
    untouched; [asInt32] returns the stored 64-bit payload narrowed to 32
    bits, which is the payload itself for a Value constructed from an Int32
    and for every payload in the Int32 range; [asNumber] returns the double
    for a Double-tagged Value, the integer converted to a double for an
    Integer-tagged one, and fails with TypeMismatch for every other tag. *)
Theorem accessors_follow_payload (p : Payload) (s : State) :
  well_typed p ->
  exists v s',
    construct p s = Ok v s' /\
    meets (asBool v) s' (expect_asBool p) /\
    meets (asInt32 v) s' (expect_asInt32 p) /\
    meets (asInt64 v) s' (expect_asInt64 p) /\
    meets (asNumber v) s' (expect_asNumber p) /\
    meets (asObject v) s' (expect_asObject p) /\
    meets (asCallable v) s' (expect_asCallable p) /\
    meets (asElement v) s' (expect_asElement p) /\
    (forall i, p = PInt64 i -> Int.in32 i -> asInt32 v s' = Ok i s').
Proof.
  intros Hp.
  destruct p as [b|i|i|d|o|c|e]; cbn [construct].
  - exists (Value_bool b), s. split; [reflexivity|].
    repeat (split; [first [apply throws_meets | destruct b; reflexivity]|]). discriminate.
  - exists (Value_Int32 i), s. split; [reflexivity|]. cbn in Hp.
    repeat (split; [first [ apply throws_meets | reflexivity
                          | cbn; rewrite Int_to32_id by assumption; reflexivity]|]).
    discriminate.
  - exists (Value_Int64 i), s. split; [reflexivity|].
    repeat (split; [first [apply throws_meets | reflexivity]|]).
    intros j [= <-] Hj. cbn. rewrite Int_to32_id by assumption. reflexivity.
  - exists (Value_Number d), s. split; [reflexivity|].
    repeat (split; [first [apply throws_meets | reflexivity]|]). discriminate.
  - unfold Value_Object, Data_Object.
    destruct (alloc_spec (ObjectCell o) s) as (l & E & Hl).
    rewrite (bind_Ok _ _ _ _ _ E). eexists _, _. split; [reflexivity|].
    repeat (split; [first [apply throws_meets | apply load_Object_Some, lookup_insert_eq]|]).
    discriminate.
  - unfold Value_Callable, Data_Callable.
    destruct (alloc_spec (CallableCell c) s) as (l & E & Hl).
    rewrite (bind_Ok _ _ _ _ _ E). eexists _, _. split; [reflexivity|].
    repeat (split; [first [apply throws_meets | apply load_Callable_Some, lookup_insert_eq]|]).
    discriminate.
  - exists (Value_Element e), s. split; [reflexivity|].
    repeat (split; [first [apply throws_meets | reflexivity]|]). discriminate.
Qed.

(** The scenario [Value v(Int32(42))]: [v.asInt32() == 42] and [v.asBool()]
    fails with TypeMismatch. *)
Lemma accessors_follow_payload_witness :
  exists v,
    construct (PInt32 42) empty_state = Ok v empty_state /\
    asInt32 v empty_state = Ok 42 empty_state /\
    exists e, asBool v empty_state = Thrown e empty_state /\ kind e = TypeMismatch.
Proof.
  assert (Hw : well_typed (PInt32 42)).
  { unfold well_typed, Int.in32, Int.min32, Int.max32. lia. }
  destruct (accessors_follow_payload (PInt32 42) empty_state Hw)
    as (v & s' & Hc & Hb & Hi & _).
  injection Hc as <- <-. exists (Value_Int32 42). split; [reflexivity|]. split; assumption.
Defined.

(** ** Value: null *)

(** C5: a default-constructed Value is Element-tagged with a null pointer,
    and [isNull] is true exactly of the Element-tagged Value whose pointer
    is null; it is false for every Value of another tag, whatever its
    payload. *)
Theorem Value_isNull_iff_null_Element :
  type Value_default = Stored.Element /\
  (forall s, asElement Value_default s = Ok nullptr s) /\
  Value_isNull Value_default = true /\
  forall v : Value,
    (Value_isNull v = true <->
       type v = Stored.Element /\ forall s, asElement v s = Ok nullptr s) /\
    (type v ≠ Stored.Element -> Value_isNull v = false).
Proof.
  split; [reflexivity|]. split; [reflexivity|]. split; [reflexivity|].
  intros v. split; [split|].
  - intros H. destruct v as [| | | | |e]; try discriminate.
    cbn in H. apply N.eqb_eq in H. subst e. split; reflexivity.
  - intros [Ht Ha]. destruct v as [| | | | |e]; try discriminate.
    specialize (Ha empty_state). cbn in Ha. injection Ha as ->. reflexivity.
  - intros Ht. destruct v; try reflexivity. contradiction Ht. reflexivity.
Qed.

(** ** Value: ownership of the Object and Callable payload *)

Lemma Value_copy_independent s v : live s v -> independent_copy s v (Value_copy v).
Proof.
  intros Hl. unfold independent_copy.
  destruct v as [i|i|d|p|p|e]; cbn [Value_copy].
  1-3,6: eexists _, s; split; [reflexivity|]; repeat (split; [solve [auto]|]);
    exists s; split; [reflexivity|]; cbn [owned]; rewrite ?app_nil_r;
    repeat (split; [solve [auto]|]);
    exists s; split; [reflexivity|]; rewrite ?app_nil_r; split; [reflexivity|constructor].
  - destruct Hl as [o Hp].
    rewrite (bind_Ok _ _ _ _ _ (load_Object_Some _ _ _ Hp)). unfold Data_Object.
    destruct (alloc_spec (ObjectCell o) s) as (q & E & Hq).
    rewrite (bind_Ok _ _ _ _ _ E).
    assert (Hpq : p ≠ q) by (intros ->; congruence).
    eexists _, _. split; [reflexivity|]. split; [reflexivity|]. split; [reflexivity|].
    split; [exists o; apply lookup_insert_eq|].
    split; [discriminate|].
    cbn [Value_dtor].
    assert (H1 : heap (set_heap (<[q:=ObjectCell o]> (heap s)) s) !! p = Some (ObjectCell o)).
    { cbn. rewrite lookup_insert_ne by congruence. assumption. }
    rewrite (delete_Some _ _ _ H1). eexists. split; [reflexivity|].
    cbn [freed heap owned set_heap].
    split; [reflexivity|].
    assert (H2 : base.delete p (<[q:=ObjectCell o]> (heap s)) !! q = Some (ObjectCell o)).
    { rewrite lookup_delete_ne by assumption. apply lookup_insert_eq. }
    split; [exists o; exact H2|].
    split.
    { intros o' Ho'. cbn [asObject] in *. rewrite (load_Object_Some _ _ _ Hp) in Ho'.
      injection Ho' as <-. apply load_Object_Some. exact H2. }
    split; [intros c Hc; discriminate Hc|].
    rewrite (delete_Some _ _ (ObjectCell o)) by exact H2.
    eexists. split; [reflexivity|]. cbn [freed]. rewrite <- app_assoc.
    split; [reflexivity|]. apply NoDup_cons. split; [|apply NoDup_singleton].
    rewrite list_elem_of_singleton. assumption.
  - destruct Hl as [c Hp].
    rewrite (bind_Ok _ _ _ _ _ (load_Callable_Some _ _ _ Hp)). unfold Data_Callable.
    destruct (alloc_spec (CallableCell c) s) as (q & E & Hq).
    rewrite (bind_Ok _ _ _ _ _ E).
    assert (Hpq : p ≠ q) by (intros ->; congruence).
    eexists _, _. split; [reflexivity|]. split; [reflexivity|]. split; [reflexivity|].
    split; [exists c; apply lookup_insert_eq|].
    split; [discriminate|].
    cbn [Value_dtor].
    assert (H1 : heap (set_heap (<[q:=CallableCell c]> (heap s)) s) !! p
                 = Some (CallableCell c)).
    { cbn. rewrite lookup_insert_ne by congruence. assumption. }
    rewrite (delete_Some _ _ _ H1). eexists. split; [reflexivity|].
    cbn [freed heap owned set_heap].
    split; [reflexivity|].
    assert (H2 : base.delete p (<[q:=CallableCell c]> (heap s)) !! q = Some (CallableCell c)).
    { rewrite lookup_delete_ne by assumption. apply lookup_insert_eq. }
    split; [exists c; exact H2|].
    split; [intros o Ho; discriminate Ho|].
    split.
    { intros c' Hc'. cbn [asCallable] in *. rewrite (load_Callable_Some _ _ _ Hp) in Hc'.
      injection Hc' as <-. apply load_Callable_Some. exact H2. }
    rewrite (delete_Some _ _ (CallableCell c)) by exact H2.
    eexists. split; [reflexivity|]. cbn [freed]. rewrite <- app_assoc.
    split; [reflexivity|]. apply NoDup_cons. split; [|apply NoDup_singleton].
    rewrite list_elem_of_singleton. assumption.
Qed.

Lemma Value_dtor_frees s v :
  live s v ->
  exists s', Value_dtor v s = Ok tt s' /\ freed s' = freed s ++ owned v /\
             (owned v = [] -> s' = s).
Proof.
  intros Hl. destruct v as [i|i|d|p|p|e]; cbn [Value_dtor owned].
  1-3,6: exists s; rewrite app_nil_r; auto.
  - destruct Hl as [o Hp]. rewrite (delete_Some _ _ _ Hp). eexists. split; [reflexivity|].
    split; [reflexivity|discriminate].
  - destruct Hl as [o Hp]. rewrite (delete_Some _ _ _ Hp). eexists. split; [reflexivity|].
    split; [reflexivity|discriminate].
Qed.

(** C8: copying or copy-assigning a Value yields, for the tags Object and
    Callable, a freshly allocated copy of the wrapper: after the original is
    destroyed the copy's payload is still live and reads the same wrapper,
    destroying both frees two distinct allocations once each, and a
    destructor frees exactly what the Value owns, which is nothing unless the
    tag is Object or Callable (scalars and the Element pointer are copied as
    they are, with no allocation). *)
Theorem Value_copy_owns_payload s v :
  live s v ->
  independent_copy s v (Value_copy v) /\
  (forall this, independent_copy s v (Value_assign this v)) /\
  (exists s', Value_dtor v s = Ok tt s' /\ freed s' = freed s ++ owned v /\
              (owned v = [] -> s' = s)) /\
  (owned v ≠ [] <-> type v = Stored.Object \/ type v = Stored.Callable).
Proof.
  intros Hl. split; [apply Value_copy_independent; assumption|].
  split; [intros this; apply (Value_copy_independent s v Hl)|].
  split; [apply Value_dtor_frees; assumption|].
  destruct v; cbn; split; intros H; try congruence; try tauto;
    try (destruct H; discriminate).
Qed.

(** [Value v(obj); Value w(v); v.~Value(); w.asObject()] reads [obj]. *)
Lemma Value_copy_owns_payload_witness :
  exists w s1 s2,
    Value_copy (VObject 1%positive) object_state = Ok w s1 /\
    Value_dtor (VObject 1%positive) s1 = Ok tt s2 /\
    asObject w s2 = Ok (mkObject plain_object) s2 /\
    freed s2 = [1%positive].
Proof.
  assert (Hl : live object_state (VObject 1%positive)).
  { exists (mkObject plain_object). vm_compute. reflexivity. }
  destruct (Value_copy_owns_payload object_state (VObject 1%positive) Hl)
    as ((w & s1 & Hc & _ & _ & _ & _ & s2 & Hd & Hf & _ & Ho & _) & _).
  exists w, s1, s2. split; [exact Hc|]. split; [exact Hd|]. split; [|exact Hf].
  apply Ho. vm_compute. reflexivity.
Defined.

(** ** The round trip Value -> ScopedValue -> Value *)

Lemma round_trip_mirror engine v s h w (b : bool) :
  mirror engine v = Some h ->
  (forall this s', handle_of s' this = Some h -> toValue engine this s' = Ok w s') ->
  (forall s', Value_eq w v s' = Ok b s') ->
  exists s', round_trip engine v s = Ok b s' /\ freed s' = freed s /\
             reported s' = reported s.
Proof.
  intros Hm Ht He.
  destruct (ScopedValue_Value_handle engine v s h Hm) as (this & s' & E & Hh & Hf & Hr).
  exists s'. unfold round_trip.
  rewrite (bind_Ok _ _ _ _ _ E), (bind_Ok _ _ _ _ _ (Ht _ _ Hh)), He. auto.
Qed.

(** C2, as stated, fails: a NaN comes back as a NaN, which [operator==] does
    not find equal to itself; the double 3.0 comes back Integer-tagged; the
    Int64 2^31 is narrowed to an [int32_t] on the way in and comes back as
    -2^31. *)
Lemma round_trip_not_equal :
  answer (run (round_trip plain_engine (Value_Number Dbl.nan))) = Some false /\
  answer (run (round_trip plain_engine (Value_Number (Dbl.of_Z 3)))) = Some false /\
  Int.in64 (2 ^ 31) /\
  answer (run (round_trip plain_engine (Value_Int64 (2 ^ 31)))) = Some false.
Proof.
  split; [vm_compute; reflexivity|]. split; [vm_compute; reflexivity|].
  split; [unfold Int.in64, Int.min64, Int.max64; lia|]. vm_compute; reflexivity.
Qed.

(** C2 (amended): constructing a ScopedValue from a Value and calling
    [toValue] on it yields a Value equal (per [operator==]) to the original
    for every Boolean-tagged Value made from a bool, every Integer-tagged
    Value whose payload lies in the Int32 range, every Double-tagged Value
    whose payload is neither a NaN nor the image of a 32-bit integer, the
    null Element pointer, and every Element pointer whose registered handle
    is element-shaped, is no string object and records that pointer in its
    marker slot. *)
Theorem round_trip_equal engine v s :
  round_trips engine v ->
  exists s', round_trip engine v s = Ok true s' /\ freed s' = freed s /\
             reported s' = reported s.
Proof.
  destruct v as [i|i|d|p|p|p]; cbn [round_trips]; intros Hv; try contradiction.
  - destruct Hv as [b ->].
    apply round_trip_mirror with (h := v8.HBoolean b) (w := Value_bool b).
    + cbn. rewrite Int_to_bool_of_bool. reflexivity.
    + intros this s' H. rewrite (toValue_handle _ _ _ _ H). reflexivity.
    + intros s'. cbn. rewrite Z.eqb_refl. reflexivity.
  - destruct (of_Z_int32 i Hv) as [H32 Hto].
    apply round_trip_mirror with (h := v8.HNumber (Dbl.of_Z i)) (w := VInteger i).
    + cbn. rewrite Int_to32_id by assumption. reflexivity.
    + intros this s' H. rewrite (toValue_handle _ _ _ _ H).
      cbn [v8.IsBoolean v8.IsInt32].
      rewrite H32. unfold ToInt32, ToNumber, Value_Int32. rewrite Hto. reflexivity.
    + intros s'. cbn. rewrite Z.eqb_refl. reflexivity.
  - destruct Hv as [Hnan H32].
    apply round_trip_mirror with (h := v8.HNumber d) (w := VDouble d).
    + reflexivity.
    + intros this s' H. rewrite (toValue_handle _ _ _ _ H).
      cbn [v8.IsBoolean v8.IsInt32 v8.IsNumber].
      rewrite H32. reflexivity.
    + intros s'. cbn. rewrite Dbl_eqb_refl by assumption. reflexivity.
  - destruct Hv as [->|(Hnn & Hshape & Hstr & Hfield)].
    + apply round_trip_mirror with (h := v8.HUndefined) (w := Value_default).
      * reflexivity.
      * intros this s' H. rewrite (toValue_handle _ _ _ _ H). reflexivity.
      * intros s'. reflexivity.
    + apply round_trip_mirror with (h := elementHandle engine p) (w := VElement p).
      * cbn. unfold localObject. apply N.eqb_neq in Hnn. rewrite Hnn. reflexivity.
      * intros this s' H. rewrite (toValue_handle _ _ _ _ H).
        destruct (element_shaped_marker _ Hshape) as [Hcount _].
        destruct (elementHandle engine p) as [| | | | |o] eqn:Eh; try discriminate.
        cbn [v8.IsBoolean v8.IsInt32 v8.IsNumber v8.IsString].
        rewrite Hstr, orb_false_r, Hshape.
        rewrite (bind_Ok _ _ _ p s'); [reflexivity|].
        rewrite (toElement_handle engine _ _ _ H). cbn [v8.IsNullOrUndefined].
        apply elementFromObject_marker; assumption.
      * intros s'. cbn. rewrite N.eqb_refl. reflexivity.
Qed.

(** The scenario of a ScopedValue built from [Value(false)]. *)
Lemma round_trip_equal_witness :
  exists s', round_trip plain_engine (Value_bool false) empty_state = Ok true s' /\
             freed s' = [] /\ reported s' = [].
Proof.
  apply (round_trip_equal plain_engine (Value_bool false) empty_state).
  exists false. reflexivity.
Defined.

(** The restrictions on Integer and Double are needed: outside them the
    round trip answers a Value that is not equal to the original. *)
Lemma round_trip_changed engine v s :
  round_trip_changes v ->
  exists s', round_trip engine v s = Ok false s'.
Proof.
  destruct v as [i|i|d|p|p|p]; cbn [round_trip_changes]; intros Hv; try contradiction.
  - pose proof (Int_to32_in32 i) as Hin.
    destruct (of_Z_int32 _ Hin) as [H32 Hto].
    destruct (round_trip_mirror engine (VInteger i) s
                (v8.HNumber (Dbl.of_Z (Int.to32 i))) (VInteger (Int.to32 i)) false)
      as (s' & E & _).
    + reflexivity.
    + intros this s' H. rewrite (toValue_handle _ _ _ _ H).
      cbn [v8.IsBoolean v8.IsInt32].
      rewrite H32. unfold ToInt32, ToNumber, Value_Int32. rewrite Hto. reflexivity.
    + intros s'. cbn. replace (Int.to32 i =? i) with false; [reflexivity|].
      symmetry. apply Z.eqb_neq. intros Heq. rewrite Heq in Hin. contradiction.
    + exists s'. exact E.
  - destruct (Dbl.is_int32 d) eqn:H32.
    + destruct (round_trip_mirror engine (VDouble d) s
                  (v8.HNumber d) (VInteger (Dbl.to_int32 d)) false) as (s' & E & _).
      * reflexivity.
      * intros this s' H. rewrite (toValue_handle _ _ _ _ H).
        cbn [v8.IsBoolean v8.IsInt32]. rewrite H32. reflexivity.
      * intros s'. reflexivity.
      * exists s'. exact E.
    + destruct Hv as [Hnan|Hv]; [|discriminate].
      apply Dbl_is_nan_eq in Hnan. subst d.
      destruct (round_trip_mirror engine (VDouble Dbl.nan) s
                  (v8.HNumber Dbl.nan) (VDouble Dbl.nan) false) as (s' & E & _).
      * reflexivity.
      * intros this s' H. rewrite (toValue_handle _ _ _ _ H). reflexivity.
      * intros s'. reflexivity.
      * exists s'. exact E.
Qed.

(** ** ScopedValue: toObject and toElement *)

(** C6: on a handle that is string-shaped and not object-shaped [toObject]
    returns normally the string boxed into a string object; on an
    element-shaped handle it fails with TypeMismatch. *)
Theorem toObject_boxes_string_rejects_element engine s this h :
  handle_of s this = Some h ->
  ((v8.IsStringObject h || v8.IsString h) = true -> v8.IsObject h = false ->
     exists str, h = v8.HString str /\
       toObject engine this s = Ok (mkObject (v8.StringObject_New str)) s /\
       v8.IsStringObject (v8.StringObject_New str) = true) /\
  (element_shaped h = true ->
     exists e, toObject engine this s = Thrown e s /\ kind e = TypeMismatch).
Proof.
  intros H. rewrite (toObject_handle engine _ _ _ H). split.
  - intros Hs Ho. rewrite Hs, Ho. cbn [negb andb].
    destruct h as [| | | |str|o]; try discriminate.
    exists str. repeat split; reflexivity.
  - unfold element_shaped. intros He. apply andb_true_iff in He as [Ho Hc].
    rewrite Ho, Hc, andb_false_r. eexists. split; reflexivity.
Qed.

(** [ScopedValue a(engine, "abc"); a.toObject(engine)] *)
Lemma toObject_boxes_string_witness :
  toObject plain_engine 3%positive string_state
  = Ok (mkObject (v8.StringObject_New "abc")) string_state.
Proof.
  destruct (toObject_boxes_string_rejects_element
              plain_engine string_state 3%positive (v8.HString "abc") eq_refl) as [H _].
  destruct (H eq_refl eq_refl) as (str & Hs & Ho & _).
  injection Hs as <-. exact Ho.
Defined.

(** C7: [toElement] returns a null pointer for a null or undefined handle,
    the pointer recorded in the marker slot for an element-shaped handle,
    and fails with InvalidCast for any other handle, which lacks the marker
    slot. *)
Theorem toElement_by_shape engine s this h :
  handle_of s this = Some h ->
  (v8.IsNullOrUndefined h = true -> toElement engine this s = Ok nullptr s) /\
  (element_shaped h = true ->
     exists p, v8.GetInternalField0 h = Some p /\ toElement engine this s = Ok p s) /\
  (v8.IsNullOrUndefined h = false -> v8.InternalFieldCount h ≠ 1 ->
     exists e, toElement engine this s = Thrown e s /\ kind e = InvalidCast).
Proof.
  intros H. rewrite (toElement_handle engine _ _ _ H). split; [|split].
  - intros ->. reflexivity.
  - intros He. destruct (element_shaped_marker _ He) as [Hc [p Hp]].
    exists p. split; [assumption|].
    unfold element_shaped in He. destruct h; try discriminate.
    apply elementFromObject_marker; assumption.
  - intros -> Hc. apply elementFromObject_no_marker. assumption.
Qed.

(** [ScopedValue a(engine); a.toElement(engine)] *)
Lemma toElement_by_shape_witness :
  toElement plain_engine 3%positive undefined_state = Ok nullptr undefined_state.
Proof.
  destruct (toElement_by_shape plain_engine undefined_state 3%positive v8.HUndefined eq_refl)
    as [H _].
  exact (H eq_refl).
Defined.

(** ** ScopedValue from a null Element pointer *)

(** C9, as stated, fails: the ScopedValue built from a null Element pointer
    answers false to [isNull]. *)
Lemma isNull_of_null_Element_is_false :
  answer (run (let* sv := ScopedValue_Element plain_engine nullptr in isNull sv))
  = Some false.
Proof. vm_compute. reflexivity. Qed.

(** C9 (amended): a ScopedValue built from a null Element pointer wraps the
    undefined handle; [isNull] answers false for it, being true of the
    engine's null value only, and [toElement] returns a null pointer. *)
Theorem null_Element_handle_is_undefined engine s :
  exists this s',
    ScopedValue_Element engine nullptr s = Ok this s' /\
    handle_of s' this = Some v8.HUndefined /\
    isNull this s' = Ok false s' /\
    toElement engine this s' = Ok nullptr s'.
Proof.
  unfold ScopedValue_Element.
  destruct (ScopedValue_Local_handle (localObject engine nullptr) s)
    as (this & s' & E & H & _).
  exists this, s'. change (localObject engine nullptr) with v8.HUndefined in *.
  repeat split; try assumption.
  - unfold isNull. apply (data_ret v8.IsNull _ _ _ H).
  - rewrite (toElement_handle engine _ _ _ H). reflexivity.
Qed.

(** The same holds on the way through a Value: [ScopedValue(engine,
    Value())] is undefined, not null. *)
Example isNull_of_null_Value :
  answer (run (let* sv := ScopedValue_Value plain_engine Value_default in isNull sv))
  = Some false.
Proof. vm_compute. reflexivity. Qed.

(** ** The generic conversion to an Element pointer *)




(** An element-shaped handle and the null handle are converted without an
    error. *)
Example convertFromV8_Element_ok :
  run (convertFromV8_Element plain_engine
         (v8.HObject {| v8.class := v8.PlainObject; v8.internal_fields := [5%N] |}))
  = Ok 5%N empty_state /\
  run (convertFromV8_Element plain_engine v8.HNull) = Ok nullptr empty_state.
Proof. split; reflexivity. Qed.

(** ** ScopedValue: the shared reference counter *)

Lemma family_distinct s d r (I : gset loc) a :
  family s d r I -> a ∈ I -> (a ≠ r /\ a ≠ d /\ d ≠ r).
Proof.
  intros (Hi & Hr & (h & Hd) & _) Ha. apply Hi in Ha.
  repeat split; intros ->; congruence.
Qed.

Lemma family_two s d r (I : gset loc) a b :
  family s d r I -> a ∈ I -> b ∈ I -> a ≠ b -> (2 <= size I)%nat.
Proof.
  intros _ Ha Hb Hab.
  assert (Hsub : ({[a]} ∪ {[b]} : gset loc) ⊆ I).
  { intros x Hx. apply elem_of_union in Hx as [Hx|Hx];
      apply elem_of_singleton in Hx as ->; assumption. }
  apply subseteq_size in Hsub. rewrite size_union in Hsub.
  - rewrite !size_singleton in Hsub. exact Hsub.
  - intros x Hx Hy. apply elem_of_singleton in Hx, Hy. congruence.
Qed.

Lemma size_remove (I : gset loc) a : a ∈ I -> size (I ∖ {[a]}) = (size I - 1)%nat.
Proof.
  intros Ha. rewrite size_difference.
  - rewrite size_singleton. reflexivity.
  - intros x Hx. apply elem_of_singleton in Hx as ->. assumption.
Qed.

Lemma size_not_one (I : gset loc) a : a ∈ I -> size I ≠ 1%nat -> (2 <= size I)%nat.
Proof.
  intros Ha H1.
  assert (size I ≠ 0%nat).
  { intros Hz. apply size_empty_inv in Hz. apply (not_elem_of_empty (C := gset loc) a).
    rewrite <- (leibniz_equiv _ _ Hz). assumption. }
  lia.
Qed.

(** Copying a member adds an instance and increments the counter. *)
Lemma copy_family s d r (I : gset loc) a :
  family s d r I -> a ∈ I -> Z.of_nat (size I) < Int.max32 ->
  exists a' s', ScopedValue_copy a s = Ok a' s' /\ (a' ∉ I) /\
                family s' d r ({[a']} ∪ I) /\ freed s' = freed s.
Proof.
  intros Hf Ha Hlt. destruct (family_distinct _ _ _ _ _ Hf Ha) as (Har & Had & Hdr).
  destruct Hf as (Hi & Hr & (h & Hd) & Hmax).
  pose proof (proj2 (Hi a) Ha) as Hcell.
  unfold ScopedValue_copy, emplace.
  rewrite (bind_Ok _ _ _ _ _ (load_ScopedValue_Some _ _ _ _ Hcell)). cbn [fst snd].
  rewrite (bind_Ok _ _ _ _ _ (pre_incr_Some _ _ _ Hr)).
  set (s1 := set_heap _ s).
  destruct (alloc_spec (ScopedValueCell d r) s1) as (a' & E & Hfresh).
  rewrite E. exists a'. eexists. split; [reflexivity|].
  unfold s1 in Hfresh. cbn in Hfresh.
  assert (Ha'r : a' ≠ r) by (intros ->; rewrite lookup_insert_eq in Hfresh; discriminate).
  rewrite lookup_insert_ne in Hfresh by congruence.
  assert (Hnot : a' ∉ I) by (intros Hin; apply Hi in Hin; congruence).
  split; [assumption|]. split; [|reflexivity].
  assert (Hsize : size ({[a']} ∪ I) = S (size I)).
  { rewrite size_union.
    - rewrite size_singleton. reflexivity.
    - intros x Hx Hy. apply elem_of_singleton in Hx as ->. contradiction. }
  unfold family. subst s1. cbn [heap set_heap]. rewrite Hsize.
  split; [intros a0; split|split; [|split]].
  - intros Hx. apply elem_of_union.
    destruct (decide (a0 = a')) as [->|Hne]; [left; apply elem_of_singleton; reflexivity|].
    rewrite lookup_insert_ne in Hx by congruence.
    destruct (decide (a0 = r)) as [->|Hne2].
    + rewrite lookup_insert_eq in Hx. discriminate.
    + rewrite lookup_insert_ne in Hx by congruence. right. apply Hi. assumption.
  - intros Hx. apply elem_of_union in Hx as [Hx|Hx].
    + apply elem_of_singleton in Hx as ->. apply lookup_insert_eq.
    + assert (a0 ≠ a') by (intros ->; contradiction).
      rewrite lookup_insert_ne by congruence.
      pose proof (proj2 (Hi a0) Hx) as Hc.
      assert (a0 ≠ r) by (intros ->; congruence).
      rewrite lookup_insert_ne by congruence. assumption.
  - rewrite lookup_insert_ne by congruence. rewrite lookup_insert_eq.
    rewrite Int_to32_id by (unfold Int.in32, Int.min32, Int.max32 in *; lia).
    do 2 f_equal. lia.
  - exists h. assert (d ≠ a') by (intros ->; congruence).
    rewrite !lookup_insert_ne by congruence. assumption.
  - unfold Int.max32 in *. lia.
Qed.

(** Destroying one of several members decrements the counter and frees
    nothing. *)
Lemma dtor_shared s d r (I : gset loc) a :
  family s d r I -> a ∈ I -> (2 <= size I)%nat ->
  exists s', ScopedValue_dtor a s = Ok tt s' /\ family s' d r (I ∖ {[a]}) /\
             freed s' = freed s.
Proof.
  intros Hf Ha Hge. destruct (family_distinct _ _ _ _ _ Hf Ha) as (Har & Had & Hdr).
  destruct Hf as (Hi & Hr & (h & Hd) & Hmax).
  pose proof (proj2 (Hi a) Ha) as Hcell.
  unfold ScopedValue_dtor.
  rewrite (bind_Ok _ _ _ _ _ (load_ScopedValue_Some _ _ _ _ Hcell)). cbn [fst snd].
  rewrite (bind_Ok _ _ _ _ _ (pre_decr_Some _ _ _ Hr)).
  set (s1 := set_heap _ s).
  assert (Hn : Int.to32 (Z.of_nat (size I) - 1) = Z.of_nat (size I) - 1).
  { apply Int_to32_id. unfold Int.in32, Int.min32, Int.max32 in *. lia. }
  assert (H1 : heap s1 !! r = Some (IntCell (Z.of_nat (size I) - 1))).
  { unfold s1. cbn. rewrite lookup_insert_eq, Hn. reflexivity. }
  rewrite (bind_Ok _ _ _ _ _ (load_int_Some _ _ _ H1)).
  replace (Z.of_nat (size I) - 1 =? 0) with false by (symmetry; apply Z.eqb_neq; lia).
  rewrite (bind_Ok _ _ s1 tt s1) by reflexivity.
  assert (H2 : heap s1 !! a = Some (ScopedValueCell d r)).
  { unfold s1. cbn. rewrite lookup_insert_ne by congruence. assumption. }
  rewrite (release_Some _ _ _ H2). eexists. split; [reflexivity|]. split; [|reflexivity].
  unfold family. subst s1. cbn [heap set_heap]. rewrite (size_remove _ _ Ha).
  split; [intros a0; split|split; [|split]].
  - intros Hx. apply elem_of_difference. destruct (decide (a0 = a)) as [->|Hne].
    + rewrite lookup_delete_eq in Hx. discriminate.
    + rewrite lookup_delete_ne in Hx by congruence.
      destruct (decide (a0 = r)) as [->|Hne2].
      * rewrite lookup_insert_eq in Hx. discriminate.
      * rewrite lookup_insert_ne in Hx by congruence. split; [apply Hi; assumption|].
        intros Hs. apply elem_of_singleton in Hs. contradiction.
  - intros Hx. apply elem_of_difference in Hx as [Hx Hna].
    assert (a0 ≠ a) by (intros ->; apply Hna, elem_of_singleton; reflexivity).
    rewrite lookup_delete_ne by congruence.
    pose proof (proj2 (Hi a0) Hx) as Hc.
    assert (a0 ≠ r) by (intros ->; congruence).
    rewrite lookup_insert_ne by congruence. assumption.
  - rewrite lookup_delete_ne by congruence. rewrite lookup_insert_eq, Hn.
    do 2 f_equal. lia.
  - exists h. rewrite lookup_delete_ne, lookup_insert_ne by congruence. assumption.
  - lia.
Qed.

(** Destroying the only member brings the counter to zero and frees the
    counter and the record. *)
Lemma dtor_last s d r (I : gset loc) a :
  family s d r I -> a ∈ I -> size I = 1%nat ->
  exists s', ScopedValue_dtor a s = Ok tt s' /\
             heap s' !! d = None /\ heap s' !! r = None /\ heap s' !! a = None /\
             freed s' = freed s ++ [r; d].
Proof.
  intros Hf Ha H1. destruct (family_distinct _ _ _ _ _ Hf Ha) as (Har & Had & Hdr).
  destruct Hf as (Hi & Hr & (h & Hd) & Hmax).
  pose proof (proj2 (Hi a) Ha) as Hcell.
  unfold ScopedValue_dtor.
  rewrite (bind_Ok _ _ _ _ _ (load_ScopedValue_Some _ _ _ _ Hcell)). cbn [fst snd].
  rewrite (bind_Ok _ _ _ _ _ (pre_decr_Some _ _ _ Hr)).
  rewrite H1. change (Int.to32 (Z.of_nat 1 - 1)) with 0.
  set (s1 := set_heap _ s).
  assert (Hr1 : heap s1 !! r = Some (IntCell 0)) by apply lookup_insert_eq.
  rewrite (bind_Ok _ _ _ _ _ (load_int_Some _ _ _ Hr1)).
  change (0 =? 0) with true. cbv iota.
  rewrite (bind_Ok _ _ _ tt
    {| heap := base.delete d (base.delete r (heap s1)); garbage := garbage s;
       freed := freed s ++ [r; d]; reported := reported s |}).
  2:{ rewrite (bind_Ok _ _ _ _ _ (delete_Some _ _ _ Hr1)).
      erewrite delete_Some.
      - cbn. rewrite <- app_assoc. reflexivity.
      - cbn. rewrite lookup_delete_ne, lookup_insert_ne by congruence. exact Hd. }
  erewrite release_Some.
  2:{ cbn. rewrite !lookup_delete_ne, lookup_insert_ne by congruence. exact Hcell. }
  eexists. split; [reflexivity|]. cbn.
  split; [rewrite lookup_delete_ne, lookup_delete_eq by congruence; reflexivity|].
  split; [rewrite !lookup_delete_ne, lookup_delete_eq by congruence; reflexivity|].
  split; [apply lookup_delete_eq|reflexivity].
Qed.

(** Assigning one member to another leaves the store as it was: the counter
    goes down and up again. *)
Lemma assign_within_family s d r (I : gset loc) a b :
  family s d r I -> a ∈ I -> b ∈ I -> ScopedValue_assign a b s = Ok tt s.
Proof.
  intros Hf Ha Hb. unfold ScopedValue_assign.
  destruct (Pos.eqb_spec a b) as [->|Hab]; [reflexivity|]. cbn [negb].
  pose proof (family_two _ _ _ _ _ _ Hf Ha Hb Hab) as Hge.
  destruct (family_distinct _ _ _ _ _ Hf Ha) as (Har & Had & Hdr).
  destruct (family_distinct _ _ _ _ _ Hf Hb) as (Hbr & Hbd & _).
  destruct Hf as (Hi & Hr & (h & Hd) & Hmax).
  pose proof (proj2 (Hi a) Ha) as Hca. pose proof (proj2 (Hi b) Hb) as Hcb.
  rewrite (bind_Ok _ _ _ _ _ (load_ScopedValue_Some _ _ _ _ Hca)). cbn [fst snd].
  rewrite (bind_Ok _ _ _ _ _ (pre_decr_Some _ _ _ Hr)).
  assert (Hn : Int.to32 (Z.of_nat (size I) - 1) = Z.of_nat (size I) - 1).
  { apply Int_to32_id. unfold Int.in32, Int.min32, Int.max32 in *. lia. }
  rewrite Hn. set (s1 := set_heap _ s).
  assert (H1 : heap s1 !! r = Some (IntCell (Z.of_nat (size I) - 1)))
    by apply lookup_insert_eq.
  rewrite (bind_Ok _ _ _ _ _ (load_int_Some _ _ _ H1)).
  replace (Z.of_nat (size I) - 1 =? 0) with false by (symmetry; apply Z.eqb_neq; lia).
  rewrite (bind_Ok _ _ s1 tt s1) by reflexivity.
  assert (H1b : heap s1 !! b = Some (ScopedValueCell d r)).
  { unfold s1. cbn. rewrite lookup_insert_ne by congruence. assumption. }
  assert (H1a : heap s1 !! a = Some (ScopedValueCell d r)).
  { unfold s1. cbn. rewrite lookup_insert_ne by congruence. assumption. }
  rewrite (bind_Ok _ _ _ _ _ (load_ScopedValue_Some _ _ _ _ H1b)). cbn [fst snd].
  rewrite (bind_Ok _ _ _ _ _ (store_Some _ _ _ _ H1a)).
  rewrite (insert_id (heap s1) a), set_heap_id by assumption.
  rewrite (pre_incr_Some _ _ _ H1). f_equal.
  replace (Z.of_nat (size I) - 1 + 1) with (Z.of_nat (size I)) by lia.
  rewrite Int_to32_id by (unfold Int.in32, Int.min32, Int.max32 in *; lia).
  unfold s1, set_heap. cbn. rewrite insert_insert_eq, insert_id by assumption.
  destruct s; reflexivity.
Qed.

(** Destroying the members of a list, in any order: as long as some member
    is left nothing is freed; with the last member the counter and the
    record are freed. *)
Lemma destroy_family ds : forall s d r (I : gset loc),
  family s d r I -> NoDup ds -> (forall a, a ∈ ds -> a ∈ I) ->
  ((length ds < size I)%nat ->
     exists s', destroy_all ds s = Ok tt s' /\ family s' d r (I ∖ list_to_set ds) /\
                freed s' = freed s) /\
  (length ds = size I -> ds ≠ [] ->
     exists s', destroy_all ds s = Ok tt s' /\ heap s' !! d = None /\ heap s' !! r = None /\
                freed s' = freed s ++ [r; d]).
Proof.
  induction ds as [|a ds IH]; intros s d r I Hf Hnd Hsub.
  - split.
    + intros _. exists s. split; [reflexivity|]. split; [|reflexivity].
      simpl list_to_set. rewrite difference_empty_L. assumption.
    + intros _ Hne. contradiction.
  - apply NoDup_cons in Hnd as [Hna Hnd].
    assert (Ha : a ∈ I) by (apply Hsub; left).
    cbn [destroy_all length].
    destruct (decide (size I = 1%nat)) as [H1|H1].
    + split; [intros Hlt; lia|]. intros Hlen _.
      destruct ds as [|b ds]; [|cbn in Hlen; lia].
      destruct (dtor_last _ _ _ _ _ Hf Ha H1) as (s' & E & Hd & Hr & _ & Hfr).
      exists s'. rewrite (bind_Ok _ _ _ _ _ E). auto.
    + pose proof (size_not_one _ _ Ha H1) as Hge.
      destruct (dtor_shared _ _ _ _ _ Hf Ha Hge) as (s1 & E & Hf1 & Hfr1).
      rewrite (bind_Ok _ _ _ _ _ E).
      assert (Hsub1 : forall x, x ∈ ds -> x ∈ I ∖ {[a]}).
      { intros x Hx. apply elem_of_difference. split; [apply Hsub; right; assumption|].
        intros Hxa. apply elem_of_singleton in Hxa as ->. contradiction. }
      destruct (IH s1 d r (I ∖ {[a]}) Hf1 Hnd Hsub1) as [IHsome IHall].
      rewrite (size_remove _ _ Ha) in IHsome, IHall. rewrite <- Hfr1. split.
      * intros Hlt. destruct IHsome as (s' & E' & Hf' & Hfr'); [lia|].
        exists s'. split; [assumption|]. split; [|assumption].
        rewrite list_to_set_cons, <- difference_difference_l_L. assumption.
      * intros Hlen _. apply IHall; [lia|]. intros ->. cbn in Hlen. lia.
Qed.

(** A constructor on a counter cell that reads 0 starts a family of one. *)
Lemma ScopedValue_Local_family data0 s :
  (forall l, garbage s l = 0) -> no_stale_instance s ->
  exists this d r s',
    ScopedValue_Local data0 s = Ok this s' /\ family s' d r {[this]} /\
    handle_of s' this = Some data0 /\ freed s' = freed s.
Proof.
  intros Hg Hs.
  destruct (ScopedValue_Local_spec data0 s)
    as (this & d & r & E & Hd & Hr & Ht & Hdr & Hdt & Hrt).
  exists this, d, r. eexists. split; [exact E|]. split; [|split; [|reflexivity]].
  - unfold family. cbn [heap set_heap]. rewrite size_singleton, Hg.
    split; [intros a; split|split; [|split]].
    + intros Hx. apply elem_of_singleton.
      destruct (decide (a = this)) as [->|Hne]; [reflexivity|].
      rewrite lookup_insert_ne in Hx by congruence.
      destruct (decide (a = r)) as [->|Hne2]; [rewrite lookup_insert_eq in Hx; discriminate|].
      rewrite lookup_insert_ne in Hx by congruence.
      destruct (decide (a = d)) as [->|Hne3]; [rewrite lookup_insert_eq in Hx; discriminate|].
      rewrite lookup_insert_ne in Hx by congruence.
      apply Hs in Hx as [c Hc]. congruence.
    + intros Hx. apply elem_of_singleton in Hx as ->. apply lookup_insert_eq.
    + rewrite lookup_insert_ne by congruence. rewrite lookup_insert_eq. reflexivity.
    + exists data0. rewrite !lookup_insert_ne by congruence. apply lookup_insert_eq.
    + unfold Int.max32. lia.
  - apply handle_of_intro with d r; cbn.
    + apply lookup_insert_eq.
    + rewrite !lookup_insert_ne by congruence. apply lookup_insert_eq.
Qed.

(** C4 (code bug): the constructors allocate the counter with [new int],
    which does not initialise it, and increment it.  When the fresh cell
    reads 7 the counter of a single instance is 8, and destroying that
    instance, the last one, frees neither the counter (at 2) nor the record
    (at 1).  When it reads -1 the counter of two copies is 1, and destroying
    one of them frees the counter and the record that the other instance
    still refers to, whose handle is then read through a dangling
    pointer. *)
Theorem uninitialised_counter_breaks_sharing :
  (exists a s1 s2,
     ScopedValue_Engine plain_engine (stale_state 7) = Ok a s1 /\
     heap s1 !! 2%positive = Some (IntCell 8) /\
     ScopedValue_dtor a s1 = Ok tt s2 /\
     freed s2 = [] /\
     heap s2 !! 2%positive = Some (IntCell 7) /\
     heap s2 !! 1%positive = Some (LocalValuePrivate v8.HUndefined)) /\
  (exists a b s1 s2 s3,
     ScopedValue_Engine plain_engine (stale_state (-1)) = Ok a s1 /\
     ScopedValue_copy a s1 = Ok b s2 /\
     heap s2 !! 2%positive = Some (IntCell 1) /\
     ScopedValue_dtor b s2 = Ok tt s3 /\
     freed s3 = [2%positive; 1%positive] /\
     heap s3 !! a = Some (ScopedValueCell 1%positive 2%positive) /\
     data a s3 = Fault).
Proof.
  split.
  - eexists _, _, _. split; [vm_compute; reflexivity|].
    split; [vm_compute; reflexivity|]. split; [vm_compute; reflexivity|].
    split; [reflexivity|]. split; vm_compute; reflexivity.
  - eexists _, _, _, _, _. split; [vm_compute; reflexivity|].
    split; [vm_compute; reflexivity|]. split; [vm_compute; reflexivity|].
    split; [vm_compute; reflexivity|]. split; [reflexivity|].
    split; vm_compute; reflexivity.
Qed.

(** X1: the sharing protocol itself is right.  In a family of instances
    that share one record and one counter which holds their number,
    copying a member adds an instance and increments the counter by one;
    destroying a member decrements it by one, and frees the counter and the
    record exactly when it reaches zero; hence destroying, in any order,
    fewer members than there are frees nothing and leaves the record live,
    and destroying all of them frees the counter and the record once
    each. Assigning one member to another changes nothing. *)
Theorem family_reference_counting s d r (I : gset loc) :
  family s d r I ->
  (forall a, a ∈ I -> Z.of_nat (size I) < Int.max32 ->
     exists a' s', ScopedValue_copy a s = Ok a' s' /\ (a' ∉ I) /\
                   family s' d r ({[a']} ∪ I) /\ freed s' = freed s) /\
  (forall a, a ∈ I ->
     exists s', ScopedValue_dtor a s = Ok tt s' /\
       if decide (size I = 1%nat)
       then heap s' !! d = None /\ heap s' !! r = None /\ freed s' = freed s ++ [r; d]
       else family s' d r (I ∖ {[a]}) /\ freed s' = freed s) /\
  (forall ds, NoDup ds -> (forall a, a ∈ ds -> a ∈ I) -> (length ds < size I)%nat ->
     exists s', destroy_all ds s = Ok tt s' /\ family s' d r (I ∖ list_to_set ds) /\
                freed s' = freed s) /\
  (forall ds, NoDup ds -> list_to_set ds = I -> ds ≠ [] ->
     exists s', destroy_all ds s = Ok tt s' /\ heap s' !! d = None /\ heap s' !! r = None /\
                freed s' = freed s ++ [r; d]) /\
  (forall a b, a ∈ I -> b ∈ I -> ScopedValue_assign a b s = Ok tt s).
Proof.
  intros Hf. split; [|split; [|split; [|split]]].
  - intros a Ha Hlt. apply copy_family; assumption.
  - intros a Ha. destruct (decide (size I = 1%nat)) as [H1|H1].
    + destruct (dtor_last _ _ _ _ _ Hf Ha H1) as (s' & E & Hd & Hr & _ & Hfr). eauto.
    + pose proof (size_not_one _ _ Ha H1) as Hge.
      destruct (dtor_shared _ _ _ _ _ Hf Ha Hge) as (s' & E & Hf' & Hfr). eauto.
  - intros ds Hnd Hsub Hlt. apply (destroy_family ds s d r I Hf Hnd Hsub). assumption.
  - intros ds Hnd Hall Hne.
    assert (Hsub : forall a, a ∈ ds -> a ∈ I).
    { intros a Ha. subst I. apply elem_of_list_to_set. assumption. }
    apply (destroy_family ds s d r I Hf Hnd Hsub); [|assumption].
    subst I. symmetry. apply size_list_to_set. assumption.
  - intros a b Ha Hb. apply (assign_within_family s d r I a b Hf Ha Hb).
Qed.

Lemma shared_state_family :
  family shared_state 1%positive 2%positive {[3%positive; 4%positive]}.
Proof.
  assert (Hh : heap shared_state =
    <[4%positive := ScopedValueCell 1%positive 2%positive]> (<[2%positive := IntCell 2]>
      (<[3%positive := ScopedValueCell 1%positive 2%positive]>
         (<[1%positive := LocalValuePrivate v8.HUndefined]> ∅)))).
  { vm_compute. reflexivity. }
  unfold family. rewrite Hh.
  split; [intros a; split|split; [|split]].
  - intros Hx. apply elem_of_union. rewrite !elem_of_singleton.
    destruct (decide (a = 4%positive)) as [->|?]; [right; reflexivity|].
    rewrite lookup_insert_ne in Hx by congruence.
    destruct (decide (a = 2%positive)) as [->|?]; [rewrite lookup_insert_eq in Hx; discriminate|].
    rewrite lookup_insert_ne in Hx by congruence.
    destruct (decide (a = 3%positive)) as [->|?]; [left; reflexivity|].
    rewrite lookup_insert_ne in Hx by congruence.
    destruct (decide (a = 1%positive)) as [->|?]; [rewrite lookup_insert_eq in Hx; discriminate|].
    rewrite lookup_insert_ne, lookup_empty in Hx by congruence. discriminate.
  - intros Hx. apply elem_of_union in Hx as [Hx|Hx];
      apply elem_of_singleton in Hx as ->; reflexivity.
  - reflexivity.
  - exists v8.HUndefined. reflexivity.
  - vm_compute. discriminate.
Qed.

(** [ScopedValue a(engine); ScopedValue b(a);] then [b] and [a] go out of
    scope: the counter (at 2) and the record (at 1) are freed once each. *)
Lemma family_reference_counting_witness :
  exists s', destroy_all [4%positive; 3%positive] shared_state = Ok tt s' /\
             heap s' !! 1%positive = None /\ heap s' !! 2%positive = None /\
             freed s' = freed shared_state ++ [2%positive; 1%positive].
Proof.
  destruct (family_reference_counting shared_state 1%positive 2%positive
              {[3%positive; 4%positive]} shared_state_family) as (_ & _ & _ & Hall & _).
  apply Hall.
  - apply NoDup_cons. split; [|apply NoDup_singleton].
    rewrite list_elem_of_singleton. discriminate.
  - vm_compute. reflexivity.
  - discriminate.
Defined.

(** C10: assigning a ScopedValue to itself returns with the store exactly as
    it was, whatever it holds: the instance, its record, its counter and the
    counter's value are unchanged and nothing is freed. *)
Theorem ScopedValue_self_assign this s : ScopedValue_assign this this s = Ok tt s.
Proof. unfold ScopedValue_assign. rewrite Pos.eqb_refl. reflexivity. Qed.

(** With a single owner the guard matters: without it the record would be
    freed by the decrement.  Here the counter is 1 before and after. *)
Example self_assign_single_owner :
  ScopedValue_assign 3%positive 3%positive undefined_state = Ok tt undefined_state /\
  heap undefined_state !! 2%positive = Some (IntCell 1) /\
  freed undefined_state = [].
Proof. split; [apply ScopedValue_self_assign|]. split; vm_compute; reflexivity. Qed.

(** * Part II, continued: the remaining operations of value.cpp *)

(** ** Literals through a ScopedValue *)

Lemma c_str_idem str : c_str (c_str str) = c_str str.
Proof.
  induction str as [|c str IH]; [reflexivity|]. cbn [c_str].
  destruct (Ascii.eqb c Ascii.zero) eqn:E; [reflexivity|].
  cbn [c_str]. rewrite E, IH. reflexivity.
Qed.

Lemma c_str_nul_free str : nul_free str = true -> c_str str = str.
Proof.
  unfold nul_free. induction str as [|c str IH]; [reflexivity|].
  cbn [String.list_ascii_of_string forallb c_str]. intros H.
  apply andb_true_iff in H. destruct H as [Hc H].
  destruct (Ascii.eqb c Ascii.zero); [discriminate|]. rewrite (IH H). reflexivity.
Qed.

Lemma ScopedValue_string_handle engine str s :
  exists this s', ScopedValue_string engine str s = Ok this s' /\
    handle_of s' this = Some (v8.HString (c_str str)) /\
    freed s' = freed s /\ reported s' = reported s.
Proof.
  unfold ScopedValue_string, emplace.
  destruct (new_int_spec s) as (r & Er & Hr).
  rewrite (bind_Ok _ _ _ _ _ Er).
  set (s1 := set_heap _ s).
  destruct (alloc_spec (LocalValuePrivate (v8.String_NewFromUtf8 (c_str str))) s1)
    as (d & Ed & Hd).
  rewrite (bind_Ok _ _ _ _ _ Ed).
  set (s2 := set_heap _ s1).
  assert (Hdr : d ≠ r).
  { intros ->. unfold s1 in Hd. cbn in Hd. rewrite lookup_insert_eq in Hd. discriminate. }
  assert (H2 : heap s2 !! r = Some (IntCell (garbage s r))).
  { unfold s2, s1. cbn. rewrite lookup_insert_ne by congruence. apply lookup_insert_eq. }
  rewrite (bind_Ok _ _ _ _ _ (pre_incr_Some _ _ _ H2)).
  set (s3 := set_heap _ s2).
  destruct (alloc_spec (ScopedValueCell d r) s3) as (this & Et & Ht).
  rewrite Et. eexists _, _. split; [reflexivity|]. split; [|split; reflexivity].
  assert (r ≠ this).
  { intros ->. unfold s3 in Ht. cbn in Ht. rewrite lookup_insert_eq in Ht. discriminate. }
  assert (d ≠ this).
  { intros ->. unfold s3, s2 in Ht. cbn in Ht.
    rewrite lookup_insert_ne, lookup_insert_eq in Ht by congruence. discriminate. }
  apply handle_of_intro with d r; cbn.
  - apply lookup_insert_eq.
  - rewrite !lookup_insert_ne by congruence. apply lookup_insert_eq.
Qed.

Lemma builds_Local data0 s (P : loc -> State -> Prop) :
  (forall this s', handle_of s' this = Some data0 -> P this s') ->
  builds (ScopedValue_Local data0) s P.
Proof.
  intros HP. destruct (ScopedValue_Local_handle data0 s) as (this & s' & E & H & Hf & Hr).
  exists this, s'. auto.
Qed.

Lemma of_Z_not_zero_nan z :
  Int.in32 z -> Dbl.is_nan (Dbl.of_Z z) = false /\ Dbl.is_zero (Dbl.of_Z z) = (z =? 0).
Proof.
  intros Hz. destruct z as [|m|m]; unfold Dbl.of_Z, binary_normalize.
  - split; reflexivity.
  - destruct (binary_round_short false m) as [d ->]; [|split; reflexivity].
    unfold Dbl.prec. apply Z.le_lt_trans with 32; [|lia].
    apply digits2_pos_le; [lia|]. unfold Int.in32, Int.min32, Int.max32 in Hz. lia.
  - destruct (binary_round_short true m) as [d ->]; [|split; reflexivity].
    unfold Dbl.prec. apply Z.le_lt_trans with 32; [|lia].
    apply digits2_pos_le; [lia|]. unfold Int.in32, Int.min32, Int.max32 in Hz. lia.
Qed.

(** X2: a literal handed to a constructor of ScopedValue is read back
    unchanged by the matching conversion, and the shape tests recognise
    it: a bool by [toBool] and [isBool]; an Int32 by [toInt32], with [isInt]
    and [isNumber] both true and [toNumber] giving the integer as a double;
    a number by [toNumber], a NaN included, with [isInt] true exactly when
    it is the image of a 32-bit integer.  An Int64 is narrowed to 32 bits
    first.  A string of ASCII text goes in and comes out as a C string: it
    is read back by [toStdString] up to its first NUL, hence unchanged when
    it holds none, with [isString] true and [isObject] false. *)
Theorem literal_read_back engine s :
  (forall b,
     builds (ScopedValue_bool engine b) s (fun this s' =>
       toBool engine this s' = Ok b s' /\ isBool this s' = Ok true s' /\
       isNumber this s' = Ok false s' /\ isNull this s' = Ok false s')) /\
  (forall i, Int.in32 i ->
     builds (ScopedValue_Int32 engine i) s (fun this s' =>
       toInt32 engine this s' = Ok i s' /\ toNumber engine this s' = Ok (Dbl.of_Z i) s' /\
       isInt this s' = Ok true s' /\ isNumber this s' = Ok true s' /\
       toBool engine this s' = Ok (negb (i =? 0)) s')) /\
  (forall i,
     builds (ScopedValue_Int64 engine i) s (fun this s' =>
       toInt32 engine this s' = Ok (Int.to32 i) s' /\ isInt this s' = Ok true s')) /\
  (forall d,
     builds (ScopedValue_Number engine d) s (fun this s' =>
       toNumber engine this s' = Ok d s' /\ isNumber this s' = Ok true s' /\
       isInt this s' = Ok (Dbl.is_int32 d) s' /\ isBool this s' = Ok false s')) /\
  (forall str, ascii_text str = true ->
     builds (ScopedValue_string engine str) s (fun this s' =>
       toStdString engine this s' = Ok (c_str str) s' /\
       (nul_free str = true -> toStdString engine this s' = Ok str s') /\
       isString this s' = Ok true s' /\
       isObject this s' = Ok false s' /\ isNumber this s' = Ok false s')).
Proof.
  split; [|split; [|split; [|split]]].
  - intros b. apply builds_Local. intros this s' H.
    unfold toBool, isBool, isNumber, isNull. rewrite !(data_ret _ _ _ _ H). auto.
  - intros i Hi. apply builds_Local. intros this s' H.
    destruct (of_Z_int32 i Hi) as [H32 Hto].
    destruct (of_Z_not_zero_nan i Hi) as [Hnan Hzero].
    unfold toInt32, toNumber, isInt, isNumber, toBool. rewrite !(data_ret _ _ _ _ H).
    unfold ToInt32, ToNumber, v8.Integer_New, v8.IsInt32, v8.IsNumber, v8.BooleanValue.
    rewrite Hto, H32, Hnan, Hzero, orb_false_r. auto.
  - intros i. apply builds_Local. intros this s' H.
    destruct (of_Z_int32 _ (Int_to32_in32 i)) as [H32 Hto].
    unfold toInt32, isInt. rewrite !(data_ret _ _ _ _ H).
    unfold ToInt32, ToNumber, v8.Integer_New, v8.IsInt32. rewrite Hto, H32. auto.
  - intros d. apply builds_Local. intros this s' H.
    unfold toNumber, isNumber, isInt, isBool. rewrite !(data_ret _ _ _ _ H). auto.
  - intros str _.
    destruct (ScopedValue_string_handle engine str s) as (this & s' & E & H & Hf & Hr).
    exists this, s'. split; [exact E|]. split; [exact Hf|]. split; [exact Hr|].
    unfold toStdString, isString, isObject, isNumber. rewrite !(data_ret _ _ _ _ H).
    cbn [ToString]. rewrite c_str_idem.
    split; [reflexivity|]. split; [|auto].
    intros Hn. rewrite (c_str_nul_free str Hn). reflexivity.
Qed.

(** [ScopedValue a(engine, "abc"); a.toStdString(engine)] *)
Lemma literal_read_back_witness :
  builds (ScopedValue_string plain_engine "abc") empty_state (fun this s' =>
    toStdString plain_engine this s' = Ok "abc"%string s' /\
    isString this s' = Ok true s').
Proof.
  destruct (literal_read_back plain_engine empty_state) as (_ & _ & _ & _ & H).
  destruct (H "abc"%string eq_refl) as (this & s' & E & Hf & Hr & _ & Ht & Hi & _).
  exists this, s'. split; [exact E|]. split; [exact Hf|]. split; [exact Hr|].
  split; [exact (Ht eq_refl)|exact Hi].
Defined.

(** ** toValue by the shape of the handle *)

Lemma Value_Object_spec o s :
  exists l, Value_Object o s = Ok (VObject l) (set_heap (<[l := ObjectCell o]> (heap s)) s)
            /\ heap s !! l = None.
Proof.
  unfold Value_Object, Data_Object.
  destruct (alloc_spec (ObjectCell o) s) as (l & E & Hl).
  exists l. rewrite (bind_Ok _ _ _ _ _ E). auto.
Qed.

Lemma Value_Callable_spec c s :
  exists l, Value_Callable c s = Ok (VCallable l) (set_heap (<[l := CallableCell c]> (heap s)) s)
            /\ heap s !! l = None.
Proof.
  unfold Value_Callable, Data_Callable.
  destruct (alloc_spec (CallableCell c) s) as (l & E & Hl).
  exists l. rewrite (bind_Ok _ _ _ _ _ E). auto.
Qed.

Lemma yields_scalar engine this s v (P : Value -> State -> Prop) :
  toValue engine this s = Ok v s -> live s v -> owned v = [] -> P v s ->
  yields engine this s (type v) P.
Proof.
  intros E Hl Ho HP. exists v, s. repeat (split; [solve [auto]|]).
  split; [|exact HP]. intros l Hin. rewrite Ho in Hin. destruct (not_elem_of_nil _ Hin).
Qed.

Lemma yields_Object engine this s o (P : Value -> State -> Prop) :
  toValue engine this s = Value_Object o s ->
  (forall v s', asObject v s' = Ok o s' -> P v s') ->
  yields engine this s Stored.Object P.
Proof.
  intros E HP. destruct (Value_Object_spec o s) as (l & El & Hl).
  exists (VObject l). eexists. rewrite E. split; [exact El|]. split; [reflexivity|].
  split; [exists o; apply lookup_insert_eq|]. split; [reflexivity|]. split; [reflexivity|].
  split; [discriminate|]. split; [|split].
  - intros l' c Hc. cbn. rewrite lookup_insert_ne by congruence. exact Hc.
  - intros l' Hin. cbn in Hin. apply list_elem_of_singleton in Hin. subst l'. exact Hl.
  - apply HP. apply load_Object_Some, lookup_insert_eq.
Qed.

Lemma yields_Callable engine this s c (P : Value -> State -> Prop) :
  toValue engine this s = Value_Callable c s ->
  (forall v s', asCallable v s' = Ok c s' -> P v s') ->
  yields engine this s Stored.Callable P.
Proof.
  intros E HP. destruct (Value_Callable_spec c s) as (l & El & Hl).
  exists (VCallable l). eexists. rewrite E. split; [exact El|]. split; [reflexivity|].
  split; [exists c; apply lookup_insert_eq|]. split; [reflexivity|]. split; [reflexivity|].
  split; [discriminate|]. split; [|split].
  - intros l' c' Hc. cbn. rewrite lookup_insert_ne by congruence. exact Hc.
  - intros l' Hin. cbn in Hin. apply list_elem_of_singleton in Hin. subst l'. exact Hl.
  - apply HP. apply load_Callable_Some, lookup_insert_eq.
Qed.

(** An object handle that is not element-shaped: a function gives a
    Callable Value, any other object an Object Value, each holding a wrapper
    of that very handle. *)
Lemma toValue_object_handle engine s this obj :
  handle_of s this = Some (v8.HObject obj) ->
  element_shaped (v8.HObject obj) = false ->
  yields engine this s (tag_of_shape (v8.HObject obj)) (fun v s' =>
    if v8.IsFunction (v8.HObject obj)
    then asCallable v s' = Ok (mkCallable (v8.HObject obj)) s'
    else asObject v s' = Ok (mkObject (v8.HObject obj)) s').
Proof.
  intros H Hne. pose proof (toValue_handle engine s this _ H) as E.
  pose proof (toObject_handle engine s this _ H) as EO.
  destruct obj as [c fields].
  unfold element_shaped in Hne. cbn [v8.IsObject andb] in Hne.
  cbn [v8.IsBoolean v8.IsInt32 v8.IsNumber v8.IsString] in E.
  unfold element_shaped in E. cbn [v8.IsObject andb] in E. rewrite Hne in E.
  cbn [v8.IsString v8.IsObject negb] in EO. rewrite andb_false_r, Hne in EO.
  destruct c; cbn [v8.IsStringObject v8.IsFunction orb andb negb tag_of_shape v8.class] in *.
  2:{ match type of H with handle_of _ _ = Some ?h =>
        apply yields_Callable with (c := mkCallable h) end; [|auto].
      rewrite E. apply bind_Ok. unfold toCallable. apply (data_ret mkCallable _ _ _ H). }
  all: (match type of H with handle_of _ _ = Some ?h =>
          apply yields_Object with (o := mkObject h) end;
        [rewrite E; apply bind_Ok; exact EO|auto]).
Qed.

(** X3: on a handle that is not element-shaped [toValue] always returns, and
    the tag of the Value follows the shape: Boolean for a boolean; Integer
    for a number that is the image of a 32-bit integer and Double for any
    other number; Object for a string (boxed into a string object), a
    string object, and any object that is no function; Callable for a
    function; the null Value for undefined and for null alike.  The Value's
    payload is valid, nothing is freed or reported, and the store grows by
    the one wrapper an Object or Callable Value owns and by nothing
    otherwise.  The only handle on which [toValue] throws is a string object
    with exactly one internal field: TypeMismatch, from [toObject]. *)
Theorem toValue_by_shape engine s this h :
  handle_of s this = Some h ->
  (element_shaped h = false ->
     yields engine this s (tag_of_shape h) (fun v s' =>
       match h with
       | v8.HUndefined | v8.HNull => v = Value_default
       | v8.HBoolean b => v = Value_bool b
       | v8.HNumber d =>
           v = if Dbl.is_int32 d then Value_Int32 (Dbl.to_int32 d) else Value_Number d
       | v8.HString str => asObject v s' = Ok (mkObject (v8.StringObject_New str)) s'
       | v8.HObject o =>
           if v8.IsFunction h
           then asCallable v s' = Ok (mkCallable h) s'
           else asObject v s' = Ok (mkObject h) s'
       end)) /\
  (v8.IsStringObject h = true -> v8.InternalFieldCount h = 1 ->
     exists e, toValue engine this s = Thrown e s /\ kind e = TypeMismatch).
Proof.
  intros H. pose proof (toValue_handle engine s this h H) as E.
  pose proof (toObject_handle engine s this h H) as EO. split.
  - intros Hne. destruct h as [| |b|d|str|[c fields]].
    + apply (yields_scalar _ _ _ Value_default); [exact E|exact I|reflexivity|reflexivity].
    + apply (yields_scalar _ _ _ Value_default); [exact E|exact I|reflexivity|reflexivity].
    + apply (yields_scalar _ _ _ (Value_bool b)); [exact E|exact I|reflexivity|reflexivity].
    + cbn [v8.IsBoolean v8.IsInt32 v8.IsNumber] in E. cbn [tag_of_shape].
      unfold ToInt32, ToNumber in E. destruct (Dbl.is_int32 d).
      * apply (yields_scalar _ _ _ (Value_Int32 (Dbl.to_int32 d)));
          [exact E|exact I|reflexivity|reflexivity].
      * apply (yields_scalar _ _ _ (Value_Number d)); [exact E|exact I|reflexivity|reflexivity].
    + cbn in E, EO. apply yields_Object with (o := mkObject (v8.StringObject_New str)).
      * rewrite E. apply bind_Ok. exact EO.
      * auto.
    + apply (toValue_object_handle engine s this _ H Hne).
  - intros Hs Hc. destruct h as [| | | | |[c fields]]; try discriminate.
    destruct c; try discriminate.
    cbn [v8.IsBoolean v8.IsInt32 v8.IsNumber v8.IsString v8.IsStringObject orb] in E.
    cbn [v8.IsString v8.IsObject v8.IsStringObject orb negb andb] in EO.
    apply Z.eqb_eq in Hc. rewrite Hc in EO.
    eexists. rewrite E. unfold bind. rewrite EO. split; reflexivity.
Qed.

(** [ScopedValue a(engine, "abc"); a.toValue(engine)] is an Object-tagged
    Value holding the boxed string. *)
Lemma toValue_by_shape_witness :
  yields plain_engine 3%positive string_state Stored.Object (fun v s' =>
    asObject v s' = Ok (mkObject (v8.StringObject_New "abc")) s').
Proof.
  destruct (toValue_by_shape plain_engine string_state 3%positive (v8.HString "abc") eq_refl)
    as [H _].
  exact (H eq_refl).
Defined.

(** ** Value: operator== *)

Lemma SFeqb_sym a b : SFeqb a b = SFeqb b a.
Proof.
  unfold SFeqb, SFcompare.
  destruct a as [sa|sa| |sa ma ea], b as [sb|sb| |sb mb eb]; try reflexivity;
    try (destruct sa, sb; reflexivity); try (destruct sa; reflexivity);
    try (destruct sb; reflexivity).
  change (Pos.compare_cont Eq ma mb) with (Pos.compare ma mb).
  change (Pos.compare_cont Eq mb ma) with (Pos.compare mb ma).
  destruct sa, sb; try reflexivity;
    destruct (Z.compare_spec ea eb), (Z.compare_spec eb ea); try lia; try reflexivity;
    destruct (Pos.compare_spec ma mb), (Pos.compare_spec mb ma); try lia; reflexivity.
Qed.

(** X4: on Values that hold their payload inline (Boolean, Integer, Double,
    Element) [operator==] returns without touching the store, is symmetric,
    answers false whenever the tags differ, even for equal payloads such as
    [Value(true)] and [Value(Int64(1))], and answers true on a Value compared
    with itself unless the Value is a Double holding a NaN. *)
Theorem Value_eq_inline a b s :
  inline_payload a = true -> inline_payload b = true ->
  exists r,
    Value_eq a b s = Ok r s /\ Value_eq b a s = Ok r s /\
    (type a ≠ type b -> r = false) /\
    (a = b -> r = negb (match a with VDouble d => Dbl.is_nan d | _ => false end)).
Proof.
  intros Ha Hb.
  destruct a as [i|i|d|p|p|e], b as [j|j|d'|q|q|e']; try discriminate; cbn [Value_eq type];
    try (exists false; repeat split; try reflexivity; intros; congruence).
  - exists (i =? j). rewrite (Z.eqb_sym j i). repeat split; try congruence.
    intros [= ->]. apply Z.eqb_refl.
  - exists (i =? j). rewrite (Z.eqb_sym j i). repeat split; try congruence.
    intros [= ->]. apply Z.eqb_refl.
  - exists (Dbl.eqb d d'). unfold Dbl.eqb. rewrite (SFeqb_sym d' d).
    repeat split; try congruence.
    intros [= ->]. destruct (Dbl.is_nan d') eqn:Hn.
    + apply Dbl_is_nan_eq in Hn. subst d'. reflexivity.
    + apply Dbl_eqb_refl. assumption.
  - exists (e =? e')%N. rewrite (N.eqb_sym e' e). repeat split; try congruence.
    intros [= ->]. apply N.eqb_refl.
Qed.

(** [Value(true) == Value(Int64(1))] is false: both store the integer 1. *)
Lemma Value_eq_inline_witness :
  exists r, Value_eq (Value_bool true) (Value_Int64 1) empty_state = Ok r empty_state /\
            r = false.
Proof.
  destruct (Value_eq_inline (Value_bool true) (Value_Int64 1) empty_state eq_refl eq_refl)
    as (r & E & _ & Ht & _).
  exists r. split; [exact E|]. apply Ht. discriminate.
Defined.

(** ** The generic conversions *)

(** X5: an [int] converted to a handle with [convertToV8<int>] is a number
    recognised as a 32-bit integer, and the conversions back agree with it:
    [convertFromV8<Int32>] returns the integer, [convertFromV8<Number>] the
    integer as a double, [convertFromV8<bool>] whether it is non-zero, and
    a ScopedValue wrapping the handle converts to the Integer-tagged Value of
    that integer. *)
Theorem convertToV8_int_round_trip engine i :
  Int.in32 i ->
  v8.IsInt32 (convertToV8_int engine i) = true /\
  convertFromV8_Int32 engine (convertToV8_int engine i) = i /\
  convertFromV8_Number engine (convertToV8_int engine i) = Dbl.of_Z i /\
  convertFromV8_bool engine (convertToV8_int engine i) = negb (i =? 0) /\
  (forall s, builds (ScopedValue_Local (convertToV8_int engine i)) s (fun this s' =>
     toValue engine this s' = Ok (Value_Int32 i) s')).
Proof.
  intros Hi. destruct (of_Z_int32 i Hi) as [H32 Hto].
  destruct (of_Z_not_zero_nan i Hi) as [Hnan Hzero].
  unfold convertToV8_int, convertFromV8_Int32, convertFromV8_Number, convertFromV8_bool,
    v8.Integer_New, ToInt32, ToNumber, v8.IsInt32, v8.BooleanValue.
  rewrite Hnan, Hzero, orb_false_r.
  repeat (split; [assumption || reflexivity|]).
  intros s. apply builds_Local. intros this s' H.
  rewrite (toValue_handle _ _ _ _ H). cbn [v8.IsBoolean v8.IsInt32].
  rewrite H32. unfold ToInt32, ToNumber. rewrite Hto. reflexivity.
Qed.

(** [convertFromV8<Value::Int32>(engine, convertToV8<int>(engine, -7))] *)
Lemma convertToV8_int_round_trip_witness :
  convertFromV8_Int32 plain_engine (convertToV8_int plain_engine (-7)) = -7.
Proof.
  apply (convertToV8_int_round_trip plain_engine (-7)).
  unfold Int.in32, Int.min32, Int.max32. lia.
Defined.

(** X6: [convertFromV8<Element*>] returns a null pointer for a null or
    undefined handle and the pointer recorded in the internal field for an
    object with exactly one internal field, in both cases without calling
    the engine's error entry point and without changing the store.  On a
    handle that is null, undefined or an object, and with an engine that
    reports on its channel, the conversion returns, and an error is
    reported exactly when the handle is an object whose number of internal
    fields is not one.  On any other handle (a boolean, a number, a string)
    the call of [InternalFieldCount] through the unchecked cast is
    undefined behaviour. *)
Theorem convertFromV8_Element_accepts e h s :
  (v8.IsNullOrUndefined h = true -> convertFromV8_Element e h s = Ok nullptr s) /\
  (element_shaped h = true ->
     exists p, v8.GetInternalField0 h = Some p /\ convertFromV8_Element e h s = Ok p s) /\
  (reporting e -> v8.IsNullOrUndefined h = true \/ v8.IsObject h = true ->
     exists p s', convertFromV8_Element e h s = Ok p s' /\
       (reported s' = reported s <->
          v8.IsNullOrUndefined h = true \/ element_shaped h = true)) /\
  (v8.IsNullOrUndefined h = false -> v8.IsObject h = false ->
     convertFromV8_Element e h s = Fault).
Proof.
  assert (H1 : v8.IsNullOrUndefined h = true -> convertFromV8_Element e h s = Ok nullptr s).
  { intros Hn. unfold convertFromV8_Element. rewrite Hn. reflexivity. }
  assert (H2 : element_shaped h = true ->
     exists p, v8.GetInternalField0 h = Some p /\ convertFromV8_Element e h s = Ok p s).
  { intros He. destruct (element_shaped_marker _ He) as [Hc [p Hp]].
    exists p. split; [assumption|]. unfold convertFromV8_Element, Cast_InternalFieldCount.
    unfold element_shaped in He. destruct h; try discriminate.
    cbn [v8.IsNullOrUndefined v8.IsObject]. unfold bind at 1. unfold ret at 1.
    apply Z.eqb_eq in Hc. rewrite Hc, Hp. reflexivity. }
  split; [exact H1|]. split; [exact H2|]. split.
  - intros Hrep Hdom. destruct (v8.IsNullOrUndefined h) eqn:Hn.
    + exists nullptr, s. split; [auto|]. split; auto.
    + destruct Hdom as [Hdom|Ho]; [discriminate|].
      destruct (element_shaped h) eqn:He.
      * destruct (H2 eq_refl) as (p & _ & E). exists p, s. split; [exact E|]. split; auto.
      * assert (Hc : (v8.InternalFieldCount h =? 1) = false).
        { unfold element_shaped in He. rewrite Ho in He. exact He. }
        exists nullptr. eexists. split.
        { unfold convertFromV8_Element, Cast_InternalFieldCount. rewrite Hn, Ho.
          unfold bind at 1. unfold ret at 1. rewrite Hc. cbn [negb]. unfold bind.
          rewrite Hrep. reflexivity. }
        cbn [reported]. split.
        -- intros Heq. apply (f_equal length) in Heq.
           rewrite length_app in Heq. cbn in Heq. lia.
        -- intros [Hx|Hx]; discriminate.
  - intros Hn Ho. unfold convertFromV8_Element, Cast_InternalFieldCount.
    rewrite Hn, Ho. reflexivity.
Qed.

(** [convertFromV8<Element*>] of an object with one internal field. *)
Lemma convertFromV8_Element_accepts_witness :
  exists p,
    convertFromV8_Element plain_engine
      (v8.HObject {| v8.class := v8.PlainObject; v8.internal_fields := [5%N] |}) empty_state
    = Ok p empty_state /\ p = 5%N.
Proof.
  destruct (convertFromV8_Element_accepts plain_engine
              (v8.HObject {| v8.class := v8.PlainObject; v8.internal_fields := [5%N] |})
              empty_state) as (_ & H & _).
  destruct (H eq_refl) as (p & Hp & E). exists p. split; [exact E|].
  injection Hp as <-. reflexivity.
Defined.

(** X20: [ScopedValue::toObject] against [convertFromV8<Object>], which
    wraps the handle as it is.  On an object whose number of internal
    fields is not one the two give the same wrapper.  On an object with
    exactly one internal field [toObject] throws TypeMismatch, a check the
    generic conversion does not make: it returns a wrapper of the
    element's object.  On a handle that is neither an object nor a string
    (undefined, null, a boolean, a number) [toObject] calls
    [InternalFieldCount] through the unchecked cast, which is undefined
    behaviour. *)
Theorem toObject_against_convertFromV8 engine s this h :
  handle_of s this = Some h ->
  (v8.IsObject h = true -> v8.InternalFieldCount h ≠ 1 ->
     toObject engine this s = Ok (convertFromV8_Object engine h) s) /\
  (v8.IsObject h = true -> v8.InternalFieldCount h = 1 ->
     (exists e, toObject engine this s = Thrown e s /\ kind e = TypeMismatch) /\
     Object_data (convertFromV8_Object engine h) = h) /\
  (v8.IsObject h = false -> v8.IsString h = false -> toObject engine this s = Fault).
Proof.
  intros H. rewrite (toObject_handle _ _ _ _ H). unfold convertFromV8_Object.
  split; [|split].
  - intros Ho Hc. rewrite Ho, andb_false_r. cbn [negb].
    destruct (Z.eqb_spec (v8.InternalFieldCount h) 1); [contradiction|reflexivity].
  - intros Ho Hc. rewrite Ho, andb_false_r, Hc. cbn [negb Z.eqb Pos.eqb].
    split; [|reflexivity]. eexists. split; reflexivity.
  - intros Ho Hs. rewrite Ho, Hs. destruct h; try discriminate; reflexivity.
Qed.

(** [ScopedValue a(engine, Value::Int32(7)); a.toObject(engine)] *)
Lemma toObject_against_convertFromV8_witness :
  toObject plain_engine 3%positive (state_after (ScopedValue_Int32 plain_engine 7)) = Fault.
Proof.
  refine (proj2 (proj2 (toObject_against_convertFromV8 plain_engine
            (state_after (ScopedValue_Int32 plain_engine 7)) 3%positive
            (v8.HNumber (Dbl.of_Z 7)) _)) _ _).
  - vm_compute. reflexivity.
  - reflexivity.
  - reflexivity.
Defined.

(** ** ScopedValue: construction followed by destruction *)

Lemma Int_to32_add_l a b : Int.to32 (Int.to32 a + b) = Int.to32 (a + b).
Proof.
  unfold Int.to32, Int.wrap.
  replace ((a + 2 ^ (32 - 1)) mod 2 ^ 32 - 2 ^ (32 - 1) + b + 2 ^ (32 - 1))
    with ((a + 2 ^ (32 - 1)) mod 2 ^ 32 + b) by lia.
  rewrite Zplus_mod_idemp_l. do 2 f_equal. lia.
Qed.

(** X7: a ScopedValue built from a handle and then destroyed gives its
    handle record and its counter back exactly when the uninitialised
    counter cell read 0: then the store is as it was before the constructor
    and the counter and the record were each freed once; when the cell read
    any other value the destructor frees nothing, and the record and the
    counter stay allocated with no instance left that refers to them. *)
Theorem construct_then_destroy h s g :
  (forall l, garbage s l = g) -> Int.in32 g ->
  exists this d r s1 s2,
    ScopedValue_Local h s = Ok this s1 /\
    ScopedValue_dtor this s1 = Ok tt s2 /\
    heap s !! d = None /\ heap s !! r = None /\
    heap s1 !! this = Some (ScopedValueCell d r) /\
    heap s2 !! this = None /\
    (g = 0 -> heap s2 = heap s /\ freed s2 = freed s ++ [r; d]) /\
    (g ≠ 0 -> freed s2 = freed s /\
              heap s2 !! d = Some (LocalValuePrivate h) /\
              heap s2 !! r = Some (IntCell g)).
Proof.
  intros Hg Hin.
  destruct (ScopedValue_Local_spec h s)
    as (this & d & r & E & Hd & Hr & Ht & Hdr & Hdt & Hrt).
  rewrite Hg in E. set (s1 := set_heap _ s) in E.
  assert (Hthis : heap s1 !! this = Some (ScopedValueCell d r)) by apply lookup_insert_eq.
  assert (Hr1 : heap s1 !! r = Some (IntCell (Int.to32 (g + 1)))).
  { unfold s1. cbn. rewrite lookup_insert_ne by congruence. apply lookup_insert_eq. }
  assert (Hback : Int.to32 (Int.to32 (g + 1) - 1) = g).
  { replace (Int.to32 (g + 1) - 1) with (Int.to32 (g + 1) + -1) by lia.
    rewrite Int_to32_add_l. replace (g + 1 + -1) with g by lia.
    apply Int_to32_id. assumption. }
  exists this, d, r, s1.
  unfold ScopedValue_dtor.
  rewrite (bind_Ok _ _ _ _ _ (load_ScopedValue_Some _ _ _ _ Hthis)). cbn [fst snd].
  rewrite (bind_Ok _ _ _ _ _ (pre_decr_Some _ _ _ Hr1)). rewrite Hback.
  set (s2 := set_heap _ s1).
  assert (Hr2 : heap s2 !! r = Some (IntCell g)) by apply lookup_insert_eq.
  rewrite (bind_Ok _ _ _ _ _ (load_int_Some _ _ _ Hr2)).
  destruct (Z.eqb_spec g 0) as [Hz|Hnz].
  - rewrite (bind_Ok _ _ _ tt
      {| heap := base.delete d (base.delete r (heap s2)); garbage := garbage s;
         freed := freed s ++ [r; d]; reported := reported s |}).
    2:{ rewrite (bind_Ok _ _ _ _ _ (delete_Some _ _ _ Hr2)).
        erewrite delete_Some.
        - cbn. rewrite <- app_assoc. reflexivity.
        - cbn. rewrite lookup_delete_ne, !lookup_insert_ne by congruence.
          apply lookup_insert_eq. }
    erewrite release_Some.
    2:{ cbn. rewrite !lookup_delete_ne, lookup_insert_ne by congruence.
        apply lookup_insert_eq. }
    eexists. split; [exact E|]. split; [reflexivity|].
    split; [exact Hd|]. split; [exact Hr|]. split; [exact Hthis|].
    split; [apply lookup_delete_eq|]. split; [|intros Hne; contradiction].
    intros _. split; [|reflexivity]. cbn. apply map_eq. intros k.
    rewrite !lookup_delete, !lookup_insert.
    repeat case_decide; subst; congruence.
  - rewrite (bind_Ok _ _ s2 tt s2) by reflexivity.
    erewrite release_Some.
    2:{ cbn. rewrite lookup_insert_ne by congruence. apply lookup_insert_eq. }
    eexists. split; [exact E|]. split; [reflexivity|].
    split; [exact Hd|]. split; [exact Hr|]. split; [exact Hthis|].
    split; [apply lookup_delete_eq|]. split; [intros Hz; contradiction|].
    intros _. cbn. split; [reflexivity|]. split.
    + rewrite lookup_delete_ne, !lookup_insert_ne by congruence. apply lookup_insert_eq.
    + rewrite lookup_delete_ne by congruence. apply lookup_insert_eq.
Qed.

(** [ScopedValue a(engine);] going out of scope, on zeroed memory. *)
Lemma construct_then_destroy_witness :
  exists this s1 s2,
    ScopedValue_Local v8.HUndefined empty_state = Ok this s1 /\
    ScopedValue_dtor this s1 = Ok tt s2 /\ heap s2 = heap empty_state.
Proof.
  destruct (construct_then_destroy v8.HUndefined empty_state 0)
    as (this & d & r & s1 & s2 & E & Ed & _ & _ & _ & _ & Hz & _).
  - reflexivity.
  - unfold Int.in32, Int.min32, Int.max32. lia.
  - exists this, s1, s2. split; [exact E|]. split; [exact Ed|]. apply Hz. reflexivity.
Defined.

(** ** ScopedValue: equality and assignment between families *)

Ltac lookup_cell :=
  cbn [heap set_heap garbage freed reported];
  repeat first [ rewrite lookup_insert_eq
               | rewrite lookup_delete_eq
               | rewrite lookup_insert_ne by congruence
               | rewrite lookup_delete_ne by congruence ];
  try (assumption || reflexivity).

Lemma ScopedValue_eq_cells s a b d1 r1 d2 r2 :
  heap s !! a = Some (ScopedValueCell d1 r1) ->
  heap s !! b = Some (ScopedValueCell d2 r2) ->
  ScopedValue_eq a b s = Ok ((d1 =? d2)%positive && (r1 =? r2)%positive) s.
Proof.
  intros Ha Hb. unfold ScopedValue_eq.
  rewrite (bind_Ok _ _ _ _ _ (load_ScopedValue_Some _ _ _ _ Ha)).
  rewrite (bind_Ok _ _ _ _ _ (load_ScopedValue_Some _ _ _ _ Hb)).
  reflexivity.
Qed.

(** X8: [ScopedValue::operator==] compares the identity of the shared pair,
    not the wrapped value: two instances constructed one after the other
    from the same handle both wrap that handle and are not equal, while an
    instance is equal to itself and to its copy (either way round), and the
    copy is not equal to the other construction. *)
Theorem ScopedValue_eq_is_identity h s :
  exists a s1 b s2 c s3,
    ScopedValue_Local h s = Ok a s1 /\
    ScopedValue_Local h s1 = Ok b s2 /\
    handle_of s2 a = Some h /\ handle_of s2 b = Some h /\
    ScopedValue_eq a b s2 = Ok false s2 /\
    ScopedValue_eq a a s2 = Ok true s2 /\
    ScopedValue_copy a s2 = Ok c s3 /\
    handle_of s3 c = Some h /\
    ScopedValue_eq a c s3 = Ok true s3 /\
    ScopedValue_eq c a s3 = Ok true s3 /\
    ScopedValue_eq b c s3 = Ok false s3.
Proof.
  destruct (ScopedValue_Local_spec h s)
    as (a & d1 & r1 & E1 & Hd1 & Hr1 & Ha & Hdr1 & Hda1 & Hra1).
  set (s1 := set_heap _ s) in E1.
  assert (Ha1 : heap s1 !! a = Some (ScopedValueCell d1 r1)) by (unfold s1; lookup_cell).
  assert (Hd11 : heap s1 !! d1 = Some (LocalValuePrivate h)) by (unfold s1; lookup_cell).
  assert (Hr11 : exists n, heap s1 !! r1 = Some (IntCell n))
    by (eexists; unfold s1; lookup_cell).
  destruct Hr11 as (n1 & Hr11).
  destruct (ScopedValue_Local_spec h s1)
    as (b & d2 & r2 & E2 & Hd2 & Hr2 & Hb & Hdr2 & Hdb2 & Hrb2).
  set (s2 := set_heap _ s1) in E2.
  assert (Ha2 : heap s2 !! a = Some (ScopedValueCell d1 r1)) by (unfold s2; lookup_cell).
  assert (Hb2 : heap s2 !! b = Some (ScopedValueCell d2 r2)) by (unfold s2; lookup_cell).
  assert (Hd12 : heap s2 !! d1 = Some (LocalValuePrivate h)) by (unfold s2; lookup_cell).
  assert (Hd22 : heap s2 !! d2 = Some (LocalValuePrivate h)) by (unfold s2; lookup_cell).
  assert (Hr12 : heap s2 !! r1 = Some (IntCell n1)) by (unfold s2; lookup_cell).
  assert (Hne : d1 ≠ d2) by congruence.
  exists a, s1, b, s2.
  assert (Ec : exists c, ScopedValue_copy a s2 =
                 Ok c (set_heap (<[c := ScopedValueCell d1 r1]>
                         (<[r1 := IntCell (Int.to32 (n1 + 1))]> (heap s2))) s2)
               /\ heap s2 !! c = None).
  { unfold ScopedValue_copy, emplace.
    rewrite (bind_Ok _ _ _ _ _ (load_ScopedValue_Some _ _ _ _ Ha2)). cbn [fst snd].
    rewrite (bind_Ok _ _ _ _ _ (pre_incr_Some _ _ _ Hr12)).
    destruct (alloc_spec (ScopedValueCell d1 r1)
                (set_heap (<[r1 := IntCell (Int.to32 (n1 + 1))]> (heap s2)) s2))
      as (c & Ec & Hc).
    exists c. split; [exact Ec|].
    cbn [heap set_heap] in Hc. apply lookup_insert_None in Hc. apply Hc. }
  destruct Ec as (c & Ec & Hc). set (s3 := set_heap _ s2) in Ec.
  assert (Ha3 : heap s3 !! a = Some (ScopedValueCell d1 r1)) by (unfold s3; lookup_cell).
  assert (Hb3 : heap s3 !! b = Some (ScopedValueCell d2 r2)) by (unfold s3; lookup_cell).
  assert (Hc3 : heap s3 !! c = Some (ScopedValueCell d1 r1)) by (unfold s3; lookup_cell).
  assert (Hd13 : heap s3 !! d1 = Some (LocalValuePrivate h)) by (unfold s3; lookup_cell).
  exists c, s3.
  split; [exact E1|]. split; [exact E2|].
  split; [exact (handle_of_intro _ _ _ _ _ Ha2 Hd12)|].
  split; [exact (handle_of_intro _ _ _ _ _ Hb2 Hd22)|].
  split. { rewrite (ScopedValue_eq_cells _ _ _ _ _ _ _ Ha2 Hb2).
           destruct (Pos.eqb_spec d1 d2); [contradiction|reflexivity]. }
  split. { rewrite (ScopedValue_eq_cells _ _ _ _ _ _ _ Ha2 Ha2).
           rewrite !Pos.eqb_refl. reflexivity. }
  split; [exact Ec|].
  split; [exact (handle_of_intro _ _ _ _ _ Hc3 Hd13)|].
  split. { rewrite (ScopedValue_eq_cells _ _ _ _ _ _ _ Ha3 Hc3).
           rewrite !Pos.eqb_refl. reflexivity. }
  split. { rewrite (ScopedValue_eq_cells _ _ _ _ _ _ _ Hc3 Ha3).
           rewrite !Pos.eqb_refl. reflexivity. }
  rewrite (ScopedValue_eq_cells _ _ _ _ _ _ _ Hb3 Hc3).
  destruct (Pos.eqb_spec d2 d1); [congruence|reflexivity].
Qed.

(** X9: [ScopedValue::operator=] between two instances of different
    families (no overflow of either counter): the target gives up its share
    of the old pair, whose record and counter are freed, in this order,
    exactly when the target was the last instance (counter 1) and otherwise
    stay live with the counter one lower; the target then wraps the source's
    record, the source's counter goes up by one, and the two instances are
    equal. *)
Theorem assign_moves_share s a b d1 r1 d2 r2 n1 n2 h1 h2 :
  heap s !! a = Some (ScopedValueCell d1 r1) ->
  heap s !! b = Some (ScopedValueCell d2 r2) ->
  heap s !! d1 = Some (LocalValuePrivate h1) ->
  heap s !! d2 = Some (LocalValuePrivate h2) ->
  heap s !! r1 = Some (IntCell n1) ->
  heap s !! r2 = Some (IntCell n2) ->
  d1 ≠ d2 -> r1 ≠ r2 -> Int.in32 (n1 - 1) -> Int.in32 (n2 + 1) ->
  exists s',
    ScopedValue_assign a b s = Ok tt s' /\
    heap s' !! a = Some (ScopedValueCell d2 r2) /\
    heap s' !! b = Some (ScopedValueCell d2 r2) /\
    handle_of s' a = Some h2 /\
    heap s' !! r2 = Some (IntCell (n2 + 1)) /\
    ScopedValue_eq a b s' = Ok true s' /\
    (n1 = 1 -> freed s' = freed s ++ [d1; r1] /\
               heap s' !! d1 = None /\ heap s' !! r1 = None) /\
    (n1 ≠ 1 -> freed s' = freed s /\
               heap s' !! d1 = Some (LocalValuePrivate h1) /\
               heap s' !! r1 = Some (IntCell (n1 - 1))).
Proof.
  intros Ha Hb Hd1 Hd2 Hr1 Hr2 Hd Hr Hn1 Hn2.
  assert (Hab : a ≠ b) by congruence.
  unfold ScopedValue_assign.
  destruct (Pos.eqb_spec a b) as [|_]; [contradiction|]. cbn [negb].
  rewrite (bind_Ok _ _ _ _ _ (load_ScopedValue_Some _ _ _ _ Ha)). cbn [fst snd].
  rewrite (bind_Ok _ _ _ _ _ (pre_decr_Some _ _ _ Hr1)).
  rewrite (Int_to32_id _ Hn1).
  set (s1 := set_heap _ s).
  assert (Hr11 : heap s1 !! r1 = Some (IntCell (n1 - 1))) by (unfold s1; lookup_cell).
  rewrite (bind_Ok _ _ _ _ _ (load_int_Some _ _ _ Hr11)).
  destruct (Z.eqb_spec (n1 - 1) 0) as [Hz|Hnz].
  - assert (Hd11 : heap s1 !! d1 = Some (LocalValuePrivate h1)) by (unfold s1; lookup_cell).
    rewrite (bind_Ok _ _ _ tt
      {| heap := base.delete r1 (base.delete d1 (heap s1)); garbage := garbage s;
         freed := freed s ++ [d1; r1]; reported := reported s |}).
    2:{ rewrite (bind_Ok _ _ _ _ _ (delete_Some _ _ _ Hd11)).
        assert (Hr1' : heap {| heap := base.delete d1 (heap s1); garbage := garbage s1;
                                freed := freed s1 ++ [d1]; reported := reported s1 |} !! r1
                       = Some (IntCell (n1 - 1))) by lookup_cell.
        rewrite (delete_Some _ _ _ Hr1').
        cbn. rewrite <- app_assoc. reflexivity. }
    set (s2 := mkState _ _ _ _).
    assert (Hb2 : heap s2 !! b = Some (ScopedValueCell d2 r2)) by (unfold s2, s1; lookup_cell).
    assert (Ha2 : heap s2 !! a = Some (ScopedValueCell d1 r1)) by (unfold s2, s1; lookup_cell).
    rewrite (bind_Ok _ _ _ _ _ (load_ScopedValue_Some _ _ _ _ Hb2)). cbn [fst snd].
    rewrite (bind_Ok _ _ _ _ _ (store_Some _ _ _ (ScopedValueCell d2 r2) Ha2)).
    set (s3 := set_heap _ s2).
    assert (Hr23 : heap s3 !! r2 = Some (IntCell n2)) by (unfold s3, s2, s1; lookup_cell).
    rewrite (pre_incr_Some _ _ _ Hr23). rewrite (Int_to32_id _ Hn2).
    set (s4 := set_heap _ s3).
    assert (Ha4 : heap s4 !! a = Some (ScopedValueCell d2 r2))
      by (unfold s4, s3, s2, s1; lookup_cell).
    assert (Hb4 : heap s4 !! b = Some (ScopedValueCell d2 r2))
      by (unfold s4, s3, s2, s1; lookup_cell).
    assert (Hd4 : heap s4 !! d2 = Some (LocalValuePrivate h2))
      by (unfold s4, s3, s2, s1; lookup_cell).
    exists s4. split; [reflexivity|]. split; [exact Ha4|]. split; [exact Hb4|].
    split; [exact (handle_of_intro _ _ _ _ _ Ha4 Hd4)|].
    split; [unfold s4; lookup_cell|].
    split. { rewrite (ScopedValue_eq_cells _ _ _ _ _ _ _ Ha4 Hb4).
             rewrite !Pos.eqb_refl. reflexivity. }
    split; [|intros Hne; lia].
    intros _. split; [reflexivity|].
    split; unfold s4, s3, s2, s1; lookup_cell.
  - rewrite (bind_Ok _ _ s1 tt s1) by reflexivity.
    assert (Hb1 : heap s1 !! b = Some (ScopedValueCell d2 r2)) by (unfold s1; lookup_cell).
    assert (Ha1 : heap s1 !! a = Some (ScopedValueCell d1 r1)) by (unfold s1; lookup_cell).
    rewrite (bind_Ok _ _ _ _ _ (load_ScopedValue_Some _ _ _ _ Hb1)). cbn [fst snd].
    rewrite (bind_Ok _ _ _ _ _ (store_Some _ _ _ (ScopedValueCell d2 r2) Ha1)).
    set (s3 := set_heap _ s1).
    assert (Hr23 : heap s3 !! r2 = Some (IntCell n2)) by (unfold s3, s1; lookup_cell).
    rewrite (pre_incr_Some _ _ _ Hr23). rewrite (Int_to32_id _ Hn2).
    set (s4 := set_heap _ s3).
    assert (Ha4 : heap s4 !! a = Some (ScopedValueCell d2 r2))
      by (unfold s4, s3, s1; lookup_cell).
    assert (Hb4 : heap s4 !! b = Some (ScopedValueCell d2 r2))
      by (unfold s4, s3, s1; lookup_cell).
    assert (Hd4 : heap s4 !! d2 = Some (LocalValuePrivate h2))
      by (unfold s4, s3, s1; lookup_cell).
    exists s4. split; [reflexivity|]. split; [exact Ha4|]. split; [exact Hb4|].
    split; [exact (handle_of_intro _ _ _ _ _ Ha4 Hd4)|].
    split; [unfold s4; lookup_cell|].
    split. { rewrite (ScopedValue_eq_cells _ _ _ _ _ _ _ Ha4 Hb4).
             rewrite !Pos.eqb_refl. reflexivity. }
    split; [intros H1; lia|].
    intros _. split; [reflexivity|].
    split; unfold s4, s3, s1; lookup_cell.
Qed.

(** [ScopedValue a(engine, true); ScopedValue b(engine, false); a = b;] *)
Lemma assign_moves_share_witness :
  exists s',
    ScopedValue_assign 3%positive 6%positive two_families_state = Ok tt s' /\
    handle_of s' 3%positive = Some (v8.HBoolean false) /\
    freed s' = [1%positive; 2%positive].
Proof.
  destruct (assign_moves_share two_families_state 3%positive 6%positive
              1%positive 2%positive 4%positive 5%positive 1 1
              (v8.HBoolean true) (v8.HBoolean false))
    as (s' & E & _ & _ & Hh & _ & _ & Hlast & _);
    try (vm_compute; reflexivity); try discriminate;
    try (unfold Int.in32, Int.min32, Int.max32; lia).
  exists s'. split; [exact E|]. split; [exact Hh|].
  destruct (Hlast eq_refl) as (Hf & _). exact Hf.
Defined.

(** ** Value: what assignment does to the payload the target held *)

(** X10: [Value::operator=] overwrites the members of the target without
    looking at them: when the target owns an Object or Callable payload,
    the assignment frees nothing, the new value does not own the old
    payload, and the old payload is still allocated after the assignment
    and after the target's destructor, which frees the new payload only.
    The wrapper the target held before is never freed. *)
Theorem Value_assign_keeps_old_payload s this other p :
  owned this = [p] -> live s this -> live s other ->
  exists w s1 s2,
    Value_assign this other s = Ok w s1 /\ type w = type other /\
    freed s1 = freed s /\ (p ∉ owned w) /\
    is_Some (heap s !! p) /\ heap s1 !! p = heap s !! p /\
    Value_dtor w s1 = Ok tt s2 /\
    freed s2 = freed s ++ owned w /\ heap s2 !! p = heap s !! p.
Proof.
  intros Ho Hthis Hother.
  assert (Hp : is_Some (heap s !! p)).
  { destruct this; try discriminate; injection Ho as <-;
      destruct Hthis as (x & ->); eexists; reflexivity. }
  destruct other as [i|i|d|q|q|e].
  1-3, 6: (eexists; exists s, s; cbn;
           repeat split; try reflexivity; try assumption; try apply not_elem_of_nil;
           symmetry; apply app_nil_r).
  - destruct Hother as (o & Hq). cbn [Value_assign].
    rewrite (bind_Ok _ _ _ _ _ (load_Object_Some _ _ _ Hq)).
    unfold Data_Object.
    destruct (alloc_spec (ObjectCell o) s) as (l & E & Hl).
    rewrite (bind_Ok _ _ _ _ _ E). cbn [ret].
    assert (Hne : l ≠ p) by (intros ->; rewrite Hl in Hp; destruct Hp; discriminate).
    eexists. eexists. eexists. split; [reflexivity|]. split; [reflexivity|].
    split; [reflexivity|].
    split; [cbn; rewrite list_elem_of_singleton; congruence|].
    split; [assumption|]. split; [lookup_cell|].
    split; [cbn [Value_dtor]; apply (delete_Some _ _ (ObjectCell o)); lookup_cell|].
    split; [reflexivity|]. lookup_cell.
  - destruct Hother as (c & Hq). cbn [Value_assign].
    rewrite (bind_Ok _ _ _ _ _ (load_Callable_Some _ _ _ Hq)).
    unfold Data_Callable.
    destruct (alloc_spec (CallableCell c) s) as (l & E & Hl).
    rewrite (bind_Ok _ _ _ _ _ E). cbn [ret].
    assert (Hne : l ≠ p) by (intros ->; rewrite Hl in Hp; destruct Hp; discriminate).
    eexists. eexists. eexists. split; [reflexivity|]. split; [reflexivity|].
    split; [reflexivity|].
    split; [cbn; rewrite list_elem_of_singleton; congruence|].
    split; [assumption|]. split; [lookup_cell|].
    split; [cbn [Value_dtor]; apply (delete_Some _ _ (CallableCell c)); lookup_cell|].
    split; [reflexivity|]. lookup_cell.
Qed.

(** [Value v(obj); v = v; v.~Value()]: the first copy of [obj] stays. *)
Lemma Value_assign_keeps_old_payload_witness :
  exists w s1 s2,
    Value_assign (VObject 1%positive) (VObject 1%positive) object_state = Ok w s1 /\
    Value_dtor w s1 = Ok tt s2 /\
    heap s2 !! 1%positive = Some (ObjectCell (mkObject plain_object)) /\
    freed s2 = owned w /\ 1%positive ∉ owned w.
Proof.
  destruct (Value_assign_keeps_old_payload object_state (VObject 1%positive)
              (VObject 1%positive) 1%positive)
    as (w & s1 & s2 & E & _ & _ & Hn & _ & _ & Ed & Hf & Hh).
  - reflexivity.
  - eexists. vm_compute. reflexivity.
  - eexists. vm_compute. reflexivity.
  - exists w, s1, s2. split; [exact E|]. split; [exact Ed|].
    split; [etransitivity; [exact Hh|vm_compute; reflexivity]|].
    split; [exact Hf|exact Hn].
Defined.

(** ** The round trip of an Object or Callable Value *)

(** The constructor from an Object or Callable [Value] wraps the handle of
    the wrapper the Value owns; the store only grows. *)
Lemma ScopedValue_Value_wrapper engine v s h :
  wrapper_handle s v = Some h ->
  exists this s', ScopedValue_Value engine v s = Ok this s' /\ handle_of s' this = Some h
    /\ freed s' = freed s /\ reported s' = reported s
    /\ (forall l c, heap s !! l = Some c -> heap s' !! l = Some c).
Proof.
  intros Hw. unfold ScopedValue_Value, emplace.
  destruct (new_int_spec s) as (r & Er & Hr).
  rewrite (bind_Ok _ _ _ _ _ Er).
  set (s1 := set_heap _ s).
  assert (H1 : heap s1 !! r = Some (IntCell (garbage s r))) by apply lookup_insert_eq.
  rewrite (bind_Ok _ _ _ _ _ (pre_incr_Some _ _ _ H1)).
  set (s2 := set_heap _ s1).
  assert (Hmono : forall l c, heap s !! l = Some c -> heap s2 !! l = Some c).
  { intros l c Hl. unfold s2, s1. cbn [heap set_heap].
    rewrite !lookup_insert_ne by congruence. exact Hl. }
  assert (Hdata : forall k : v8.Local -> M loc,
    bind (match type v with
          | Stored.Boolean => bind (asBool v) (fun b => ret (v8.Boolean_New b))
          | Stored.Integer => bind (asInt64 v) (fun i => ret (v8.Integer_New (Int.to32 i)))
          | Stored.Double => bind (asNumber v) (fun d => ret (v8.Number_New d))
          | Stored.Object => bind (asObject v) (fun o => ret (Object_data o))
          | Stored.Callable => bind (asCallable v) (fun c => ret (Callable_data c))
          | Stored.Element =>
              if Value_isNull v then ret v8.HUndefined
              else bind (asElement v) (fun e => ret (localObject engine e))
          end) k s2 = k h s2).
  { intros k. destruct v as [i|i|d|p|p|p]; cbn in Hw; try discriminate.
    - destruct (heap s !! p) as [[| | |o|]|] eqn:Hp; try discriminate.
      injection Hw as <-. cbn [type asObject].
      unfold load_Object, load, bind, ret. rewrite (Hmono _ _ Hp). reflexivity.
    - destruct (heap s !! p) as [[| | | |c]|] eqn:Hp; try discriminate.
      injection Hw as <-. cbn [type asCallable].
      unfold load_Callable, load, bind, ret. rewrite (Hmono _ _ Hp). reflexivity. }
  rewrite Hdata.
  destruct (alloc_spec (LocalValuePrivate h) s2) as (d & Ed & Hd).
  rewrite (bind_Ok _ _ _ _ _ Ed).
  set (s3 := set_heap _ s2).
  destruct (alloc_spec (ScopedValueCell d r) s3) as (this & Et & Ht).
  rewrite Et. eexists _, _. split; [reflexivity|].
  assert (d ≠ this).
  { intros ->. unfold s3 in Ht. cbn in Ht. rewrite lookup_insert_eq in Ht. discriminate. }
  split; [|split; [reflexivity|split; [reflexivity|]]].
  - apply handle_of_intro with d r; cbn.
    + apply lookup_insert_eq.
    + rewrite lookup_insert_ne by congruence. apply lookup_insert_eq.
  - intros l c Hl. apply Hmono in Hl. cbn [heap set_heap].
    unfold s3 in Ht. cbn [heap set_heap] in Ht. apply lookup_insert_None in Ht.
    destruct Ht as [Ht _].
    rewrite lookup_insert_ne by congruence. unfold s3. cbn [heap set_heap].
    rewrite lookup_insert_ne by congruence. exact Hl.
Qed.

Lemma wrapper_handle_mono s s' v h :
  (forall l c, heap s !! l = Some c -> heap s' !! l = Some c) ->
  wrapper_handle s v = Some h -> wrapper_handle s' v = Some h.
Proof.
  intros Hmono. destruct v as [i|i|d|p|p|e]; cbn; try discriminate;
    destruct (heap s !! p) as [c|] eqn:Hp; try discriminate;
    rewrite (Hmono _ _ Hp); auto.
Qed.

Lemma asObject_wrapper s v o : asObject v s = Ok o s -> wrapper_handle s v = Some (Object_data o).
Proof.
  destruct v as [i|i|d|p|p|e]; cbn; try discriminate.
  unfold load_Object, load, bind, ret, fault.
  destruct (heap s !! p) as [[| | |o'|]|]; try discriminate. intros [= ->]. reflexivity.
Qed.

Lemma asCallable_wrapper s v c :
  asCallable v s = Ok c s -> wrapper_handle s v = Some (Callable_data c).
Proof.
  destruct v as [i|i|d|p|p|e]; cbn; try discriminate.
  unfold load_Callable, load, bind, ret, fault.
  destruct (heap s !! p) as [[| | | |c']|]; try discriminate. intros [= ->]. reflexivity.
Qed.

(** X11: for the tags Object and Callable, which the round trip of the
    Boolean, Integer, Double and Element tags leaves out: a ScopedValue
    constructed from a Value that owns a wrapper of an object handle (not
    element-shaped) wraps that handle, and [toValue] on it returns a Value
    that owns a new wrapper of the same handle, the original keeping its
    own.  The tag that comes back follows the handle, not the original tag:
    Callable when the handle is a function, Object otherwise; so an
    Object-tagged Value holding a function comes back Callable-tagged. *)
Theorem wrapper_round_trip engine v s h :
  wrapper_handle s v = Some h ->
  v8.IsObject h = true -> element_shaped h = false ->
  exists this s1,
    ScopedValue_Value engine v s = Ok this s1 /\
    handle_of s1 this = Some h /\ freed s1 = freed s /\
    yields engine this s1 (if v8.IsFunction h then Stored.Callable else Stored.Object)
      (fun w s2 =>
         wrapper_handle s2 w = Some h /\ wrapper_handle s2 v = Some h /\
         owned w ≠ owned v).
Proof.
  intros Hw Hobj Hne.
  destruct (ScopedValue_Value_wrapper engine v s h Hw)
    as (this & s1 & E & Hh & Hf & _ & Hmono).
  exists this, s1. split; [exact E|]. split; [exact Hh|]. split; [exact Hf|].
  destruct h as [| | | | |obj]; try discriminate.
  destruct (toValue_object_handle engine s1 this obj Hh Hne)
    as (w & s2 & Ew & Ht & Hl & Hfr & Hrep & Hown & Hm2 & Hnew & HP).
  assert (Hs1 : wrapper_handle s1 v = Some (v8.HObject obj))
    by (apply (wrapper_handle_mono s); assumption).
  assert (Hv2 : wrapper_handle s2 v = Some (v8.HObject obj))
    by (apply (wrapper_handle_mono s1); assumption).
  assert (Hw2 : wrapper_handle s2 w = Some (v8.HObject obj)).
  { destruct (v8.IsFunction (v8.HObject obj)).
    - apply asCallable_wrapper in HP. exact HP.
    - apply asObject_wrapper in HP. exact HP. }
  exists w, s2. split; [exact Ew|].
  split. { rewrite Ht. destruct obj as [[] fields]; reflexivity. }
  split; [exact Hl|]. split; [exact Hfr|]. split; [exact Hrep|].
  split; [exact Hown|]. split; [exact Hm2|]. split; [exact Hnew|].
  split; [exact Hw2|]. split; [exact Hv2|].
  intros Heq.
  destruct v as [i|i|d|p|p|e]; try discriminate;
    cbn [owned] in Heq; cbn [wrapper_handle] in Hs1;
    (assert (Hp : heap s1 !! p = None)
       by (apply Hnew; rewrite Heq; apply list_elem_of_singleton; reflexivity));
    rewrite Hp in Hs1; discriminate.
Qed.

(** [Value v(Object(engine, function)); ScopedValue sv(engine, v);
    sv.toValue(engine)] is Callable-tagged. *)
Lemma wrapper_round_trip_witness :
  exists this s1,
    ScopedValue_Value plain_engine (VObject 1%positive) function_state = Ok this s1 /\
    yields plain_engine this s1 Stored.Callable (fun w s2 =>
      wrapper_handle s2 w = Some function_handle /\
      wrapper_handle s2 (VObject 1%positive) = Some function_handle /\
      owned w ≠ owned (VObject 1%positive)).
Proof.
  destruct (wrapper_round_trip plain_engine (VObject 1%positive) function_state
              function_handle eq_refl eq_refl eq_refl)
    as (this & s1 & E & _ & _ & Hy).
  exists this, s1. split; [exact E|exact Hy].
Defined.

(** ** ScopedValue over a wrapper *)

(** X12: a ScopedValue constructed from an Object or a Callable wraps the
    wrapper's own handle, with nothing freed or reported.  [toObject] gives
    the Object back, unless its handle has exactly one internal field, in
    which case [isElement] is true and [toObject] throws TypeMismatch;
    [toCallable] gives the Callable back whatever its handle is, and
    [isCallable] tells whether the handle is a function. *)
Theorem wrappers_read_back engine s :
  (forall o, v8.IsObject (Object_data o) = true ->
     builds (ScopedValue_Object engine o) s (fun this s' =>
       handle_of s' this = Some (Object_data o) /\
       isObject this s' = Ok true s' /\
       isElement this s' = Ok (element_shaped (Object_data o)) s' /\
       (element_shaped (Object_data o) = false -> toObject engine this s' = Ok o s') /\
       (element_shaped (Object_data o) = true ->
          exists e, toObject engine this s' = Thrown e s' /\ kind e = TypeMismatch))) /\
  (forall c,
     builds (ScopedValue_Callable engine c) s (fun this s' =>
       handle_of s' this = Some (Callable_data c) /\
       toCallable engine this s' = Ok c s' /\
       isCallable this s' = Ok (v8.IsFunction (Callable_data c)) s')).
Proof.
  split.
  - intros [h] Hobj. cbn [Object_data] in *. unfold ScopedValue_Object. cbn [Object_data].
    apply builds_Local. intros this s' H.
    split; [exact H|].
    split; [unfold isObject; rewrite (data_ret _ _ _ _ H), Hobj; reflexivity|].
    split; [apply isElement_handle; exact H|].
    rewrite (toObject_handle _ _ _ _ H). unfold element_shaped.
    rewrite Hobj, andb_false_r. cbn [andb].
    split; intros ->; [reflexivity|]. eexists. split; reflexivity.
  - intros [h]. unfold ScopedValue_Callable. cbn [Callable_data].
    apply builds_Local. intros this s' H.
    split; [exact H|].
    split; [unfold toCallable; apply (data_ret mkCallable _ _ _ H)|].
    unfold isCallable. apply (data_ret _ _ _ _ H).
Qed.

(** [ScopedValue a(engine, Object(engine, function)); a.toObject(engine)] *)
Lemma wrappers_read_back_witness :
  builds (ScopedValue_Object plain_engine (mkObject function_handle)) empty_state
    (fun this s' => toObject plain_engine this s' = Ok (mkObject function_handle) s').
Proof.
  destruct (wrappers_read_back plain_engine empty_state) as [H _].
  destruct (H (mkObject function_handle) eq_refl) as (this & s' & E & Hf & Hr & _ & _ & _ & Ho & _).
  exists this, s'. split; [exact E|]. split; [exact Hf|]. split; [exact Hr|].
  apply Ho. reflexivity.
Defined.

(** * The timeline: the cursor of a track *)

Lemma to64_succ_ne p : Int.in64 p -> to64 (p + 1) ≠ p.
Proof.
  unfold Int.in64, Int.min64, Int.max64, to64, Int.wrap. intros Hp Heq.
  assert (H : (p + 1 + 2 ^ (64 - 1)) mod 2 ^ 64 = p + 2 ^ (64 - 1)) by lia.
  pose proof (Z.div_mod (p + 1 + 2 ^ (64 - 1)) (2 ^ 64) ltac:(lia)) as Hd.
  rewrite H in Hd.
  assert (Hq : 2 ^ 64 * ((p + 1 + 2 ^ (64 - 1)) / 2 ^ 64) = 1) by lia.
  lia.
Qed.

(** X13: after [Track::updateCursorPosition(p)] the cursor is at [p] and the
    result is Ready.  The active segment is kept whenever it contains [p],
    even when [segmentThatWraps(p)] would answer another segment; otherwise
    it becomes [segmentThatWraps(p)], so that no segment is active exactly
    when none wraps [p] and the former one, if any, does not contain [p].
    When [segmentThatWraps] only answers segments that contain the position,
    the active segment contains the cursor after every call, whatever the
    track held before, and a second call at the same position leaves the
    track as it is and makes a single call, [cursorMove] on the active
    segment (no call when none is active). *)
Theorem updateCursorPosition_active_segment w p this :
  wraps_soundly w -> Int.in64 p ->
  exists this' calls,
    updateCursorPosition w p this = (Ready, this', calls) /\
    m_cursorPosition this' = p /\
    (m_activeSegment this ≠ nullptr ->
     Segment_contains w (m_activeSegment this) p = true ->
     m_activeSegment this' = m_activeSegment this) /\
    (m_activeSegment this = nullptr \/
     Segment_contains w (m_activeSegment this) p = false ->
     m_activeSegment this' = segmentThatWraps w p) /\
    (m_activeSegment this' ≠ nullptr ->
     Segment_contains w (m_activeSegment this') p = true) /\
    updateCursorPosition w p this' =
      (Ready, this',
       if (m_activeSegment this' =? nullptr)%N then []
       else [cursorMove (m_activeSegment this')
               (to64 (p - Segment_position w (m_activeSegment this')))]).
Proof.
  intros Hw Hp. destruct this as [c a]. unfold updateCursorPosition.
  cbn [m_activeSegment m_cursorPosition].
  assert (Hagain : forall g,
    (g ≠ nullptr -> Segment_contains w g p = true) ->
    (g = nullptr -> segmentThatWraps w p = nullptr) ->
    updateCursorPosition w p {| m_cursorPosition := p; m_activeSegment := g |} =
      (Ready, {| m_cursorPosition := p; m_activeSegment := g |},
       if (g =? nullptr)%N then []
       else [cursorMove g (to64 (p - Segment_position w g))])).
  { intros g Hc Hn. unfold updateCursorPosition. cbn [m_activeSegment m_cursorPosition].
    destruct (N.eqb_spec g nullptr) as [->|Hg]; cbn [negb].
    - rewrite (Hn eq_refl). reflexivity.
    - rewrite (Hc Hg).
      destruct (Z.eqb_spec p (to64 (p + 1))) as [Heq|_];
        [symmetry in Heq; destruct (to64_succ_ne p Hp Heq)|].
      destruct (N.eqb_spec g nullptr); [contradiction|]. reflexivity. }
  destruct (N.eqb_spec a nullptr) as [->|Ha]; cbn [negb].
  - eexists. eexists. split; [reflexivity|]. cbn [m_activeSegment m_cursorPosition].
    split; [reflexivity|]. split; [intros H; contradiction|]. split; [reflexivity|].
    split; [apply Hw|]. apply Hagain; [apply Hw|auto].
  - destruct (Segment_contains w a p) eqn:Hc.
    + assert (E : (if p =? to64 (c + 1)
                   then (a, [cursorNext a (to64 (p - Segment_position w a))])
                   else (a, [cursorMove a (to64 (p - Segment_position w a))]))
                  = (a, [if p =? to64 (c + 1)
                         then cursorNext a (to64 (p - Segment_position w a))
                         else cursorMove a (to64 (p - Segment_position w a))]))
        by (destruct (p =? to64 (c + 1)); reflexivity).
      rewrite E. destruct (N.eqb_spec a nullptr); [contradiction|].
      eexists. eexists. split; [reflexivity|]. cbn [m_activeSegment m_cursorPosition].
      split; [reflexivity|]. split; [reflexivity|].
      split; [intros [H|H]; congruence|]. split; [auto|].
      apply Hagain; [auto|intros H; contradiction].
    + cbn [N.eqb nullptr]. change (0 =? 0)%N with true. cbn iota.
      eexists. eexists. split; [reflexivity|]. cbn [m_activeSegment m_cursorPosition].
      split; [reflexivity|]. split; [intros _ H; discriminate|]. split; [reflexivity|].
      split; [apply Hw|]. apply Hagain; [apply Hw|auto].
Qed.

Lemma one_segment_wraps_soundly : wraps_soundly one_segment.
Proof.
  intros q. unfold one_segment. cbn [segmentThatWraps Segment_contains].
  destruct (10 <=? q), (q <? 15); cbn; intros H; try reflexivity; contradiction.
Qed.

(** The cursor comes to 12 on a new track: the segment at 10 is entered. *)
Lemma updateCursorPosition_active_segment_witness :
  exists this' calls,
    updateCursorPosition one_segment 12 Track_ctor = (Ready, this', calls) /\
    m_activeSegment this' = 1%N.
Proof.
  destruct (updateCursorPosition_active_segment one_segment 12 Track_ctor
              one_segment_wraps_soundly)
    as (this' & calls & E & _ & _ & Hn & _).
  - unfold Int.in64, Int.min64, Int.max64. lia.
  - exists this', calls. split; [exact E|]. rewrite Hn; [reflexivity|left; reflexivity].
Defined.

Lemma bracketed_app open calls calls' g :
  bracketed open calls = Some g ->
  bracketed open (calls ++ calls') = bracketed g calls'.
Proof.
  revert open. induction calls as [|c calls IH]; intros open H.
  - injection H as ->. reflexivity.
  - destruct c; cbn [bracketed app] in *;
      match type of H with (if ?b then _ else _) = _ => destruct b end;
      try discriminate; apply IH; exact H.
Qed.

Lemma updateCursorPosition_bracketed w p this :
  bracketed (m_activeSegment this) (snd (updateCursorPosition w p this))
  = Some (m_activeSegment (snd (fst (updateCursorPosition w p this)))).
Proof.
  destruct this as [c a]. unfold updateCursorPosition.
  cbn [m_activeSegment m_cursorPosition]. unfold nullptr.
  destruct (N.eqb_spec a 0) as [->|Ha]; cbn [negb].
  - change (0 =? 0)%N with true. cbn iota.
    destruct (N.eqb_spec (segmentThatWraps w p) 0) as [->|Hs]; [reflexivity|].
    apply N.eqb_neq in Hs.
    cbn [negb bracketed app fst snd m_activeSegment]. unfold nullptr.
    change (0 =? 0)%N with true. rewrite Hs. reflexivity.
  - apply N.eqb_neq in Ha. destruct (Segment_contains w a p).
    + destruct (p =? to64 (c + 1)); rewrite Ha;
        cbn [negb bracketed app fst snd m_activeSegment]; unfold nullptr;
        rewrite Ha, N.eqb_refl; reflexivity.
    + change (0 =? 0)%N with true. cbn iota.
      destruct (N.eqb_spec (segmentThatWraps w p) 0) as [->|Hs];
        cbn [negb bracketed app fst snd m_activeSegment]; unfold nullptr;
        rewrite Ha, N.eqb_refl; cbn [negb andb bracketed]; [reflexivity|].
      apply N.eqb_neq in Hs. unfold nullptr.
      change (0 =? 0)%N with true. rewrite Hs. reflexivity.
Qed.

(** X14: over any run of calls of [Track::updateCursorPosition], whatever
    the segments answer at each call, the calls made on segments keep the
    discipline of the cursor: [cursorEnter] goes to a segment only when no
    segment is active, [cursorExit], [cursorNext] and [cursorMove] go only to
    the segment entered last and not left since, no call goes to a null
    segment, and the segment left open by the calls is the track's active
    segment.  In particular this holds of a newly constructed track. *)
Theorem cursor_calls_bracketed calls this :
  bracketed (m_activeSegment this) (snd (updates calls this))
  = Some (m_activeSegment (fst (updates calls this))).
Proof.
  revert this. induction calls as [|[w p] calls IH]; intros this; [reflexivity|].
  cbn [updates]. pose proof (updateCursorPosition_bracketed w p this) as H1.
  destruct (updateCursorPosition w p this) as [[op this1] made]. cbn [fst snd] in H1.
  specialize (IH this1). destruct (updates calls this1) as [this2 made'].
  cbn [fst snd] in *. rewrite (bracketed_app _ _ _ _ H1). exact IH.
Qed.

(** * The highlighter: [slice] *)

Lemma chars_of_app a b : chars_of (a ++ b) = chars_of a + chars_of b.
Proof.
  induction a as [|x a IH]; cbn [app chars_of]; [reflexivity|]. rewrite IH. lia.
Qed.

Lemma chars_of_nonneg bs : 0 <= chars_of bs.
Proof.
  induction bs as [|b bs IH]; cbn [chars_of]; [lia|].
  unfold block_length, QString_length. lia.
Qed.

Lemma after_blocks_app a b : after_blocks (a ++ b) = after_blocks a ++ after_blocks b.
Proof. unfold after_blocks. rewrite map_app, concat_app. reflexivity. Qed.

Lemma length_after_blocks bs : Z.of_nat (length (after_blocks bs)) = chars_of bs.
Proof.
  induction bs as [|b bs IH]; [reflexivity|].
  change (after_blocks (b :: bs)) with ((LF :: b) ++ after_blocks bs).
  rewrite length_app. cbn [length chars_of].
  unfold block_length, QString_length. lia.
Qed.

Lemma after_blocks_LF M :
  after_blocks M ++ [LF] = LF :: concat (map (fun b => b ++ [LF]) M).
Proof.
  induction M as [|m M IH]; [reflexivity|].
  change (after_blocks (m :: M)) with ((LF :: m) ++ after_blocks M).
  rewrite <- app_assoc, IH. cbn. rewrite <- app_assoc. reflexivity.
Qed.

(** The text of the document around one of its blocks. *)
Lemma joined_blocks_split pre b post :
  exists P, joined_blocks (mkDocument (pre ++ b :: post)) = P ++ b ++ after_blocks post /\
            Z.of_nat (length P) = chars_of pre.
Proof.
  unfold joined_blocks. cbn [blocks]. destruct pre as [|p pre].
  - exists []. split; reflexivity.
  - exists (p ++ after_blocks pre ++ [LF]). cbn [app]. split.
    + rewrite after_blocks_app.
      change (after_blocks (b :: post)) with ((LF :: b) ++ after_blocks post).
      rewrite <- !app_assoc. reflexivity.
    + rewrite !length_app, !Nat2Z.inj_add, length_after_blocks. cbn [length chars_of].
      unfold block_length, QString_length. lia.
Qed.

Lemma characterCount_joined_blocks doc :
  blocks doc ≠ [] -> characterCount doc = QString_length (joined_blocks doc) + 1.
Proof.
  destruct doc as [[|b bs]]; [intros H; contradiction|]. intros _.
  unfold characterCount, joined_blocks, QString_length. cbn [blocks chars_of].
  rewrite length_app, Nat2Z.inj_add, length_after_blocks.
  unfold block_length, QString_length. lia.
Qed.

(** [findBlock] on a position of the document. *)
Lemma findNode_split bs pos n :
  0 <= pos < chars_of bs ->
  exists pre b post,
    bs = pre ++ b :: post /\ findNode bs pos n = Block (n + length pre) /\
    chars_of pre <= pos < chars_of pre + block_length b.
Proof.
  revert pos n. induction bs as [|b bs IH]; intros pos n H.
  - cbn in H. lia.
  - cbn [findNode]. destruct (Z.ltb_spec pos (block_length b)) as [Hlt|Hge].
    + exists [], b, bs. rewrite Nat.add_0_r. cbn [chars_of app].
      split; [reflexivity|]. split; [reflexivity|lia].
    + destruct (IH (pos - block_length b) (S n)) as (pre & b' & post & -> & E & Hr).
      { cbn [chars_of] in H. lia. }
      exists (b :: pre), b', post. split; [reflexivity|]. split.
      * rewrite E. cbn [length]. f_equal. lia.
      * cbn [chars_of]. lia.
Qed.

Lemma findBlock_split doc pos :
  0 <= pos < characterCount doc ->
  exists pre b post,
    blocks doc = pre ++ b :: post /\ findBlock doc pos = Block (length pre) /\
    chars_of pre <= pos < chars_of pre + block_length b.
Proof.
  intros H. unfold findBlock. destruct (Z.ltb_spec pos 0); [lia|].
  apply (findNode_split (blocks doc) pos 0 H).
Qed.

(** The loop over the blocks between the first and the last. *)
Lemma slice_loop_blocks fuel pre M b post result :
  (length M <= fuel)%nat ->
  slice_loop fuel (mkDocument (pre ++ M ++ b :: post))
    (Block (length pre)) (Block (length pre + length M)) result
  = Some (result ++ concat (map (fun m => m ++ [LF]) M)).
Proof.
  revert fuel pre result. induction M as [|m M IH]; intros fuel pre result Hf.
  - cbn [length]. rewrite Nat.add_0_r. destruct fuel; cbn [slice_loop];
      (destruct (decide _) as [_|Hne]; [|contradiction]); cbn; rewrite app_nil_r; reflexivity.
  - cbn [length] in *. destruct fuel as [|fuel]; [lia|]. cbn [slice_loop].
    destruct (decide _) as [Heq|_]; [injection Heq; lia|].
    assert (Hnext : QTextBlock_next (mkDocument (pre ++ (m :: M) ++ b :: post))
                      (Block (length pre)) = Block (length (pre ++ [m]))).
    { cbn [QTextBlock_next blocks].
      destruct (decide _) as [_|Hn]; [f_equal; rewrite length_app; cbn [length]; lia|].
      exfalso. apply Hn. rewrite ?length_app. cbn [length]. rewrite ?length_app. lia. }
    assert (Htext : QTextBlock_text (mkDocument (pre ++ (m :: M) ++ b :: post))
                      (Block (length pre)) = m).
    { cbn [QTextBlock_text blocks app].
      rewrite list_lookup_middle by reflexivity. reflexivity. }
    rewrite Hnext, Htext.
    replace (pre ++ (m :: M) ++ b :: post) with ((pre ++ [m]) ++ M ++ b :: post)
      by (rewrite <- app_assoc; reflexivity).
    replace (length pre + S (length M))%nat with (length (pre ++ [m]) + length M)%nat
      by (rewrite length_app; cbn [length]; lia).
    rewrite IH by lia. cbn [map concat]. rewrite <- !app_assoc. reflexivity.
Qed.

Lemma take_drop_within {A} (b R : list A) o n :
  (o + n <= length b)%nat -> take n (drop o (b ++ R)) = take n (drop o b).
Proof.
  intros H. rewrite drop_app_le by lia. apply take_app_le. rewrite length_drop. lia.
Qed.

Lemma take_drop_across {A} (b M c R : list A) (x : A) o o2 :
  (o <= length b)%nat -> (o2 <= length c)%nat ->
  take (length b - o + length M + 1 + o2) (drop o (b ++ M ++ x :: c ++ R))
  = drop o b ++ M ++ x :: take o2 c.
Proof.
  intros Ho Ho2. rewrite drop_app_le by lia.
  replace (length b - o + length M + 1 + o2)%nat
    with (length (drop o b) + (length M + S o2))%nat by (rewrite length_drop; lia).
  rewrite take_app_add, take_app_add. cbn [take]. rewrite take_app_le by lia. reflexivity.
Qed.

(** Two ways of cutting a list at an element. *)
Lemma split_twice {A} (pre1 pre2 post1 post2 : list A) b1 b2 :
  pre1 ++ b1 :: post1 = pre2 ++ b2 :: post2 ->
  (length pre1 < length pre2)%nat ->
  exists M, pre2 = pre1 ++ b1 :: M /\ post1 = M ++ b2 :: post2.
Proof.
  revert pre2. induction pre1 as [|p pre1 IH]; intros [|q pre2] E Hlt; cbn [length] in Hlt;
    try lia; cbn [app] in E; injection E as -> E.
  - exists pre2. split; [reflexivity|exact E].
  - destruct (IH pre2 E) as (M & -> & ->); [lia|]. exists M. split; reflexivity.
Qed.

Lemma QString_right_drop (s : QString) (o : Z) :
  0 <= o <= QString_length s ->
  QString_right s (QString_length s - o) = drop (Z.to_nat o) s.
Proof.
  intros H. unfold QString_right.
  destruct (Z.ltb_spec (QString_length s - o) 0); [lia|]. cbn [orb].
  destruct (Z.leb_spec (QString_length s) (QString_length s - o)).
  - replace o with 0 by lia. reflexivity.
  - f_equal. f_equal. lia.
Qed.

Lemma QString_left_take (s : QString) (n : Z) :
  0 <= n <= QString_length s -> QString_left s n = take (Z.to_nat n) s.
Proof.
  intros H. unfold QString_left.
  destruct (Z.ltb_spec n 0); [lia|]. cbn [orb].
  destruct (Z.leb_spec (QString_length s) n); [|reflexivity].
  symmetry. apply take_ge. unfold QString_length in *. lia.
Qed.

Lemma QString_mid_within (s : QString) (o n : Z) :
  0 <= o -> 0 <= n -> o + n <= QString_length s ->
  QString_mid s o n = take (Z.to_nat n) (drop (Z.to_nat o) s).
Proof.
  intros Ho Hn H. unfold QString_mid.
  destruct (Z.ltb_spec (QString_length s) o); [lia|].
  destruct (Z.ltb_spec o 0); [lia|].
  destruct (Z.ltb_spec n 0); [lia|]. cbn [orb].
  destruct (Z.ltb_spec (QString_length s - o) n); [lia|]. reflexivity.
Qed.

Lemma in32_range z : 0 <= z <= Int.max32 -> Int.in32 z.
Proof. unfold Int.in32, Int.min32, Int.max32. lia. Qed.

(** [slice] between two positions of the text. *)
Lemma slice_in_document doc from to fuel :
  blocks doc ≠ [] -> characterCount doc <= Int.max32 ->
  0 <= from <= to -> to <= QString_length (joined_blocks doc) ->
  (length (blocks doc) <= fuel)%nat ->
  slice fuel doc from to = Some (substring (joined_blocks doc) from (to - from)).
Proof.
  intros Hne Hmax Hft Hto Hfuel.
  pose proof (characterCount_joined_blocks doc Hne) as Hcc.
  destruct (findBlock_split doc from) as (pre1 & b1 & post1 & E1 & F1 & R1); [lia|].
  destruct (findBlock_split doc to) as (pre2 & b2 & post2 & E2 & F2 & R2); [lia|].
  destruct doc as [bs]. cbn [blocks] in *. subst bs.
  unfold characterCount in *. cbn [blocks] in *.
  assert (Hb1 : chars_of pre1 + block_length b1 <= Int.max32).
  { rewrite chars_of_app in Hmax. cbn [chars_of] in Hmax.
    pose proof (chars_of_nonneg post1). lia. }
  pose proof (chars_of_nonneg pre1) as Hp1.
  pose proof (chars_of_nonneg pre2) as Hp2.
  unfold slice. rewrite F1, F2.
  assert (Htext1 : QTextBlock_text (mkDocument (pre1 ++ b1 :: post1)) (Block (length pre1)) = b1).
  { cbn [QTextBlock_text blocks]. rewrite list_lookup_middle by reflexivity. reflexivity. }
  assert (Hpos1 : QTextBlock_position (mkDocument (pre1 ++ b1 :: post1)) (Block (length pre1))
                  = chars_of pre1).
  { cbn [QTextBlock_position blocks]. rewrite take_app_length. reflexivity. }
  destruct (joined_blocks_split pre1 b1 post1) as (P & HP & HlenP).
  unfold substring. rewrite HP.
  rewrite drop_app_ge by lia.
  replace (Z.to_nat from - length P)%nat with (Z.to_nat (from - chars_of pre1)) by lia.
  unfold block_length in *.
  destruct (Nat.lt_trichotomy (length pre1) (length pre2)) as [Hlt|[Heq|Hgt]].
  - (* the positions lie in different blocks *)
    destruct (split_twice _ _ _ _ _ _ E2 Hlt) as (M & -> & ->).
    destruct (decide _) as [Hbad|_]; [injection Hbad; lia|].
    rewrite Htext1, Hpos1.
    assert (Htext2 : QTextBlock_text (mkDocument (pre1 ++ b1 :: M ++ b2 :: post2))
                       (Block (length (pre1 ++ b1 :: M))) = b2).
    { cbn [QTextBlock_text blocks].
      replace (pre1 ++ b1 :: M ++ b2 :: post2) with ((pre1 ++ b1 :: M) ++ b2 :: post2)
        by (rewrite <- app_assoc; reflexivity).
      rewrite list_lookup_middle by reflexivity. reflexivity. }
    assert (Hpos2 : QTextBlock_position (mkDocument (pre1 ++ b1 :: M ++ b2 :: post2))
                      (Block (length (pre1 ++ b1 :: M))) = chars_of (pre1 ++ b1 :: M)).
    { cbn [QTextBlock_position blocks].
      replace (pre1 ++ b1 :: M ++ b2 :: post2) with ((pre1 ++ b1 :: M) ++ b2 :: post2)
        by (rewrite <- app_assoc; reflexivity).
      rewrite take_app_length. reflexivity. }
    rewrite Htext2, Hpos2.
    rewrite chars_of_app in R2, Hpos2 |- *. cbn [chars_of] in R2, Hpos2 |- *.
    repeat (rewrite chars_of_app in Hmax; cbn [chars_of] in Hmax).
    pose proof (chars_of_nonneg M) as HM. pose proof (chars_of_nonneg post2) as Hpost.
    unfold block_length in *.
    rewrite (Int_to32_id (chars_of pre1 + QString_length b1)) by (apply in32_range; lia).
    rewrite (Int_to32_id (chars_of pre1 + QString_length b1 - from))
      by (apply in32_range; lia).
    rewrite (Int_to32_id (to - _)) by (apply in32_range; unfold QString_length in *; lia).
    replace (chars_of pre1 + QString_length b1 - from)
      with (QString_length b1 - (from - chars_of pre1)) by lia.
    rewrite QString_right_drop by lia.
    rewrite QString_left_take by lia.
    assert (Hnext : QTextBlock_next (mkDocument (pre1 ++ b1 :: M ++ b2 :: post2))
                      (Block (length pre1)) = Block (length (pre1 ++ [b1]))).
    { cbn [QTextBlock_next blocks].
      destruct (decide _) as [_|Hn]; [f_equal; rewrite length_app; cbn [length]; lia|].
      exfalso. apply Hn. rewrite !length_app. cbn [length]. rewrite ?length_app.
      cbn [length]. lia. }
    rewrite Hnext.
    replace (pre1 ++ b1 :: M ++ b2 :: post2) with ((pre1 ++ [b1]) ++ M ++ b2 :: post2)
      by (rewrite <- app_assoc; reflexivity).
    replace (length (pre1 ++ b1 :: M)) with (length (pre1 ++ [b1]) + length M)%nat
      by (rewrite !length_app; cbn [length]; lia).
    rewrite slice_loop_blocks.
    2:{ rewrite !length_app in Hfuel. cbn [length] in Hfuel.
        rewrite length_app in Hfuel. cbn [length] in Hfuel. lia. }
    f_equal.
    rewrite after_blocks_app.
    change (after_blocks (b2 :: post2)) with ((LF :: b2) ++ after_blocks post2).
    cbn [app].
    pose proof (length_after_blocks M) as HlM.
    replace (Z.to_nat (to - from))
      with (length b1 - Z.to_nat (from - chars_of pre1) + length (after_blocks M) + 1
            + Z.to_nat (to - (chars_of pre1 + (QString_length b1 + 1 + chars_of M))))%nat
      by (unfold QString_length in *; lia).
    rewrite take_drop_across by (unfold QString_length in *; lia).
    rewrite <- !app_assoc. f_equal.
    change (after_blocks M ++ LF :: ?x) with (after_blocks M ++ [LF] ++ x).
    rewrite (app_assoc (after_blocks M)), after_blocks_LF. reflexivity.
  - (* the positions lie in the same block *)
    destruct (app_inj_1 _ _ _ _ Heq E2) as [<- [= <- <-]].
    destruct (decide _) as [_|Hbad]; [|contradiction].
    rewrite Htext1, Hpos1.
    rewrite (Int_to32_id (from - chars_of pre1)) by (apply in32_range; lia).
    rewrite (Int_to32_id (to - from)) by (apply in32_range; lia).
    rewrite QString_mid_within by lia. f_equal. symmetry.
    apply take_drop_within. unfold QString_length in *. lia.
  - (* the block of [to] would come first *)
    symmetry in E2. destruct (split_twice _ _ _ _ _ _ E2 Hgt) as (M & -> & _).
    rewrite chars_of_app in R1. cbn [chars_of] in R1.
    pose proof (chars_of_nonneg M). unfold block_length in *. lia.
Qed.

(** What [toPlainText] makes of the joined texts of the blocks. *)
Lemma length_toPlainText doc :
  QString_length (toPlainText doc) = QString_length (joined_blocks doc).
Proof. unfold toPlainText, QString_length. rewrite length_map. reflexivity. Qed.

Lemma toPlainText_substring doc from n :
  map toPlainText_char (substring (joined_blocks doc) from n)
  = substring (toPlainText doc) from n.
Proof. unfold substring, toPlainText. rewrite skipn_map, firstn_map. reflexivity. Qed.

Lemma toPlainText_drop doc n :
  map toPlainText_char (drop n (joined_blocks doc)) = drop n (toPlainText doc).
Proof. unfold toPlainText. rewrite skipn_map. reflexivity. Qed.

Lemma map_kept (l : QString) :
  forallb (fun c => (toPlainText_char c =? c)%N) l = true -> map toPlainText_char l = l.
Proof.
  induction l as [|c l IH]; [reflexivity|]. cbn [forallb map]. intros H.
  apply andb_true_iff in H. destruct H as [Hc H]. apply N.eqb_eq in Hc.
  rewrite Hc, (IH H). reflexivity.
Qed.

Lemma toPlainText_kept doc :
  kept_by_toPlainText doc = true -> toPlainText doc = joined_blocks doc.
Proof.
  unfold kept_by_toPlainText, toPlainText, joined_blocks.
  destruct (blocks doc) as [|b bs]; [reflexivity|]. cbn [forallb]. intros H.
  apply andb_true_iff in H. destruct H as [Hb H].
  rewrite map_app, (map_kept b Hb). f_equal.
  induction bs as [|b' bs IH]; [reflexivity|]. cbn [forallb] in H.
  apply andb_true_iff in H. destruct H as [Hb' H].
  change (after_blocks (b' :: bs)) with ((LF :: b') ++ after_blocks bs).
  rewrite map_app, (IH H). cbn [map]. rewrite (map_kept b' Hb'). reflexivity.
Qed.

(** X15: on a document of fewer than 2^31 characters [slice(doc, from, to)]
    returns, for every pair of positions [0 <= from <= to] up to the end of
    the text, the [to - from] code units that start at [from] in the texts
    of the blocks joined by line feeds, whether the two positions lie in
    one block or in different ones; the loop over the blocks in between
    ends within as many rounds as the document has blocks.  [slice] reads
    [QTextBlock::text()], which leaves the code units as they are, so that
    the result is the part of [toPlainText()] at these positions only up to
    the rewriting [toPlainText()] makes (of the no-break space, the line
    and paragraph separators and the frame markers); it is exactly that
    part when the document holds no code unit that is rewritten. *)
Theorem slice_substring doc from to fuel :
  blocks doc ≠ [] -> characterCount doc <= Int.max32 ->
  0 <= from <= to -> to <= QString_length (toPlainText doc) ->
  (length (blocks doc) <= fuel)%nat ->
  exists text,
    slice fuel doc from to = Some text /\
    text = substring (joined_blocks doc) from (to - from) /\
    map toPlainText_char text = substring (toPlainText doc) from (to - from) /\
    (kept_by_toPlainText doc = true ->
     text = substring (toPlainText doc) from (to - from)).
Proof.
  intros Hne Hmax Hft Hto Hfuel. rewrite length_toPlainText in Hto.
  eexists. split; [apply (slice_in_document doc from to fuel); assumption|].
  split; [reflexivity|]. split; [apply toPlainText_substring|].
  intros Hk. rewrite (toPlainText_kept doc Hk). reflexivity.
Qed.

(** [slice(doc, 1, 4)] on the lines [ab] and [cd] is [b], a line feed and
    [c]. *)
Lemma slice_substring_witness :
  slice 2 two_lines 1 4 = Some [98%N; LF; 99%N].
Proof.
  destruct (slice_substring two_lines 1 4 2) as (text & E & Ht & _).
  - discriminate.
  - vm_compute. discriminate.
  - lia.
  - vm_compute. discriminate.
  - cbn. lia.
  - rewrite E, Ht. reflexivity.
Defined.

Lemma QTextBlock_next_past doc m block :
  past m block -> past m (QTextBlock_next doc block).
Proof.
  destruct block as [n| |]; cbn [QTextBlock_next past]; intros H; [|exact I|exact I].
  destruct (decide _); cbn [past]; [lia|exact I].
Qed.

Lemma slice_loop_past fuel doc m block result :
  past m block -> slice_loop fuel doc block (Block m) result = None.
Proof.
  revert block result. induction fuel as [|fuel IH]; intros block result H; cbn [slice_loop];
    (destruct (decide _) as [->|_]; [cbn in H; lia|]); [reflexivity|].
  apply IH. apply QTextBlock_next_past. exact H.
Qed.

(** X16: [slice(doc, from, to)] never returns when [to] lies in a block of
    the document and [from] lies in a later block or outside the document:
    the loop walks from the block of [from] to the end of the document and
    then stays on the invalid block, which is never equal to the block of
    [to]. *)
Theorem slice_never_returns doc from to m :
  findBlock doc to = Block m -> past m (findBlock doc from) ->
  forall fuel, slice fuel doc from to = None.
Proof.
  intros Hto Hfrom fuel. unfold slice. rewrite Hto.
  destruct (decide _) as [E|_]; [rewrite E in Hfrom; cbn in Hfrom; lia|].
  rewrite slice_loop_past; [reflexivity|].
  apply QTextBlock_next_past. exact Hfrom.
Qed.

(** [slice(doc, 4, 1)] on the lines [ab] and [cd] has not returned after a
    thousand rounds of the loop. *)
Lemma slice_never_returns_witness : slice 1000 two_lines 4 1 = None.
Proof.
  refine (slice_never_returns two_lines 4 1 0 _ _ 1000%nat).
  - reflexivity.
  - vm_compute. lia.
Defined.

Lemma slice_loop_to_end fuel pre M result :
  (length M <= fuel)%nat ->
  slice_loop fuel (mkDocument (pre ++ M))
    (match M with [] => EndBlock | _ => Block (length pre) end) EndBlock result
  = Some (result ++ concat (map (fun m => m ++ [LF]) M)).
Proof.
  revert fuel pre result. induction M as [|m M IH]; intros fuel pre result Hf.
  - destruct fuel; cbn [slice_loop]; (destruct (decide _) as [_|Hne]; [|contradiction]);
      cbn; rewrite app_nil_r; reflexivity.
  - cbn [length] in Hf. destruct fuel as [|fuel]; [lia|]. cbn [slice_loop].
    destruct (decide _) as [Heq|_]; [discriminate|].
    assert (Hnext : QTextBlock_next (mkDocument (pre ++ m :: M)) (Block (length pre))
                    = match M with [] => EndBlock | _ => Block (length (pre ++ [m])) end).
    { cbn [QTextBlock_next blocks]. rewrite !length_app. cbn [length].
      destruct M as [|m' M]; cbn [length]; destruct (decide _); try lia; [reflexivity|].
      f_equal. lia. }
    assert (Htext : QTextBlock_text (mkDocument (pre ++ m :: M)) (Block (length pre)) = m).
    { cbn [QTextBlock_text blocks]. rewrite list_lookup_middle by reflexivity. reflexivity. }
    rewrite Hnext, Htext.
    replace (pre ++ m :: M) with ((pre ++ [m]) ++ M) by (rewrite <- app_assoc; reflexivity).
    rewrite IH by lia. cbn [map concat]. rewrite <- !app_assoc. reflexivity.
Qed.

Lemma QString_mid_nil position n : QString_mid [] position n = [].
Proof.
  assert (H : forall i j, take i (drop j ([] : QString)) = [])
    by (intros [|i] [|j]; reflexivity).
  unfold QString_mid. destruct (_ <? position); [reflexivity|].
  destruct (position <? 0); [|apply H].
  destruct (_ || _); [reflexivity|]. destruct (_ <=? 0); [reflexivity|].
  apply (H _ 0%nat).
Qed.

(** X17: with [to] outside the document (negative, or past the last
    position) [slice(doc, from, to)] still returns.  For [from] inside a
    document of fewer than 2^31 characters the result is the joined texts
    of the blocks from [from] to the end followed by one more line feed,
    which is no part of the text; when the document holds no code unit
    that [toPlainText()] rewrites, this is [toPlainText()] from [from] on
    and a line feed.  For [from] outside as well the result is empty. *)
Theorem slice_past_the_end doc from to fuel :
  blocks doc ≠ [] -> characterCount doc <= Int.max32 ->
  to < 0 \/ characterCount doc <= to ->
  (length (blocks doc) <= fuel)%nat ->
  (0 <= from < characterCount doc ->
   slice fuel doc from to
   = Some (drop (Z.to_nat from) (joined_blocks doc) ++ [LF]) /\
   (kept_by_toPlainText doc = true ->
    slice fuel doc from to
    = Some (drop (Z.to_nat from) (toPlainText doc) ++ [LF]))) /\
  (from < 0 \/ characterCount doc <= from -> slice fuel doc from to = Some []).
Proof.
  intros Hne Hmax Hto Hfuel.
  assert (Hend : forall pos, pos < 0 \/ characterCount doc <= pos ->
                             findBlock doc pos = EndBlock).
  { intros pos H. unfold findBlock. destruct (Z.ltb_spec pos 0) as [|Hpos]; [reflexivity|].
    destruct H as [H|H]; [lia|]. unfold characterCount in H.
    clear -H Hpos. generalize 0%nat. revert pos H Hpos.
    induction (blocks doc) as [|b bs IH]; intros pos H Hpos n; [reflexivity|].
    cbn [chars_of] in H. cbn [findNode].
    pose proof (chars_of_nonneg bs).
    destruct (Z.ltb_spec pos (block_length b)); [lia|].
    apply IH; unfold block_length, QString_length in *; lia. }
  split.
  - intros Hfrom.
    enough (Hraw : slice fuel doc from to
                   = Some (drop (Z.to_nat from) (joined_blocks doc) ++ [LF])).
    { split; [exact Hraw|]. intros Hk. rewrite Hraw, (toPlainText_kept doc Hk).
      reflexivity. }
    destruct (findBlock_split doc from) as (pre1 & b1 & post1 & E1 & F1 & R1); [lia|].
    destruct doc as [bs]. cbn [blocks] in *. subst bs.
    unfold slice. rewrite F1, (Hend to Hto).
    destruct (decide _) as [Hbad|_]; [discriminate|].
    unfold characterCount in *. cbn [blocks] in *.
    assert (Htext1 : QTextBlock_text (mkDocument (pre1 ++ b1 :: post1)) (Block (length pre1))
                     = b1).
    { cbn [QTextBlock_text blocks]. rewrite list_lookup_middle by reflexivity. reflexivity. }
    assert (Hpos1 : QTextBlock_position (mkDocument (pre1 ++ b1 :: post1))
                      (Block (length pre1)) = chars_of pre1).
    { cbn [QTextBlock_position blocks]. rewrite take_app_length. reflexivity. }
    rewrite Htext1, Hpos1.
    assert (Hnext : QTextBlock_next (mkDocument (pre1 ++ b1 :: post1)) (Block (length pre1))
                    = match post1 with [] => EndBlock | _ => Block (length (pre1 ++ [b1])) end).
    { cbn [QTextBlock_next blocks]. rewrite !length_app. cbn [length].
      destruct post1 as [|m' M]; cbn [length]; destruct (decide _); try lia; [reflexivity|].
      f_equal. lia. }
    rewrite Hnext.
    replace (pre1 ++ b1 :: post1) with ((pre1 ++ [b1]) ++ post1)
      by (rewrite <- app_assoc; reflexivity).
    rewrite slice_loop_to_end.
    2:{ rewrite length_app in Hfuel. cbn [length] in Hfuel. lia. }
    cbn [QTextBlock_text]. unfold QString_left at 1.
    assert (Hnil : forall n, (if (n <? 0) || (QString_length [] <=? n) then []
                              else take (Z.to_nat n) ([] : QString)) = [])
      by (intros n; destruct ((n <? 0) || (QString_length [] <=? n));
          [reflexivity|destruct (Z.to_nat n); reflexivity]).
    rewrite Hnil, app_nil_r. clear Hnil.
    rewrite chars_of_app in Hmax. cbn [chars_of] in Hmax.
    pose proof (chars_of_nonneg pre1). pose proof (chars_of_nonneg post1).
    unfold block_length in *.
    rewrite (Int_to32_id (chars_of pre1 + QString_length b1)) by (apply in32_range; lia).
    rewrite (Int_to32_id (chars_of pre1 + QString_length b1 - from))
      by (apply in32_range; lia).
    replace (chars_of pre1 + QString_length b1 - from)
      with (QString_length b1 - (from - chars_of pre1)) by lia.
    rewrite QString_right_drop by lia. f_equal.
    rewrite <- app_assoc.
    destruct (joined_blocks_split pre1 b1 post1) as (P & HP & HlenP).
    rewrite <- (app_assoc pre1 [b1] post1). cbn [app]. rewrite HP.
    rewrite drop_app_ge by lia.
    replace (Z.to_nat from - length P)%nat with (Z.to_nat (from - chars_of pre1)) by lia.
    rewrite drop_app_le by (unfold QString_length in *; lia).
    rewrite <- !app_assoc. f_equal.
    change ([LF] ++ ?x) with (LF :: x). rewrite <- after_blocks_LF. reflexivity.
  - intros Hfrom. unfold slice. rewrite (Hend from Hfrom), (Hend to Hto).
    destruct (decide _) as [_|Hbad]; [|contradiction].
    cbn [QTextBlock_text]. rewrite QString_mid_nil. reflexivity.
Qed.

(** [slice(doc, 1, -1)] on the lines [ab] and [cd]: the text from 1 on and a
    line feed. *)
Lemma slice_past_the_end_witness :
  slice 2 two_lines 1 (-1) = Some [98%N; LF; 99%N; 100%N; LF].
Proof.
  refine (proj1 (proj1 (slice_past_the_end two_lines 1 (-1) 2 _ _ _ _) _)).
  - discriminate.
  - vm_compute. discriminate.
  - left. lia.
  - cbn. lia.
  - vm_compute. split; [discriminate|reflexivity].
Defined.

(** * The highlighter: the predicates [eq?] and [eq-or?] *)

Lemma predicateEqOr_loop_texts F fuel doc compare1 rest texts :
  Forall2 (fun arg t => argument_text F fuel doc arg = Some t) rest texts ->
  predicateEqOr_loop F fuel doc compare1 rest = Answers (bool_decide (compare1 ∈ texts)).
Proof.
  induction 1 as [|arg t rest texts Ht _ IH]; cbn [predicateEqOr_loop].
  - reflexivity.
  - rewrite Ht. destruct (decide (compare1 = t)) as [->|Hne].
    + rewrite bool_decide_eq_true_2 by reflexivity. f_equal. symmetry.
      apply bool_decide_eq_true. apply list_elem_of_here.
    + rewrite bool_decide_eq_false_2 by exact Hne. rewrite IH. f_equal.
      apply bool_decide_ext. rewrite elem_of_cons. tauto.
Qed.

Lemma predicateEqOr_loop_no_throw F fuel doc compare1 rest message c :
  predicateEqOr_loop F fuel doc compare1 rest ≠ Throws message c.
Proof.
  induction rest as [|arg rest IH]; cbn [predicateEqOr_loop]; [discriminate|].
  destruct (argument_text F fuel doc arg); [|discriminate].
  destruct (bool_decide _); [discriminate|exact IH].
Qed.

Lemma predicateEqOr_loop_found F fuel doc compare1 rest more :
  predicateEqOr_loop F fuel doc compare1 rest = Answers true ->
  predicateEqOr_loop F fuel doc compare1 (rest ++ more) = Answers true.
Proof.
  induction rest as [|arg rest IH]; cbn [predicateEqOr_loop app]; [discriminate|].
  destruct (argument_text F fuel doc arg); [|discriminate].
  destruct (bool_decide _); [reflexivity|exact IH].
Qed.

(** X18: [eq-or?] on a captured range and one or more literals, the use the
    query of the highlighter makes of it: when the range lies within the
    text of the document (of fewer than 2^31 characters), the predicate
    answers, and answers true exactly when the code units of the range, as
    [QTextBlock::text()] gives them with line feeds between the blocks, are
    the decoded text of one of the literals.  When the document holds no
    code unit that [toPlainText()] rewrites, these are the code units of
    the range in [toPlainText()]. *)
Theorem predicateEqOr_on_capture F fuel doc from length values :
  blocks doc ≠ [] -> characterCount doc <= Int.max32 ->
  0 <= from -> 0 <= length -> from + length <= QString_length (toPlainText doc) ->
  (List.length (blocks doc) <= fuel)%nat -> values ≠ [] ->
  predicateEqOr F fuel (captured from length :: map literal values) doc
  = Answers (bool_decide (substring (joined_blocks doc) from length ∈ map F values)) /\
  (kept_by_toPlainText doc = true ->
   predicateEqOr F fuel (captured from length :: map literal values) doc
   = Answers (bool_decide (substring (toPlainText doc) from length ∈ map F values))).
Proof.
  intros Hne Hmax Hfrom Hlen Hend Hfuel Hvalues. rewrite length_toPlainText in Hend.
  enough (Hraw : predicateEqOr F fuel (captured from length :: map literal values) doc
                 = Answers (bool_decide
                              (substring (joined_blocks doc) from length ∈ map F values))).
  { split; [exact Hraw|]. intros Hk. rewrite Hraw, (toPlainText_kept doc Hk). reflexivity. }
  pose proof (characterCount_joined_blocks doc Hne) as Hcc.
  assert (Ht : argument_text F fuel doc (captured from length)
               = Some (substring (joined_blocks doc) from length)).
  { unfold argument_text, captured. cbn.
    rewrite (Int_to32_id from) by (apply in32_range; lia).
    rewrite (Int_to32_id (from + length)) by (apply in32_range; lia).
    rewrite slice_in_document by (assumption || lia).
    do 3 f_equal. lia. }
  destruct values as [|v values]; [contradiction|].
  cbn [map]. unfold predicateEqOr. rewrite Ht.
  apply predicateEqOr_loop_texts.
  change (literal v :: map literal values) with (map literal (v :: values)).
  change (F v :: map F values) with (map F (v :: values)).
  clear. induction (v :: values) as [|w l IH]; cbn [map]; constructor; [reflexivity|exact IH].
Qed.

(** [eq-or?] on the range of [cd] in the lines [ab] and [cd], against the
    literals [ab] and [cd]. *)
Lemma predicateEqOr_on_capture_witness :
  predicateEqOr fromAscii 2 [captured 3 2; literal "ab"; literal "cd"] two_lines
  = Answers true.
Proof.
  refine (proj1 (predicateEqOr_on_capture fromAscii 2 two_lines 3 2 ["ab"; "cd"]%string
                   _ _ _ _ _ _ _)).
  - discriminate.
  - vm_compute. discriminate.
  - lia.
  - lia.
  - vm_compute. discriminate.
  - cbn. lia.
  - discriminate.
Defined.

Lemma predicateEq_throws F fuel doc args :
  (exists message c, predicateEq F fuel args doc = Throws message c)
  <-> List.length args ≠ 2%nat.
Proof.
  destruct args as [|a [|b [|c r]]]; cbn [List.length predicateEq];
    try (split; [intros _; lia|intros _; eexists _, _; reflexivity]).
  split; [|intros H; lia]. intros (m & c & H).
  destruct (argument_text F fuel doc a); [|discriminate].
  destruct (argument_text F fuel doc b); discriminate.
Qed.

Lemma predicateEqOr_throws F fuel doc args :
  (exists message c, predicateEqOr F fuel args doc = Throws message c)
  <-> (List.length args < 2)%nat.
Proof.
  destruct args as [|a [|b r]]; cbn [List.length predicateEqOr];
    try (split; [intros _; lia|intros _; eexists _, _; reflexivity]).
  split; [|intros H; lia]. intros (m & c & H).
  destruct (argument_text F fuel doc a); [|discriminate].
  destruct (predicateEqOr_loop_no_throw _ _ _ _ _ _ _ H).
Qed.

Lemma predicateEqOr_two F fuel doc a b :
  predicateEqOr F fuel [a; b] doc = predicateEq F fuel [a; b] doc.
Proof.
  cbn [predicateEq predicateEqOr predicateEqOr_loop].
  destruct (argument_text F fuel doc a); [|reflexivity].
  destruct (argument_text F fuel doc b); [|reflexivity].
  destruct (bool_decide _); reflexivity.
Qed.

Lemma predicateEq_swap F fuel doc a b :
  predicateEq F fuel [b; a] doc = predicateEq F fuel [a; b] doc.
Proof.
  cbn [predicateEq].
  destruct (argument_text F fuel doc a) as [ta|];
    destruct (argument_text F fuel doc b) as [tb|]; try reflexivity.
  f_equal. apply bool_decide_ext. split; intros H; symmetry; exact H.
Qed.

Lemma predicateEqOr_found F fuel doc args more :
  predicateEqOr F fuel args doc = Answers true ->
  predicateEqOr F fuel (args ++ more) doc = Answers true.
Proof.
  destruct args as [|a [|b r]]; cbn [predicateEqOr app]; try discriminate.
  destruct (argument_text F fuel doc a); [|discriminate].
  apply (predicateEqOr_loop_found F fuel doc _ (b :: r) more).
Qed.

(** X19: [eq?] throws exactly when it is not given two arguments and
    [eq-or?] exactly when it is given fewer than two; on two arguments
    [eq-or?] is [eq?]; [eq?] does not depend on the order of its two
    arguments; and once [eq-or?] has answered true, arguments added at the
    end are not looked at: the answer stays true whatever they are. *)
Theorem predicates_by_arguments F fuel doc args :
  ((exists message c, predicateEq F fuel args doc = Throws message c)
   <-> List.length args ≠ 2%nat) /\
  ((exists message c, predicateEqOr F fuel args doc = Throws message c)
   <-> (List.length args < 2)%nat) /\
  (List.length args = 2%nat ->
   predicateEqOr F fuel args doc = predicateEq F fuel args doc /\
   predicateEq F fuel (rev args) doc = predicateEq F fuel args doc) /\
  (forall more, predicateEqOr F fuel args doc = Answers true ->
                predicateEqOr F fuel (args ++ more) doc = Answers true).
Proof.
  split; [apply predicateEq_throws|]. split; [apply predicateEqOr_throws|].
  split; [|intros more; apply predicateEqOr_found].
  intros H. destruct args as [|a [|b [|c r]]]; try discriminate.
  split; [apply predicateEqOr_two|apply predicateEq_swap].
Qed.
